(** * landlens-manager: the image import script, embedded and verified

    A shallow embedding of [scripts/import_images.py].  Python text is a
    [string] whose characters are code points below 256; sets are [gset];
    the process environment is a [gmap]; exceptions are a sum type;
    warnings, progress lines and database calls are events of a trace;
    the three module attributes patched by [load_images_filtered] live in
    an explicit store that every effectful function threads.  The file
    system is a directory tree without symbolic links, on which
    [Path.resolve] changes nothing; the database is reachable and answers
    through a record of its results. *)

From Stdlib Require Import ZArith Ascii String.
From stdpp Require Import base strings list gmap sets pretty.

Set Warnings "-register-all".
Open Scope string_scope.
Open Scope list_scope.

(** ** Python text operations used by the script *)

Module PyStr.

Definition in_range (lo hi n : N) : bool := ((lo <=? n) && (n <=? hi))%N.

(** [str.lower] on one code point below 256: A-Z, and the Latin-1 capitals
    U+00C0..U+00DE except the multiplication sign U+00D7. *)
Definition lower_char (c : ascii) : ascii :=
  let n := N_of_ascii c in
  if in_range 65 90 n || (in_range 192 222 n && negb (n =? 215)%N)
  then ascii_of_N (n + 32) else c.

Fixpoint lower (s : string) : string :=
  match s with
  | EmptyString => EmptyString
  | String c r => String (lower_char c) (lower r)
  end.

(** Code points below 256 for which [str.isspace] holds; [str.strip]
    removes exactly these at both ends. *)
Definition is_space (c : ascii) : bool :=
  let n := N_of_ascii c in
  in_range 9 13 n || in_range 28 32 n || (n =? 133)%N || (n =? 160)%N.

Fixpoint lstrip (s : string) : string :=
  match s with
  | EmptyString => EmptyString
  | String c r => if is_space c then lstrip r else s
  end.

Fixpoint rstrip (s : string) : string :=
  match s with
  | EmptyString => EmptyString
  | String c r =>
      match rstrip r with
      | EmptyString => if is_space c then EmptyString else String c EmptyString
      | r' => String c r'
      end
  end.

Definition strip (s : string) : string := lstrip (rstrip s).

(** [s.endswith(suffix)] and [s.endswith((s1, s2, ...))]. *)
Fixpoint endswith (s suffix : string) : bool :=
  if String.eqb s suffix then true
  else match s with
       | EmptyString => false
       | String _ r => endswith r suffix
       end.

Definition endswith_any (s : string) (suffixes : list string) : bool :=
  existsb (endswith s) suffixes.

(** [s.replace(old, new)] for one-character [old] and [new]. *)
Fixpoint replace_char (old new : ascii) (s : string) : string :=
  match s with
  | EmptyString => EmptyString
  | String c r =>
      String (if Ascii.eqb c old then new else c) (replace_char old new r)
  end.

(** [s.split(sep)] for a one-character separator: empty pieces are kept,
    and the empty text splits into one empty piece. *)
Fixpoint split (sep : ascii) (s : string) : list string :=
  match s with
  | EmptyString => [EmptyString]
  | String c r =>
      if Ascii.eqb c sep then EmptyString :: split sep r
      else match split sep r with
           | p :: ps => String c p :: ps
           | [] => [String c EmptyString]
           end
  end.

(** [sep.join(parts)] *)
Definition join (sep : string) (parts : list string) : string :=
  String.concat sep parts.

(** Truth value of a text: non-empty. *)
Definition nonempty (s : string) : bool := negb (String.eqb s "").

Definition digit_val (c : ascii) : option Z :=
  let n := N_of_ascii c in
  if in_range 48 57 n then Some (Z.of_N (n - 48)) else None.

(** The digits of [int(text)] in base ten: decimal digits, with single
    underscores allowed between two digits only. [after_digit] records
    that the previous character was a digit. *)
Fixpoint int_digits (s : string) (acc : Z) (after_digit : bool) : option Z :=
  match s with
  | EmptyString => if after_digit then Some acc else None
  | String c r =>
      match digit_val c with
      | Some d => int_digits r (10 * acc + d)%Z true
      | None =>
          if Ascii.eqb c "_" && after_digit then int_digits r acc false
          else None
      end
  end.

(** The white space [int] drops at both ends of a text: the ASCII blanks
    and, of the code points from 128 to 255, the two for which
    [str.isspace] holds.  The separators U+001C..U+001F, which [str.strip]
    removes, are not among them. *)
Definition is_int_space (c : ascii) : bool :=
  let n := N_of_ascii c in
  in_range 9 13 n || (n =? 32)%N || (n =? 133)%N || (n =? 160)%N.

Fixpoint int_lstrip (s : string) : string :=
  match s with
  | EmptyString => EmptyString
  | String c r => if is_int_space c then int_lstrip r else s
  end.

Fixpoint int_rstrip (s : string) : string :=
  match s with
  | EmptyString => EmptyString
  | String c r =>
      match int_rstrip r with
      | EmptyString => if is_int_space c then EmptyString else String c EmptyString
      | r' => String c r'
      end
  end.

(** The number of decimal digits of a text, underscores not counted. *)
Fixpoint digit_count (s : string) : N :=
  match s with
  | EmptyString => 0
  | String c r =>
      match digit_val c with
      | Some _ => N.succ (digit_count r)
      | None => digit_count r
      end
  end.

(** [sys.get_int_max_str_digits()] as the interpreter starts with it. *)
Definition int_max_str_digits : N := 4300.

(** The numeral after the sign: its digits, when there are no more of
    them than the interpreter converts. *)
Definition int_numeral (s : string) : option Z :=
  if (digit_count s <=? int_max_str_digits)%N then int_digits s 0 false else None.

(** [int(text)]: surrounding white space is dropped, one sign is allowed;
    [None] stands for the [ValueError] Python raises, for a malformed
    numeral as for one with more digits than the interpreter converts. *)
Definition int (s : string) : option Z :=
  match int_lstrip (int_rstrip s) with
  | EmptyString => None
  | String c r =>
      if Ascii.eqb c "+" then int_numeral r
      else if Ascii.eqb c "-" then Z.opp <$> int_numeral r
      else int_numeral (String c r)
  end.

(** Code points below 256 that [repr] writes as they are. *)
Definition is_printable (c : ascii) : bool :=
  let n := N_of_ascii c in
  negb (in_range 0 31 n || in_range 127 160 n || (n =? 173)%N).

Definition hex_digit (n : N) : ascii :=
  ascii_of_N (if (n <? 10)%N then 48 + n else 87 + n).

(** One character of [repr(text)] between the quotes [quote]. *)
Definition repr_char (quote c : ascii) : string :=
  let n := N_of_ascii c in
  if Ascii.eqb c quote || Ascii.eqb c "\" then String "\" (String c EmptyString)
  else if Ascii.eqb c "009" then "\t"
  else if Ascii.eqb c "010" then "\n"
  else if Ascii.eqb c "013" then "\r"
  else if is_printable c then String c EmptyString
  else String "\" (String "x" (String (hex_digit (n / 16))
                                 (String (hex_digit (n mod 16)) EmptyString))).

Fixpoint contains (c : ascii) (s : string) : bool :=
  match s with
  | EmptyString => false
  | String c' r => Ascii.eqb c c' || contains c r
  end.

Fixpoint repr_chars (quote : ascii) (s : string) : string :=
  match s with
  | EmptyString => String quote EmptyString
  | String c r => String.append (repr_char quote c) (repr_chars quote r)
  end.

(** [repr(text)]: single quotes, unless the text holds a single quote and
    no double quote; the quote in use, the backslash and the code points
    that are not printable are escaped. *)
Definition repr (s : string) : string :=
  let quote :=
    if contains "'" s && negb (contains "034" s) then "034"%char else "'"%char in
  String quote (repr_chars quote s).

End PyStr.

(** ** Exceptions and results *)

(** The instances of [Exception] the script raises or meets; interpreter
    signals outside [Exception], which [except Exception] lets through,
    are not part of a run. *)
Inductive Exn : Type :=
  | ValueError (msg : string)
  | RuntimeError (msg : string)
  | KeyError (key : string)
  | AttributeError (msg : string)
  | OtherError (msg : string).

(** [str(exc)] *)
Definition exn_str (e : Exn) : string :=
  match e with
  | ValueError m | RuntimeError m | AttributeError m | OtherError m => m
  | KeyError k => PyStr.repr k
  end.

Inductive Result (A : Type) : Type :=
  | Ok (a : A)
  | Raise (e : Exn).
Arguments Ok {A} a.
Arguments Raise {A} e.

Definition is_raise {A} (r : Result A) : Prop :=
  match r with Raise _ => True | Ok _ => False end.

(** ** Configuration *)

Definition ALLOWED_EXTENSIONS : list string := [".jpg"; ".jpeg"].
Definition DEFAULT_THUMBNAIL_SIZE : Z * Z := (256, 256)%Z.

Definition parse_bool (value : option string) (default : bool) : bool :=
  match value with
  | None => default
  | Some v =>
      bool_decide (PyStr.lower (PyStr.strip v)
                   ∈ ({["1"; "true"; "yes"; "y"; "on"]} : gset string))
  end.

Definition parse_thumbnail_size (raw : option string) : Result (Z * Z) :=
  match raw with
  | None => Ok DEFAULT_THUMBNAIL_SIZE
  | Some "" => Ok DEFAULT_THUMBNAIL_SIZE
  | Some raw =>
      let normalized := PyStr.replace_char "x" "," (PyStr.lower raw) in
      let parts := List.filter PyStr.nonempty (PyStr.split "," normalized) in
      match parts with
      | [p0; p1] =>
          match PyStr.int p0, PyStr.int p1 with
          | Some w, Some h => Ok (w, h)
          | _, _ => Raise (ValueError "Thumbnail size values must be integers")
          end
      | _ => Raise (ValueError "Thumbnail size must look like 256x256 or 256,256")
      end
  end.

(** Python's [a or b] on optional text: [a] when it is set and non-empty. *)
Definition truthy (o : option string) : bool :=
  match o with Some s => PyStr.nonempty s | None => false end.

Definition por (a b : option string) : option string :=
  if truthy a then a else b.

(** The [argparse.Namespace] built by [parse_args]. *)
Record Args : Type := {
  arg_directory : string;
  arg_table : option string;
  arg_database_url : option string;
  arg_schema : option string;
  arg_conflict : option string;
  arg_no_thumbnails : bool;
  arg_thumbnail_size : option string;
  arg_skip_existing_dirs : bool
}.

(** The process environment as [os.getenv] sees it once [load_dotenv] has
    run. *)
Definition Env : Type := gmap string string.

Definition getenv (env : Env) (key : string) : option string := env !! key.

Record Config : Type := {
  database_url : string;
  table_name : string;
  table_schema : option string;
  conflict : string;
  create_thumbnails : bool;
  thumbnail_size : Z * Z;
  skip_existing_dirs : bool
}.

Definition load_config (args : Args) (env : Env) : Result Config :=
  let database_url := por (arg_database_url args) (getenv env "LANDLENS_DATABASE_URL") in
  let table_name := por (arg_table args) (getenv env "LANDLENS_TABLE") in
  let table_schema :=
    por (por (arg_schema args) (getenv env "LANDLENS_TABLE_SCHEMA")) None in
  let conflict :=
    por (arg_conflict args)
        (Some (default "update" (getenv env "LANDLENS_ON_CONFLICT"))) in
  if negb (bool_decide (conflict ∈ ({[Some "update"; Some "nothing"]} : gset (option string))))
  then Raise (ValueError "LANDLENS_ON_CONFLICT must be 'update' or 'nothing'")
  else
    let env_thumbnails := parse_bool (getenv env "LANDLENS_CREATE_THUMBNAILS") true in
    let create_thumbnails := env_thumbnails && negb (arg_no_thumbnails args) in
    match parse_thumbnail_size
            (por (arg_thumbnail_size args) (getenv env "LANDLENS_THUMBNAIL_SIZE")) with
    | Raise e => Raise e
    | Ok thumb_size =>
        let skip_existing_dirs :=
          parse_bool (getenv env "LANDLENS_SKIP_EXISTING_DIRS") false
          || arg_skip_existing_dirs args in
        let missing :=
          (if truthy database_url then [] else ["LANDLENS_DATABASE_URL"])
          ++ (if truthy table_name then [] else ["LANDLENS_TABLE"]) in
        match missing with
        | _ :: _ =>
            Raise (ValueError ("Missing required environment variables: "
                               +:+ PyStr.join ", " missing))
        | [] =>
            Ok {| database_url := default "" database_url;
                  table_name := default "" table_name;
                  table_schema := table_schema;
                  conflict := default "" conflict;
                  create_thumbnails := create_thumbnails;
                  thumbnail_size := thumb_size;
                  skip_existing_dirs := skip_existing_dirs |}
        end
    end.

(** ** Paths and the directory tree *)

(** A resolved absolute path, kept as its components below the file-system
    root.  The tree has no symbolic links, so [Path.resolve] is the
    identity on such paths. *)
Definition Path : Type := list string.

(** [str(path)] *)
Definition str_of_path (p : Path) : string :=
  match p with
  | [] => "/"
  | _ => String.concat "" ((λ c, "/" +:+ c) <$> p)
  end.

(** A directory: its sub-directories by name, and the names of its other
    entries, both in the order [os.scandir] lists them. *)
Inductive Tree : Type :=
  | Dir (subdirs : list (string * Tree)) (files : list string).

Fixpoint lookup_dir (t : Tree) (p : Path) : option Tree :=
  match p with
  | [] => Some t
  | d :: p' =>
      let '(Dir subdirs _) := t in
      (fix child (l : list (string * Tree)) : option Tree :=
         match l with
         | [] => None
         | (n, sub) :: l' => if String.eqb n d then lookup_dir sub p' else child l'
         end) subdirs
  end.

(** One triple yielded by a walk: [(current_root, dirnames, filenames)]. *)
Definition WalkItem : Type := Path * list string * list string.

(** What the consumer of a walk does to the yielded [dirnames] list, in
    place, before asking for the next triple: the walk descends into the
    names the list then holds. *)
Definition Pruner : Type := Path → list string → list string.

Definition keep_all : Pruner := λ _ dirnames, dirnames.

(** [os.walk(top)], top-down and not following links, on a tree [t] found
    at [top]: yield the triple, then walk each name left in [dirnames]. *)
Fixpoint walk_tree (t : Tree) (on_yield : Pruner) (top : Path) : list WalkItem :=
  let '(Dir subdirs files) := t in
  let dirnames := on_yield top (subdirs.*1) in
  (top, dirnames, files)
  :: flat_map
       (λ d,
          (fix child (l : list (string * Tree)) : list WalkItem :=
             match l with
             | [] => []
             | (n, sub) :: l' =>
                 if String.eqb n d then walk_tree sub on_yield (top ++ [d])
                 else child l'
             end) subdirs)
       dirnames.

(** ** Tables *)

(** A pandas frame, column by column: the row labels and, for each column
    in order, its label and its cells. *)
Record DataFrame : Type := {
  df_index : list nat;
  df_data : list (string * list string)
}.

Definition columns (gif : DataFrame) : list string := (df_data gif).*1.

Definition len (gif : DataFrame) : nat := length (df_index gif).

(** [gif.empty]: some axis has length zero. *)
Definition df_empty (gif : DataFrame) : bool :=
  match df_index gif, df_data gif with
  | _ :: _, _ :: _ => false
  | _, _ => true
  end.

(** [gif[key]] for one label, as the text column the script expects. *)
Definition getitem (gif : DataFrame) (key : string) : Result (list string) :=
  match List.filter (λ col, String.eqb col.1 key) (df_data gif) with
  | [] => Raise (KeyError key)
  | [col] => Ok col.2
  | _ => Raise (AttributeError "'DataFrame' object has no attribute 'str'")
  end.

Fixpoint select {A} (mask : list bool) (l : list A) : list A :=
  match mask, l with
  | b :: mask', x :: l' => if b then x :: select mask' l' else select mask' l'
  | _, _ => []
  end.

(** [gif[mask]] for a boolean column: the rows where it holds. *)
Definition getitem_mask (gif : DataFrame) (mask : list bool) : DataFrame :=
  {| df_index := select mask (df_index gif);
     df_data := (λ col, (col.1, select mask col.2)) <$> df_data gif |}.

(** [gif[keys]] for a list of labels: for each key in turn, every column
    carrying that label. *)
Definition getitem_columns (gif : DataFrame) (keys : list string) : DataFrame :=
  {| df_index := df_index gif;
     df_data :=
       flat_map (λ k, List.filter (λ col, String.eqb col.1 k) (df_data gif)) keys |}.

(** [gif.reset_index(drop=True)] *)
Definition reset_index (gif : DataFrame) : DataFrame :=
  {| df_index := seq 0 (len gif); df_data := df_data gif |}.

(** Python's [sorted] on texts: insertion by code-point order. *)
Fixpoint insert_sorted (x : string) (l : list string) : list string :=
  match l with
  | [] => [x]
  | y :: l' => if String.leb x y then x :: l else y :: insert_sorted x l'
  end.

Definition sorted (l : list string) : list string :=
  foldr insert_sorted [] l.

(** [repr] of a list of plain texts, as the progress lines print it. *)
Definition repr_list (l : list string) : string :=
  "[" +:+ PyStr.join ", " (PyStr.repr <$> l) +:+ "]".

(** ** Effects: the trace, the patched attributes, the program monad *)

Inductive Event : Type :=
  | EvWarn (msg : string)
  | EvPrint (line : string)
  | EvQuery (from_table : string) (prefix : string)
  | EvInspect (table : string) (schema : option string)
  | EvReflect (table : string) (schema : option string)
  | EvUpsert (gif : DataFrame) (table : string) (conflict : string).

(** An EXIF dictionary; [{}] is the empty list. *)
Definition Exif : Type := list (string * string).

Section Importer.

(** An opened PIL image. *)
Context {Image : Type}.

(** [Image.open(path)]: the warnings emitted, then an image, [None], or an
    exception. *)
Definition OpenFn : Type := string → list string * Result (option Image).

(** [Local.get_exif_data(img)] *)
Definition ExifFn : Type := option Image → Result Exif.

(** [os.walk(top)], with what its consumer does to each [dirnames]. *)
Definition WalkFn : Type := Pruner → Path → list WalkItem.

(** What a class holds under the name of a function: the function
    wrapped by [staticmethod], or the function itself.  Reached through an
    instance, the first is called with the arguments given and the second
    with the instance before them. *)
Inductive ClassAttr : Type :=
  | StaticMethod (f : ExifFn)
  | PlainFunction (f : ExifFn).

(** Looking the name up through the class gives the function either way. *)
Definition class_lookup (a : ClassAttr) : ExifFn :=
  match a with StaticMethod f | PlainFunction f => f end.

(** The attributes of [landlensdb.handlers.image] the script patches:
    [os.walk], what the class [Local] holds as [get_exif_data], and
    [Image.open]. *)
Record Globals : Type := {
  os_walk : WalkFn;
  get_exif_data_attr : ClassAttr;
  image_open : OpenFn
}.

(** The expression [Local.get_exif_data]. *)
Definition get_exif_data (g : Globals) : ExifFn := class_lookup (get_exif_data_attr g).

Definition set_os_walk (f : WalkFn) (g : Globals) : Globals :=
  {| os_walk := f; get_exif_data_attr := get_exif_data_attr g; image_open := image_open g |}.

(** The assignment [Local.get_exif_data = a]. *)
Definition set_get_exif_data (a : ClassAttr) (g : Globals) : Globals :=
  {| os_walk := os_walk g; get_exif_data_attr := a; image_open := image_open g |}.

Definition set_image_open (f : OpenFn) (g : Globals) : Globals :=
  {| os_walk := os_walk g; get_exif_data_attr := get_exif_data_attr g; image_open := f |}.

(** What running a piece of the script leaves behind. *)
Record Outcome (A : Type) : Type := {
  trace : list Event;
  result : Result A;
  globals : Globals
}.
Arguments trace {A} _.
Arguments result {A} _.
Arguments globals {A} _.

Definition Prog (A : Type) : Type := Globals → Outcome A.

#[export] Instance prog_ret : MRet Prog := λ A a g,
  {| trace := []; result := Ok a; globals := g |}.

#[export] Instance prog_bind : MBind Prog := λ A B f m g,
  let o := m g in
  match result o with
  | Ok a =>
      let o' := f a (globals o) in
      {| trace := trace o ++ trace o'; result := result o'; globals := globals o' |}
  | Raise e => {| trace := trace o; result := Raise e; globals := globals o |}
  end.

Definition raise {A} (e : Exn) : Prog A := λ g,
  {| trace := []; result := Raise e; globals := g |}.

Definition emit (ev : Event) : Prog unit := λ g,
  {| trace := [ev]; result := Ok (); globals := g |}.

Definition lift {A} (r : Result A) : Prog A := λ g,
  {| trace := []; result := r; globals := g |}.

Definition when (b : bool) (m : Prog unit) : Prog unit :=
  if b then m else mret ().

(** ** The Path Filter and the Metadata Extractor Adapter *)

Definition safe_get_exif (original_get_exif : ExifFn) : ExifFn := λ img,
  match img with
  | None => Ok []
  | Some _ =>
      match original_get_exif img with
      | Ok exif => Ok exif
      | Raise _ => Ok []
      end
  end.

Definition safe_image_open (original_image_open : OpenFn) : OpenFn := λ path,
  match original_image_open path with
  | (warned, Ok img) => (warned, Ok img)
  | (warned, Raise _) =>
      (warned ++ ["Skipping unreadable image: " +:+ path], Ok None)
  end.

Definition filtered_walk (skip_set : gset Path) (original_walk : WalkFn) : WalkFn :=
  λ on_yield top,
    if bool_decide (top ∈ skip_set) then []
    else
      (λ item : WalkItem,
         let '(current_root, dirnames, filenames) := item in
         let filtered_files :=
           filter (λ f, PyStr.endswith_any (PyStr.lower f) ALLOWED_EXTENSIONS = true)
                  filenames in
         (current_root, dirnames, filtered_files))
      <$> original_walk
            (λ current_root dirnames,
               on_yield current_root
                 (filter (λ d, ((current_root ++ [d]) ∉ skip_set) ∧ (d ≠ "__MACOSX"))
                         dirnames))
            top.

(** [Local.load_images] of landlensdb, as found in the store when the
    script calls it: the warnings it emits, the frame or the exception,
    and the store it leaves. *)
Definition LoadImages : Type :=
  Globals → Path → bool → Z * Z → list string * Result DataFrame * Globals.

Variable load_images : LoadImages.

(** The skip directories arrive as resolved paths, so resolving them again
    gives the same set; the three assignments before [try] and the three
    of [finally] are kept in the order of the source.  The original
    [get_exif_data] is read through the class, its replacement is installed
    wrapped by [staticmethod], and what [finally] assigns is the function
    that was read. *)
Definition load_images_filtered (root : Path) (create_thumbnails : bool)
    (thumbnail_size : Z * Z) (skip_dirs : gset Path) : Prog DataFrame := λ g,
  let skip_set := skip_dirs in
  let original_walk := os_walk g in
  let original_get_exif := get_exif_data g in
  let original_image_open := image_open g in
  let g := set_get_exif_data (StaticMethod (safe_get_exif original_get_exif)) g in
  let g := set_image_open (safe_image_open original_image_open) g in
  let g := set_os_walk (filtered_walk skip_set original_walk) g in
  let '(warned, r, g) := load_images g root create_thumbnails thumbnail_size in
  let g := set_os_walk original_walk g in
  let g := set_get_exif_data (PlainFunction original_get_exif) g in
  let g := set_image_open original_image_open g in
  {| trace := EvWarn <$> warned; result := r; globals := g |}.

(** ** The Frame Builder *)

Definition build_geoimageframe (root : Path) (create_thumbnails : bool)
    (thumbnail_size : Z * Z) (skip_dirs : gset Path) : Prog (DataFrame * Z) :=
  gif ← load_images_filtered root create_thumbnails thumbnail_size skip_dirs;
  urls ← lift (getitem gif "image_url");
  let lower_urls := PyStr.lower <$> urls in
  let filtered :=
    getitem_mask gif ((λ u, PyStr.endswith_any u ALLOWED_EXTENSIONS) <$> lower_urls) in
  let dropped := (Z.of_nat (len gif) - Z.of_nat (len filtered))%Z in
  if df_empty filtered
  then raise (ValueError ("No JPEG images found in " +:+ str_of_path root))
  else mret (reset_index filtered, dropped).

(** ** The database and the file system the run sees *)

(** The landlensdb [Postgres] handler of a reachable database: the rows
    of the directory query, the column names the inspector reports, and
    the outcome of an upsert. *)
Record Postgres : Type := {
  select_dirs : string → string → list (option string);
  get_columns : string → option string → list string;
  upsert_images : DataFrame → string → string → Result unit
}.

(** What lies outside the process: the directory tree,
    [Path(text).expanduser().resolve()], and [Postgres(database_url)]. *)
Record World : Type := {
  fs : Tree;
  resolve : string → Path;
  connect : string → Postgres
}.

(** ** The Directory Deduplicator *)

Definition fetch_existing_dirs (w : World) (db : Postgres) (table : string)
    (root : Path) (schema : option string) : Prog (gset Path) :=
  let root_str := str_of_path root in
  let from_table :=
    match schema with
    | Some s => if PyStr.nonempty s then s +:+ "." +:+ table else table
    | None => table
    end in
  emit (EvQuery from_table (root_str +:+ "%"));;
  let rows := select_dirs db from_table (root_str +:+ "%") in
  mret (list_to_set (resolve w <$> omap (λ row, if truthy row then row else None) rows)).

(** ** The Schema Aligner *)

Definition align_columns_to_table (db : Postgres) (table : string)
    (schema : option string) (gif : DataFrame) : Prog DataFrame :=
  emit (EvInspect table schema);;
  let table_cols : gset string := list_to_set (get_columns db table schema) in
  let required : gset string := {["image_url"; "name"; "geometry"]} in
  let missing_required := required ∖ table_cols in
  if negb (bool_decide (missing_required = ∅))
  then raise (ValueError ("Target table '" +:+ table
                          +:+ "' is missing required columns: "
                          +:+ PyStr.join ", " (sorted (elements missing_required))))
  else
    let present_cols := filter (λ col, col ∈ table_cols) (columns gif) in
    let dropped_cols := filter (λ col, col ∉ table_cols) (columns gif) in
    when (negb (bool_decide (dropped_cols = [])))
         (emit (EvWarn ("Dropping columns not present in '" +:+ table +:+ "': "
                        +:+ PyStr.join ", " dropped_cols)));;
    emit (EvReflect table schema);;
    mret (getitem_columns gif present_cols).

(** ** The run *)

Definition import_images (w : World) (env : Env) (args : Args) : Prog unit :=
  let root := resolve w (arg_directory args) in
  if negb (bool_decide (is_Some (lookup_dir (fs w) root)))
  then raise (ValueError ("Directory not found: " +:+ str_of_path root))
  else
    config ← lift (load_config args env);
    let db := connect w (database_url config) in
    skip_dirs ←
      (if skip_existing_dirs config
       then
         emit (EvPrint "Fetching existing image directories from database...");;
         skip_dirs ← fetch_existing_dirs w db (table_name config) root (table_schema config);
         emit (EvPrint ("Will skip " +:+ pretty (size skip_dirs)
                        +:+ " directories already in the database."));;
         mret skip_dirs
       else mret ∅);
    emit (EvPrint ("Scanning " +:+ str_of_path root +:+ " for JPEG images..."));;
    '(gif, dropped) ← build_geoimageframe root (create_thumbnails config)
                        (thumbnail_size config) skip_dirs;
    when (negb (dropped =? 0)%Z)
         (emit (EvPrint ("Skipped " +:+ pretty dropped
                         +:+ " non-JPEG images that were discovered during scanning.")));;
    gif ← align_columns_to_table db (table_name config) (table_schema config) gif;
    emit (EvPrint ("Table columns: " +:+ repr_list (columns gif)));;
    emit (EvPrint ("Found " +:+ pretty (len gif) +:+ " JPEG images; importing into "
                   +:+ table_name config +:+ "..."));;
    emit (EvUpsert gif (table_name config) (conflict config));;
    match upsert_images db gif (table_name config) (conflict config) with
    | Raise exc =>
        raise (RuntimeError
                 ("Upsert failed for table '" +:+ table_name config
                  +:+ "' (schema=" +:+ default "None" (table_schema config) +:+ "). "
                  +:+ "Columns being sent: " +:+ repr_list (columns gif)
                  +:+ ". Error: " +:+ exn_str exc))
    | Ok _ => emit (EvPrint "Import complete.")
    end.

End Importer.

Arguments trace {Image A} _.
Arguments result {Image A} _.
Arguments globals {Image A} _.
Arguments Globals : clear implicits.
Arguments Outcome : clear implicits.
Arguments Prog : clear implicits.
Arguments LoadImages : clear implicits.
Arguments OpenFn : clear implicits.
Arguments ExifFn : clear implicits.
Arguments ClassAttr : clear implicits.

(** ** The entry point *)

(** What [parse_args()] did inside [main]: it returned the namespace, or
    argparse left by [SystemExit] with a status of its own (2 after a
    usage error, 0 after [--help]), having written its own message. *)
Inductive Parsed : Type :=
  | Namespace (args : Args)
  | SystemExit (status : Z).

(** How the process ends: what [import_images] left when it ran at all,
    the line [main] itself prints on standard error, and the exit status.
    Warnings and argparse's messages reach standard error as well; they
    are no part of [error_line]. *)
Record ProcessEnd (Image : Type) : Type := {
  run : option (Outcome Image unit);
  error_line : option string;
  exit_status : Z
}.
Arguments run {Image} _.
Arguments error_line {Image} _.
Arguments exit_status {Image} _.

(** [main]: a [SystemExit] of [parse_args] passes through
    [except Exception]; an exception of the run is printed and turned
    into status 1; otherwise the interpreter ends with status 0. *)
Definition main {Image} (load_images : LoadImages Image) (w : World) (env : Env)
    (parsed : Parsed) (g : Globals Image) : ProcessEnd Image :=
  match parsed with
  | SystemExit status => {| run := None; error_line := None; exit_status := status |}
  | Namespace args =>
      let out := import_images load_images w env args g in
      match result out with
      | Ok _ => {| run := Some out; error_line := None; exit_status := 0 |}
      | Raise exc =>
          {| run := Some out;
             error_line := Some ("Error: " +:+ exn_str exc);
             exit_status := 1 |}
      end
  end.

(** ** The file system behind [os.walk], and the extractor *)

(** The [os.walk] the interpreter starts with, on a given tree: a missing
    [top] yields nothing, since scan errors are ignored by default. *)
Definition os_walk_on (t : Tree) : WalkFn := λ on_yield top,
  match lookup_dir t top with
  | Some sub => walk_tree sub on_yield top
  | None => []
  end.

(** The file paths a walk hands to its consumer, in order:
    [os.path.join(current_root, name)] for every yielded name. *)
Definition walk_paths (items : list WalkItem) : list Path :=
  flat_map (λ item : WalkItem, let '(current_root, _, filenames) := item in
                               (λ f, current_root ++ [f]) <$> filenames) items.

Section Extractor.

Context {Image : Type}.

(** The extractor's row for one opened file, apart from its [image_url]:
    the cells of the other columns, or [None] when it emits no row. *)
Variable extract : string → Exif → option (list string).

(** The labels of those other columns, in order. *)
Variable other_columns : list string.

(** Modelled from the spec: the per-file loop of landlensdb's
    [Local.load_images], which is not among the sources.  Each file is
    opened with the [Image.open] found in the store and read with the
    [get_exif_data] found there; an exception of either aborts the batch;
    a file whose metadata is empty is skipped; otherwise the extractor
    gives the row, keyed by the file's path. *)
Fixpoint load_rows (g : Globals Image) (paths : list string)
    : list string * Result (list (string * list string)) :=
  match paths with
  | [] => ([], Ok [])
  | path :: paths' =>
      match image_open g path with
      | (warned, Raise e) => (warned, Raise e)
      | (warned, Ok img) =>
          match get_exif_data g img with
          | Raise e => (warned, Raise e)
          | Ok exif =>
              let row :=
                match exif with
                | [] => []
                | _ => match extract path exif with
                       | Some cells => [(path, cells)]
                       | None => []
                       end
                end in
              let '(warned', r) := load_rows g paths' in
              (warned ++ warned',
               match r with Ok rows => Ok (row ++ rows) | Raise e => Raise e end)
          end
      end
  end.

(** Modelled from the spec: the ImageTable assembled from the rows, one
    row per successfully processed file, with [image_url] and then the
    extractor's columns. *)
Definition frame_of_rows (rows : list (string * list string)) : DataFrame :=
  {| df_index := seq 0 (length rows);
     df_data :=
       ("image_url", rows.*1)
       :: imap (λ j label, (label, (λ row, nth j row.2 "") <$> rows)) other_columns |}.

(** Modelled from the spec: landlensdb's [Local.load_images], which is not
    among the sources.  It walks [directory] with the [os.walk] found in
    the store, leaving every [dirnames] as yielded, processes the yielded
    files in traversal order and assembles the table; it leaves the store
    as it found it.  Thumbnail generation is outside the model. *)
Definition load_images_model : LoadImages Image :=
  λ g directory create_thumbnails thumbnail_size,
    let paths := str_of_path <$> walk_paths (os_walk g keep_all directory) in
    let '(warned, r) := load_rows g paths in
    (warned,
     match r with Ok rows => Ok (frame_of_rows rows) | Raise e => Raise e end,
     g).

End Extractor.

(** ** Concrete runs *)

Module Scenario.

(** A scan root [/data] holding [a/photo1.jpg] and [a/photo2.png], next to
    a [__MACOSX] folder holding [b/.DS_Store]. *)
Definition tree : Tree :=
  Dir [("data",
        Dir [("a", Dir [] ["photo1.jpg"; "photo2.png"]);
             ("__MACOSX", Dir [("b", Dir [] [".DS_Store"])] [])]
            [])]
      [].

Definition root : Path := ["data"].

(** Every file opens, as an image carrying its own path. *)
Definition open_any : OpenFn string := λ path, ([], Ok (Some path)).

(** Every opened image has one EXIF tag. *)
Definition exif_any : ExifFn string := λ img, Ok [("Make", "camera")].

Definition store : Globals string :=
  {| os_walk := os_walk_on tree;
     get_exif_data_attr := StaticMethod exif_any;
     image_open := open_any |}.

(** The extractor names the row after the path and reads the EXIF make. *)
Definition extract : string → Exif → option (list string) :=
  λ path exif, Some [path; "POINT (0 0)"; default "" (snd <$> head exif)].

Definition other_columns : list string := ["name"; "geometry"; "camera_make"].

Definition load_images : LoadImages string := load_images_model extract other_columns.

Definition build : Outcome string (DataFrame * Z) :=
  build_geoimageframe load_images root true (256, 256)%Z ∅ store.

End Scenario.

(** A run whose skip set holds a directory above the scan root: the root
    is [/data/sub], holding [x.jpg], and [/data] is to be skipped. *)
Module AncestorSkipped.

Definition tree : Tree := Dir [("data", Dir [("sub", Dir [] ["x.jpg"])] [])] [].

Definition root : Path := ["data"; "sub"].

Definition skip_dirs : gset Path := {[ ["data"] ]}.

Definition store : Globals string :=
  {| os_walk := os_walk_on tree;
     get_exif_data_attr := StaticMethod Scenario.exif_any;
     image_open := Scenario.open_any |}.

Definition build : Outcome string (DataFrame * Z) :=
  build_geoimageframe Scenario.load_images root true (256, 256)%Z skip_dirs store.

End AncestorSkipped.

(** A run over [/data], holding [a/good.jpg], [a/broken.jpg] and
    [old/seen.jpg], in which [broken.jpg] cannot be opened and [/data/old]
    is to be skipped. *)
Module Unreadable.

Definition tree : Tree :=
  Dir [("data", Dir [("a", Dir [] ["good.jpg"; "broken.jpg"]);
                     ("old", Dir [] ["seen.jpg"])] [])] [].

Definition root : Path := ["data"].

Definition skip_dirs : gset Path := {[ ["data"; "old"] ]}.

Definition open_some : OpenFn string := λ path,
  if String.eqb path "/data/a/broken.jpg"
  then ([], Raise (OtherError "cannot identify image file"))
  else ([], Ok (Some path)).

Definition store : Globals string :=
  {| os_walk := os_walk_on tree;
     get_exif_data_attr := StaticMethod Scenario.exif_any;
     image_open := open_some |}.

Definition build : Outcome string (DataFrame * Z) :=
  build_geoimageframe Scenario.load_images root true (256, 256)%Z skip_dirs store.

End Unreadable.

(** The table of the first scenario, and complete runs against a
    database whose target table has given columns. *)
Module Run.

Definition table : DataFrame :=
  {| df_index := [0];
     df_data := [("image_url", ["/data/a/photo1.jpg"]);
                 ("name", ["/data/a/photo1.jpg"]);
                 ("geometry", ["POINT (0 0)"]);
                 ("camera_make", ["camera"])] |}.

Definition db (target_columns : list string) : Postgres :=
  {| select_dirs := λ _ _, [];
     get_columns := λ _ _, target_columns;
     upsert_images := λ _ _ _, Ok () |}.

Definition world (t : Tree) (target_columns : list string) : World :=
  {| fs := t; resolve := λ _, ["data"]; connect := λ _, db target_columns |}.

Definition args : Args :=
  {| arg_directory := "/data";
     arg_table := None;
     arg_database_url := None;
     arg_schema := None;
     arg_conflict := None;
     arg_no_thumbnails := false;
     arg_thumbnail_size := None;
     arg_skip_existing_dirs := false |}.

Definition env : Env :=
  <["LANDLENS_DATABASE_URL" := "postgresql://localhost/landlens"]>
    (<["LANDLENS_TABLE" := "images"]> ∅).

Definition config : Config :=
  {| database_url := "postgresql://localhost/landlens";
     table_name := "images";
     table_schema := None;
     conflict := "update";
     create_thumbnails := true;
     thumbnail_size := (256, 256)%Z;
     skip_existing_dirs := false |}.

(** The same environment with [LANDLENS_CREATE_THUMBNAILS] set but empty. *)
Definition env_empty_flag : Env := <["LANDLENS_CREATE_THUMBNAILS" := ""]> env.

Definition config_empty_flag : Config :=
  {| database_url := "postgresql://localhost/landlens";
     table_name := "images";
     table_schema := None;
     conflict := "update";
     create_thumbnails := false;
     thumbnail_size := (256, 256)%Z;
     skip_existing_dirs := false |}.

(** The same arguments with a malformed thumbnail size. *)
Definition args_bad_size : Args :=
  {| arg_directory := "/data";
     arg_table := None;
     arg_database_url := None;
     arg_schema := None;
     arg_conflict := None;
     arg_no_thumbnails := false;
     arg_thumbnail_size := Some "bad";
     arg_skip_existing_dirs := false |}.

(** A scan root with nothing in it. *)
Definition empty_tree : Tree := Dir [("data", Dir [] [])] [].

Definition empty_store : Globals string :=
  {| os_walk := os_walk_on empty_tree;
     get_exif_data_attr := StaticMethod Scenario.exif_any;
     image_open := Scenario.open_any |}.

End Run.

(** A library that assembles rows of its own, whatever the walk yields:
    three rows, the second of which is not a JPEG image. *)
Module Mixed.

Definition frame : DataFrame :=
  {| df_index := [4; 7; 9];
     df_data := [("image_url", ["/data/a.JPG"; "/data/notes.txt"; "/data/b.jpeg"]);
                 ("name", ["a"; "notes"; "b"]);
                 ("geometry", ["POINT (0 0)"; "POINT (1 1)"; "POINT (2 2)"]);
                 ("altitude", ["1"; "2"; "3"])] |}.

Definition load_images : LoadImages string := λ g _ _ _, ([], Ok frame, g).

End Mixed.

(** A database that is reachable but refuses the upsert. *)
Module Outage.

Definition db (target_columns : list string) : Postgres :=
  {| select_dirs := λ _ _, [];
     get_columns := λ _ _, target_columns;
     upsert_images := λ _ _ _, Raise (OtherError "connection lost") |}.

Definition world (t : Tree) (target_columns : list string) : World :=
  {| fs := t; resolve := λ _, ["data"]; connect := λ _, db target_columns |}.

End Outage.

(** A run that first asks the database which directories it knows:
    [/data/old] is among them, in the tree of the unreadable-image run. *)
Module Resume.

Definition db (target_columns : list string) : Postgres :=
  {| select_dirs := λ _ _, [Some "/data/old"; None; Some ""; Some "/data/old"];
     get_columns := λ _ _, target_columns;
     upsert_images := λ _ _ _, Ok () |}.

Definition world (target_columns : list string) : World :=
  {| fs := Unreadable.tree;
     resolve := λ text, if String.eqb text "/data/old" then ["data"; "old"] else ["data"];
     connect := λ _, db target_columns |}.

Definition args : Args :=
  {| arg_directory := "/data";
     arg_table := Some "images";
     arg_database_url := Some "postgresql://localhost/landlens";
     arg_schema := Some "public";
     arg_conflict := Some "nothing";
     arg_no_thumbnails := true;
     arg_thumbnail_size := None;
     arg_skip_existing_dirs := true |}.

End Resume.

(** * Vocabulary of the statements *)

(** ** Texts *)

(** Whether a path names a JPEG, as both filters decide it. *)
Definition is_jpeg (name : string) : bool :=
  PyStr.endswith_any (PyStr.lower name) ALLOWED_EXTENSIONS.

(** A name a file system can hold: no path separator in it. *)
Fixpoint slash_free (s : string) : bool :=
  match s with
  | EmptyString => true
  | String c r => negb (Ascii.eqb c "/") && slash_free r
  end.

(** The text of a non-empty path: each component behind a "/". *)
Fixpoint slashed (p : Path) : string :=
  match p with
  | [] => ""
  | c :: p' => "/" +:+ c +:+ slashed p'
  end.

(** The characters that separate the two numbers of a thumbnail size. *)
Definition is_separator (c : ascii) : bool :=
  Ascii.eqb c "x" || Ascii.eqb c "X" || Ascii.eqb c ",".

Fixpoint all_separators (s : string) : bool :=
  match s with
  | EmptyString => true
  | String c r => is_separator c && all_separators r
  end.

Fixpoint no_separator (s : string) : bool :=
  match s with
  | EmptyString => true
  | String c r => negb (is_separator c) && no_separator r
  end.

(** A text made of two integers, as [int] reads them, with "x", "X" or
    "," between them (and possibly around them). *)
Definition two_integers (s : string) (w h : Z) : Prop :=
  ∃ pre a sep b post,
    s = pre +:+ a +:+ sep +:+ b +:+ post
    ∧ all_separators pre = true ∧ all_separators sep = true
    ∧ all_separators post = true ∧ sep ≠ ""
    ∧ PyStr.int a = Some w ∧ PyStr.int b = Some h.

(** How a text falls into the pieces between its separators. *)
Inductive pieces : string → list string → Prop :=
  | pieces_last a : no_separator a = true → pieces a [a]
  | pieces_cons a c s l :
      no_separator a = true → is_separator c = true → pieces s l →
      pieces (a +:+ String c s) (a :: l).

(** A text of white space only. *)
Fixpoint all_space (s : string) : bool :=
  match s with
  | EmptyString => true
  | String c r => PyStr.is_space c && all_space r
  end.

(** The value a setting takes: the command-line flag when it is set and not
    empty, the environment variable otherwise. *)
Definition setting (flag var : option string) : option string := por flag var.

(** The non-empty fields of a thumbnail size, as [parse_thumbnail_size]
    cuts them: lower-cased, "x" turned into ",", split at ",". *)
Definition fields (raw : string) : list string :=
  List.filter PyStr.nonempty
    (PyStr.split "," (PyStr.replace_char "x" "," (PyStr.lower raw))).

(** ** Trees and walks *)

(** Every directory and file name of the tree is free of "/". *)
Fixpoint names_ok (t : Tree) : bool :=
  let '(Dir subdirs files) := t in
  forallb slash_free files
  && forallb (λ entry, let '(n, sub) := entry in slash_free n && names_ok sub) subdirs.

(** The sub-directory a name denotes: the first entry carrying it. *)
Definition child_named (d : string) (subdirs : list (string * Tree)) : option Tree :=
  snd <$> find (λ entry, String.eqb entry.1 d) subdirs.

(** What [filtered_walk] does to each [dirnames] when its own consumer
    leaves the list alone. *)
Definition skip_pruner (skip_set : gset Path) : Pruner := λ current_root dirnames,
  filter (λ d, ((current_root ++ [d]) ∉ skip_set) ∧ (d ≠ "__MACOSX")) dirnames.

(** Every directory below [top] on the way down to [r], [r] included, is
    outside the skip set and is not a [__MACOSX] folder. *)
Definition clear_between (skip_set : gset Path) (top r : Path) : Prop :=
  ∀ q, top `prefix_of` q → q `prefix_of` r → q ≠ top →
       (q ∉ skip_set) ∧ (last q ≠ Some "__MACOSX").

(** No directory of the tree is called [__MACOSX]. *)
Fixpoint no_macosx (t : Tree) : bool :=
  let '(Dir subdirs _) := t in
  forallb (λ entry, let '(n, sub) := entry in
                    negb (String.eqb n "__MACOSX") && no_macosx sub) subdirs.

(** What the patched walk does to one triple of the original walk when
    no directory is pruned: only the file names are filtered. *)
Definition jpeg_files_only (item : WalkItem) : WalkItem :=
  let '(current_root, dirnames, filenames) := item in
  (current_root, dirnames, filter (λ f, is_jpeg f = true) filenames).

(** ** Tables *)

(** The columns of [required] that the target lacks, as the error
    message lists them. *)
Definition missing_required (target_columns : list string) : list string :=
  sorted (elements (({["image_url"; "name"; "geometry"]} : gset string)
                    ∖ list_to_set target_columns)).

(** ** The database *)

(** The table the directory query reads from. *)
Definition from_clause (table : string) (schema : option string) : string :=
  match schema with
  | Some s => if PyStr.nonempty s then s +:+ "." +:+ table else table
  | None => table
  end.

(** The directories the database already knows below [root]. *)
Definition known_dirs (w : World) (db : Postgres) (table : string) (root : Path)
    (schema : option string) : gset Path :=
  list_to_set
    (resolve w <$> omap (λ row, if truthy row then row else None)
                        (select_dirs db (from_clause table schema)
                                     (str_of_path root +:+ "%"))).

Definition is_upsert (ev : Event) : bool :=
  match ev with EvUpsert _ _ _ => true | _ => false end.

Definition is_query (ev : Event) : bool :=
  match ev with EvQuery _ _ => true | _ => false end.

(** The events of the library calls: warnings and schema look-ups. *)
Definition background (ev : Event) : bool :=
  match ev with
  | EvWarn _ | EvInspect _ _ | EvReflect _ _ => true
  | _ => false
  end.

(** Everything that is neither an upsert nor the closing line. *)
Definition quiet (ev : Event) : bool :=
  match ev with
  | EvUpsert _ _ _ => false
  | EvPrint line => negb (String.eqb line "Import complete.")
  | _ => true
  end.

(** The message of the error raised when the upsert fails. *)
Definition upsert_failure (config : Config) (gif : DataFrame) (exc : Exn) : string :=
  "Upsert failed for table '" +:+ table_name config
  +:+ "' (schema=" +:+ default "None" (table_schema config) +:+ "). "
  +:+ "Columns being sent: " +:+ repr_list (columns gif)
  +:+ ". Error: " +:+ exn_str exc.

(** ** Programs *)

Section Vocabulary.

Context {Image : Type}.

Implicit Types g : Globals Image.

(** A program that leaves the patched attributes as it found them. *)
Definition preserves {A} (m : Prog Image A) : Prop := ∀ g, globals (m g) = g.

(** A program all of whose events satisfy [P], whatever the store. *)
Definition emits_only {A} (P : Event → Prop) (m : Prog Image A) : Prop :=
  ∀ g, Forall P (trace (m g)).

(** A program that raises, whatever the store. *)
Definition always_raises {A} (m : Prog Image A) : Prop :=
  ∀ g, is_raise (result (m g)).

(** A program that, run in store [g], raises [e] after events that all
    satisfy [P]. *)
Definition stops_with {A} (P : Event → Prop) (e : Exn) (m : Prog Image A) g : Prop :=
  result (m g) = Raise e ∧ Forall P (trace (m g)).

(** The store [load_images] runs in. *)
Definition patched (skip_set : gset Path) g : Globals Image :=
  {| os_walk := filtered_walk skip_set (os_walk g);
     get_exif_data_attr := StaticMethod (safe_get_exif (get_exif_data g));
     image_open := safe_image_open (image_open g) |}.

(** The store [load_images_filtered] leaves: [os.walk] and [Image.open]
    as in [g], and [Local.get_exif_data] holding the function itself. *)
Definition unwrapped g : Globals Image :=
  {| os_walk := os_walk g;
     get_exif_data_attr := PlainFunction (get_exif_data g);
     image_open := image_open g |}.

(** The row of a successfully processed file, read off the original
    [Image.open] and [get_exif_data]: the file opens, its metadata is read
    and is not empty, and the extractor emits a row. *)
Definition processed (extract : string → Exif → option (list string)) g
    (path : string) : option (string * list string) :=
  match (image_open g path).2 with
  | Ok (Some img) =>
      match get_exif_data g (Some img) with
      | Ok (tag :: exif) => (λ cells, (path, cells)) <$> extract path (tag :: exif)
      | _ => None
      end
  | _ => None
  end.

(** The warnings one file causes: those of the original [Image.open],
    then the adapter's when the open raised. *)
Definition open_warnings g (path : string) : list string :=
  (image_open g path).1
  ++ match (image_open g path).2 with
     | Raise _ => ["Skipping unreadable image: " +:+ path]
     | Ok _ => []
     end.

(** The files the patched walk hands over, as the texts passed to
    [Image.open]. *)
Definition scanned_files (skip_set : gset Path) g (root : Path) : list string :=
  str_of_path <$> walk_paths (filtered_walk skip_set (os_walk g) keep_all root).

End Vocabulary.

(** Closes a decidable goal by evaluation. *)
Ltac by_compute := refine (bool_decide_unpack _ _); vm_compute; exact I.

(** Finds an event in the trace of a concrete run. *)
Ltac in_trace :=
  apply list_elem_of_In; vm_compute; repeat first [left; reflexivity | right].

(** * Properties *)

(** ** Running programs *)

Section ProgramLemmas.

Context {Image : Type}.

Implicit Types g : Globals Image.

Lemma bind_ok {A B} (m : Prog Image A) (f : A → Prog Image B) g a :
  result (m g) = Ok a →
  (m ≫= f) g =
    {| trace := trace (m g) ++ trace (f a (globals (m g)));
       result := result (f a (globals (m g)));
       globals := globals (f a (globals (m g))) |}.
Proof. intros H. unfold mbind, prog_bind. by rewrite H. Qed.

Lemma bind_raise {A B} (m : Prog Image A) (f : A → Prog Image B) g e :
  result (m g) = Raise e →
  (m ≫= f) g = {| trace := trace (m g); result := Raise e; globals := globals (m g) |}.
Proof. intros H. unfold mbind, prog_bind. by rewrite H. Qed.

Lemma preserves_ret {A} (a : A) : preserves (mret a : Prog Image A).
Proof. done. Qed.

Lemma preserves_raise {A} e : preserves (raise e : Prog Image A).
Proof. done. Qed.

Lemma preserves_emit ev : preserves (emit ev : Prog Image unit).
Proof. done. Qed.

Lemma preserves_lift {A} (r : Result A) : preserves (lift r : Prog Image A).
Proof. done. Qed.

Lemma preserves_bind {A B} (m : Prog Image A) (f : A → Prog Image B) :
  preserves m → (∀ a, preserves (f a)) → preserves (m ≫= f).
Proof.
  intros Hm Hf g. unfold mbind, prog_bind.
  destruct (result (m g)) as [a|e] eqn:E; simpl.
  - by rewrite Hf, Hm.
  - apply Hm.
Qed.

Lemma preserves_when b (m : Prog Image unit) : preserves m → preserves (when b m).
Proof. by destruct b. Qed.

Lemma emits_only_ret {A} P (a : A) : emits_only P (mret a : Prog Image A).
Proof. intros g. constructor. Qed.

Lemma emits_only_raise {A} P e : emits_only P (raise e : Prog Image A).
Proof. intros g. constructor. Qed.

Lemma emits_only_lift {A} P (r : Result A) : emits_only P (lift r : Prog Image A).
Proof. intros g. constructor. Qed.

Lemma emits_only_emit (P : Event → Prop) ev :
  P ev → emits_only P (emit ev : Prog Image unit).
Proof. intros H g. by repeat constructor. Qed.

Lemma emits_only_when P b (m : Prog Image unit) : emits_only P m → emits_only P (when b m).
Proof. destruct b; [done|]. intros _. apply emits_only_ret. Qed.

Lemma emits_only_bind {A B} P (m : Prog Image A) (f : A → Prog Image B) :
  emits_only P m → (∀ a, emits_only P (f a)) → emits_only P (m ≫= f).
Proof.
  intros Hm Hf g. unfold mbind, prog_bind.
  destruct (result (m g)) as [a|e] eqn:E; simpl.
  - apply Forall_app. split; [apply Hm | apply Hf].
  - apply Hm.
Qed.

Lemma emits_only_bind_raises {A B} P (m : Prog Image A) (f : A → Prog Image B) :
  emits_only P m → always_raises m → emits_only P (m ≫= f).
Proof.
  intros Hm Hr g. unfold mbind, prog_bind. specialize (Hr g).
  destruct (result (m g)) as [a|e] eqn:E; simpl; [done | apply Hm].
Qed.

Lemma always_raises_bind_l {A B} (m : Prog Image A) (f : A → Prog Image B) :
  always_raises m → always_raises (m ≫= f).
Proof.
  intros Hr g. unfold mbind, prog_bind. specialize (Hr g).
  by destruct (result (m g)) as [a|e] eqn:E.
Qed.

Lemma always_raises_bind_r {A B} (m : Prog Image A) (f : A → Prog Image B) :
  (∀ a, always_raises (f a)) → always_raises (m ≫= f).
Proof.
  intros Hr g. unfold mbind, prog_bind.
  destruct (result (m g)) as [a|e] eqn:E; simpl; [apply Hr | done].
Qed.

Lemma result_bind_ok {A B} (m : Prog Image A) (f : A → Prog Image B) g a :
  preserves m → result (m g) = Ok a → result ((m ≫= f) g) = result (f a g).
Proof. intros Hm H. rewrite (bind_ok _ _ _ _ H). cbn [result]. by rewrite Hm. Qed.

Lemma trace_bind_ok {A B} (m : Prog Image A) (f : A → Prog Image B) g a :
  preserves m → result (m g) = Ok a →
  trace ((m ≫= f) g) = trace (m g) ++ trace (f a g).
Proof. intros Hm H. rewrite (bind_ok _ _ _ _ H). cbn [trace]. by rewrite Hm. Qed.

Lemma result_emit_bind {B} ev (f : unit → Prog Image B) g :
  result ((emit ev ≫= f) g) = result (f () g).
Proof. done. Qed.

Lemma stops_seq {A B} P e (m : Prog Image A) (f : A → Prog Image B) g a :
  preserves m → result (m g) = Ok a → emits_only P m →
  stops_with P e (f a) g → stops_with P e (m ≫= f) g.
Proof.
  intros Hm H HP [Hr Ht]. split.
  - by rewrite (result_bind_ok _ _ _ _ Hm H).
  - rewrite (trace_bind_ok _ _ _ _ Hm H). apply Forall_app. split; [apply HP | done].
Qed.

Lemma stops_now {A B} P e (m : Prog Image A) (f : A → Prog Image B) g :
  result (m g) = Raise e → Forall P (trace (m g)) → stops_with P e (m ≫= f) g.
Proof. intros H HP. split; rewrite (bind_raise _ _ _ _ H); done. Qed.

Variable load_images : LoadImages Image.

Lemma load_images_filtered_run root ct ts skip g :
  load_images_filtered load_images root ct ts skip g =
    {| trace := EvWarn <$> (load_images (patched skip g) root ct ts).1.1;
       result := (load_images (patched skip g) root ct ts).1.2;
       globals := unwrapped g |}.
Proof.
  unfold load_images_filtered, patched, unwrapped, set_os_walk, set_get_exif_data,
    set_image_open, get_exif_data.
  cbn [os_walk get_exif_data_attr image_open class_lookup].
  by destruct (load_images _ root ct ts) as [[warned r] g'].
Qed.

Lemma globals_build_geoimageframe root ct ts skip g :
  globals (build_geoimageframe load_images root ct ts skip g) = unwrapped g.
Proof.
  unfold build_geoimageframe, mbind, prog_bind, lift.
  rewrite load_images_filtered_run. cbn [trace result globals].
  destruct ((load_images _ root ct ts).1.2) as [gif|e]; cbn [trace result globals]; [|done].
  destruct (getitem gif "image_url") as [urls|e]; cbn [trace result globals]; [|done].
  by destruct (df_empty _).
Qed.

Lemma preserves_fetch_existing_dirs w db table root schema :
  preserves (fetch_existing_dirs (Image:=Image) w db table root schema).
Proof. done. Qed.

Lemma preserves_align_columns_to_table db table schema gif :
  preserves (align_columns_to_table (Image:=Image) db table schema gif).
Proof.
  unfold align_columns_to_table.
  apply preserves_bind; [apply preserves_emit|]. intros _.
  destruct (negb _); [apply preserves_raise|].
  apply preserves_bind; [apply preserves_when, preserves_emit|]. intros _.
  apply preserves_bind; [apply preserves_emit|]. intros _. apply preserves_ret.
Qed.

Lemma unwrapped_eq g : unwrapped g = g ↔ ∃ f, get_exif_data_attr g = PlainFunction f.
Proof.
  destruct g as [walk [f|f] open]; unfold unwrapped, get_exif_data;
    cbn [os_walk get_exif_data_attr image_open class_lookup].
  - split; [done | by intros [f' ?]].
  - split; [by exists f | done].
Qed.

(** C9, as the code has it. [load_images_filtered] hands [load_images] a
    store holding the three patched attributes and passes on whatever
    [load_images] returns or raises.  Afterwards [os.walk] and
    [Image.open] are exactly as before, whatever [load_images] did to the
    store, and [Local.get_exif_data], looked up through the class, is the
    original function again; but what the class holds under that name is
    the bare function, so the store is the one the call started with
    exactly when the class held a bare function before, and a
    [get_exif_data] declared with [staticmethod] is not restored. *)
Theorem load_images_filtered_unwraps_staticmethod root ct ts skip g :
  let out := load_images_filtered load_images root ct ts skip g in
  result out = (load_images (patched skip g) root ct ts).1.2
  ∧ os_walk (globals out) = os_walk g
  ∧ image_open (globals out) = image_open g
  ∧ get_exif_data (globals out) = get_exif_data g
  ∧ get_exif_data_attr (globals out) = PlainFunction (get_exif_data g)
  ∧ (globals out = g ↔ ∃ f, get_exif_data_attr g = PlainFunction f)
  ∧ (∀ f, get_exif_data_attr g = StaticMethod f →
          get_exif_data_attr (globals out) = PlainFunction f ∧ globals out ≠ g).
Proof.
  cbn zeta. rewrite load_images_filtered_run. cbn [result globals].
  do 5 (split; [done|]). split; [apply unwrapped_eq|].
  intros f Hf. split.
  - unfold unwrapped, get_exif_data. cbn [get_exif_data_attr]. by rewrite Hf.
  - intros [f' Hf']%unwrapped_eq. congruence.
Qed.

End ProgramLemmas.

(** ** Configuration flags *)

Lemma parse_bool_empty_text : parse_bool (Some "") true = false.
Proof. reflexivity. Qed.

(** C10. [parse_bool] returns the default for [None] only; for any text
    it is true exactly when the stripped, lower-cased text is one of
    "1", "true", "yes", "y", "on", so the empty text gives [False]
    against a default of [True], and a run whose
    [LANDLENS_CREATE_THUMBNAILS] is set but empty has thumbnails
    disabled. *)
Theorem parse_bool_default_only_for_none :
  (∀ d, parse_bool None d = d)
  ∧ (∀ v d, parse_bool (Some v) d = true
            ↔ PyStr.lower (PyStr.strip v) ∈ ["1"; "true"; "yes"; "y"; "on"])
  ∧ (∀ v d d', parse_bool (Some v) d = parse_bool (Some v) d')
  ∧ parse_bool (Some "") true = false
  ∧ (∀ args env cfg,
       getenv env "LANDLENS_CREATE_THUMBNAILS" = Some "" →
       load_config args env = Ok cfg →
       create_thumbnails cfg = false).
Proof.
  split; [done|]. split.
  { intros v d. unfold parse_bool. rewrite bool_decide_eq_true.
    rewrite !elem_of_union, !elem_of_singleton, !elem_of_cons, elem_of_nil.
    tauto. }
  split; [done|]. split; [reflexivity|].
  intros args env cfg H. unfold load_config. rewrite H, parse_bool_empty_text.
  repeat case_match; try done. by intros [= <-].
Qed.

(** ** The post-assembly filter *)

Lemma select_elem_of {A} (f : A → bool) (l : list A) x :
  x ∈ select (f <$> l) l → f x = true ∧ x ∈ l.
Proof.
  induction l as [|y l IH]; simpl; [by intros ?%elem_of_nil|].
  destruct (f y) eqn:E.
  - intros [->|H]%elem_of_cons; [split; [done|left]|].
    destruct (IH H). split; [done|by right].
  - intros H. destruct (IH H). split; [done|by right].
Qed.

Lemma select_all_false {A B} (f : A → bool) (l : list A) (k : list B) :
  Forall (λ x, f x = false) l → select (f <$> l) k = [].
Proof.
  intros H. revert k. induction H as [|x l Hx _ IH]; intros k; simpl; [done|].
  destruct k; [done|]. by rewrite Hx.
Qed.

Lemma filter_label_select mask key (data : list (string * list string)) :
  List.filter (λ col, String.eqb col.1 key) ((λ col, (col.1, select mask col.2)) <$> data)
  = (λ col, (col.1, select mask col.2)) <$> List.filter (λ col, String.eqb col.1 key) data.
Proof.
  induction data as [|col data IH]; csimpl; [done|].
  destruct (String.eqb col.1 key); csimpl; by rewrite IH.
Qed.

(** The column a frame keeps under a row mask is the masked column. *)
Lemma getitem_reset_mask gif mask key urls :
  getitem gif key = Ok urls →
  getitem (reset_index (getitem_mask gif mask)) key = Ok (select mask urls).
Proof.
  unfold getitem, reset_index, getitem_mask; cbn [df_data].
  rewrite filter_label_select.
  destruct (List.filter _ (df_data gif)) as [|col [|col' rest]]; simpl; try done.
  by intros [= <-].
Qed.

Lemma jpeg_mask (urls : list string) :
  (λ u, PyStr.endswith_any u ALLOWED_EXTENSIONS) <$> (PyStr.lower <$> urls)
  = is_jpeg <$> urls.
Proof. by rewrite <- list_fmap_compose. Qed.

Section BuildLemmas.

Context {Image : Type}.
Variable load_images : LoadImages Image.

Lemma build_geoimageframe_run root ct ts skip (g : Globals Image) :
  build_geoimageframe load_images root ct ts skip g =
    let o := load_images_filtered load_images root ct ts skip g in
    {| trace := trace o;
       result :=
         match result o with
         | Raise e => Raise e
         | Ok gif =>
             match getitem gif "image_url" with
             | Raise e => Raise e
             | Ok urls =>
                 let filtered := getitem_mask gif (is_jpeg <$> urls) in
                 if df_empty filtered
                 then Raise (ValueError ("No JPEG images found in " +:+ str_of_path root))
                 else Ok (reset_index filtered,
                          (Z.of_nat (len gif) - Z.of_nat (len filtered))%Z)
             end
         end;
       globals := unwrapped g |}.
Proof.
  unfold build_geoimageframe, mbind, prog_bind, lift.
  rewrite load_images_filtered_run; simpl.
  destruct (load_images _ root ct ts) as [[warned r] g']; simpl.
  destruct r as [gif|e]; simpl; [|done].
  destruct (getitem gif "image_url") as [urls|e]; simpl; [|by rewrite app_nil_r].
  rewrite jpeg_mask. destruct (df_empty _); simpl; by rewrite !app_nil_r.
Qed.

Lemma build_geoimageframe_ok root ct ts skip (g : Globals Image) t d :
  result (build_geoimageframe load_images root ct ts skip g) = Ok (t, d) →
  ∃ gif urls,
    result (load_images_filtered load_images root ct ts skip g) = Ok gif
    ∧ getitem gif "image_url" = Ok urls
    ∧ t = reset_index (getitem_mask gif (is_jpeg <$> urls))
    ∧ d = (Z.of_nat (len gif) - Z.of_nat (len t))%Z
    ∧ getitem t "image_url" = Ok (select (is_jpeg <$> urls) urls).
Proof.
  rewrite build_geoimageframe_run; simpl.
  destruct (result _) as [gif|e]; [|done].
  destruct (getitem gif "image_url") as [urls|e] eqn:E; [|done]. simpl.
  destruct (df_empty _); [done|]. intros [= <- <-].
  exists gif, urls. repeat split; try done.
  - unfold len, reset_index; simpl. by rewrite length_seq.
  - by apply getitem_reset_mask.
Qed.

(** C3. Whatever the library assembled and however directories were
    filtered, every [image_url] of the table the Frame Builder returns
    ends, lower-cased, in [.jpg] or [.jpeg]: a file whose extension is not
    allowed is in no row; and the patched walk hands the library no file
    name with another extension. *)
Theorem disallowed_extension_never_in_table root ct ts skip (g : Globals Image) t d :
  result (build_geoimageframe load_images root ct ts skip g) = Ok (t, d) →
  (∃ urls, getitem t "image_url" = Ok urls
           ∧ (∀ url, url ∈ urls → is_jpeg url = true)
           ∧ (∀ file, is_jpeg file = false → file ∉ urls))
  ∧ (∀ original_walk on_yield top current_root dirnames filenames file,
       (current_root, dirnames, filenames)
         ∈ filtered_walk skip original_walk on_yield top →
       is_jpeg file = false → file ∉ filenames).
Proof.
  intros H. split.
  - destruct (build_geoimageframe_ok _ _ _ _ _ _ _ H) as (gif & urls & _ & _ & _ & _ & Hcol).
    exists (select (is_jpeg <$> urls) urls). split; [done|].
    assert (∀ url, url ∈ select (is_jpeg <$> urls) urls → is_jpeg url = true) as Hall.
    { intros url Hin. by apply select_elem_of in Hin as [? _]. }
    split; [done|]. intros file Hf Hin. apply Hall in Hin. congruence.
  - intros original_walk on_yield top current_root dirnames filenames file Hin Hf Hfile.
    unfold filtered_walk in Hin. case_bool_decide; [by apply elem_of_nil in Hin|].
    apply list_elem_of_fmap in Hin as ([[r ds] fs] & [= -> -> ->] & _).
    apply list_elem_of_filter in Hfile as [Hj _].
    change (is_jpeg file = true) in Hj. congruence.
Qed.

(** C5. When no row of the assembled table has an allowed extension, so
    that nothing is left after the post-assembly filter, the Frame Builder
    raises "No JPEG images found in <root>"; and a run in which the Frame
    Builder raises ends with that exception, having asked the database for
    neither the target's columns nor a write. *)
Theorem empty_table_fails_before_alignment :
  (∀ root ct ts skip (g : Globals Image) gif urls,
     result (load_images_filtered load_images root ct ts skip g) = Ok gif →
     getitem gif "image_url" = Ok urls →
     Forall (λ url, is_jpeg url = false) urls →
     result (build_geoimageframe load_images root ct ts skip g)
     = Raise (ValueError ("No JPEG images found in " +:+ str_of_path root)))
  ∧ (∀ w env args (g : Globals Image) cfg skip e,
       let root := resolve w (arg_directory args) in
       let db := connect w (database_url cfg) in
       is_Some (lookup_dir (fs w) root) →
       load_config args env = Ok cfg →
       (if skip_existing_dirs cfg
        then result (fetch_existing_dirs w db (table_name cfg) root (table_schema cfg) g)
        else Ok ∅) = Ok skip →
       result (build_geoimageframe load_images root (create_thumbnails cfg)
                 (thumbnail_size cfg) skip g) = Raise e →
       let out := import_images load_images w env args g in
       result out = Raise e
       ∧ Forall (λ ev, match ev with
                       | EvInspect _ _ | EvReflect _ _ | EvUpsert _ _ _ => False
                       | _ => True
                       end) (trace out)).
Proof.
  split.
  - intros root ct ts skip g gif urls Hload Hcol Hnone.
    rewrite build_geoimageframe_run; simpl. rewrite Hload, Hcol; simpl.
    unfold df_empty, getitem_mask; simpl.
    by rewrite (select_all_false is_jpeg urls (df_index gif) Hnone).
  - intros w env args g cfg skip e root db Hdir Hcfg Hskip Hbuild out.
    subst out. unfold import_images. fold root.
    rewrite (bool_decide_eq_true_2 _ Hdir); cbn [negb].
    apply (stops_seq _ _ _ _ _ cfg);
      [apply preserves_lift | by rewrite Hcfg | apply emits_only_lift |].
    fold db. apply (stops_seq _ _ _ _ _ skip).
    + destruct (skip_existing_dirs cfg); [|apply preserves_ret].
      apply preserves_bind; [apply preserves_emit|]. intros _.
      apply preserves_bind; [apply preserves_fetch_existing_dirs|]. intros sd.
      apply preserves_bind; [apply preserves_emit|]. intros _. apply preserves_ret.
    + destruct (skip_existing_dirs cfg); [|done].
      rewrite result_emit_bind.
      rewrite (result_bind_ok _ _ _ skip);
        [|apply preserves_fetch_existing_dirs|done].
      by rewrite result_emit_bind.
    + destruct (skip_existing_dirs cfg); [|apply emits_only_ret].
      apply emits_only_bind; [by apply emits_only_emit|]. intros _.
      apply emits_only_bind; [by apply emits_only_emit|]. intros sd.
      apply emits_only_bind; [by apply emits_only_emit|]. intros _.
      apply emits_only_ret.
    + apply (stops_seq _ _ _ _ _ ());
        [apply preserves_emit | done | by apply emits_only_emit |].
      apply stops_now; [done|].
      rewrite build_geoimageframe_run; cbn [trace].
      rewrite load_images_filtered_run; cbn [trace].
      by apply Forall_fmap, Forall_true.
Qed.

End BuildLemmas.

(** ** The directory walk *)

Lemma Tree_nested_ind (P : Tree → Prop) :
  (∀ subdirs files, Forall (λ entry, P entry.2) subdirs → P (Dir subdirs files)) →
  ∀ t, P t.
Proof.
  intros step. fix IH 1. intros [subdirs files]. apply step.
  induction subdirs as [|[n sub] l IHl]; constructor; [apply IH | apply IHl].
Qed.

Lemma walk_tree_unfold subdirs files on_yield top :
  walk_tree (Dir subdirs files) on_yield top =
    (top, on_yield top (subdirs.*1), files)
    :: flat_map (λ d, match child_named d subdirs with
                      | Some sub => walk_tree sub on_yield (top ++ [d])
                      | None => []
                      end) (on_yield top (subdirs.*1)).
Proof.
  cbn [walk_tree]. f_equal. apply flat_map_ext. intros d.
  unfold child_named. induction subdirs as [|[n sub] l IHl]; [done|].
  cbn [find fst]. destruct (String.eqb n d); [done | apply IHl].
Qed.

Lemma lookup_dir_unfold subdirs files d p :
  lookup_dir (Dir subdirs files) (d :: p) =
    match child_named d subdirs with
    | Some sub => lookup_dir sub p
    | None => None
    end.
Proof.
  cbn [lookup_dir]. unfold child_named.
  induction subdirs as [|[n sub] l IHl]; [done|].
  cbn [find fst]. destruct (String.eqb n d); [done | apply IHl].
Qed.

Lemma child_named_elem_of d subdirs sub :
  child_named d subdirs = Some sub → (d, sub) ∈ subdirs.
Proof.
  unfold child_named. induction subdirs as [|[n s] l IHl]; [done|].
  cbn [find fst]. destruct (String.eqb n d) eqn:E.
  - apply String.eqb_eq in E as ->. intros [= ->]. left.
  - intros H. right. by apply IHl.
Qed.

Lemma walk_tree_clear skip_set t :
  ∀ top item, item ∈ walk_tree t (skip_pruner skip_set) top →
    top `prefix_of` item.1.1 ∧ clear_between skip_set top item.1.1.
Proof.
  induction t as [subdirs files IH] using Tree_nested_ind. intros top item.
  rewrite walk_tree_unfold. intros [->|Hin]%elem_of_cons.
  { split; [done|]. intros q H1 H2 Hne. destruct Hne. by apply (anti_symm prefix). }
  apply list_elem_of_In, in_flat_map in Hin as (d & Hd%list_elem_of_In & Hin%list_elem_of_In).
  unfold skip_pruner in Hd. apply list_elem_of_filter in Hd as [[Hskip Hmac] _].
  destruct (child_named d subdirs) as [sub|] eqn:E; [|by apply elem_of_nil in Hin].
  apply child_named_elem_of in E. rewrite Forall_forall in IH.
  destruct (IH _ E _ _ Hin) as [Hpre Hclear].
  split. { etrans; [|done]. by apply prefix_app_r. }
  intros q Hq1 Hq2 Hne.
  destruct (prefix_weak_total _ _ _ Hq2 Hpre) as [Hq|Hq].
  - destruct Hq1 as [k1 ->]. destruct Hq as [k2 Hk]. rewrite <- app_assoc in Hk.
    apply app_inv_head in Hk. destruct k1 as [|x k1]; [by rewrite app_nil_r in Hne|].
    destruct k1; [|by destruct k1]. simpl in Hk. injection Hk as <- _.
    split; [done|]. rewrite last_snoc. by intros [= ?].
  - destruct (decide (q = top ++ [d])) as [->|Hne'].
    + split; [done|]. rewrite last_snoc. by intros [= ?].
    + by apply Hclear.
Qed.

(** The patched walk on a tree never yields a directory that is in the
    skip set or below a directory of the skip set, unless that directory
    lies above the top of the walk. *)
Lemma filtered_walk_avoids_skipped fs skip_set top item D :
  item ∈ filtered_walk skip_set (os_walk_on fs) keep_all top →
  D ∈ skip_set → D `prefix_of` item.1.1 →
  D `prefix_of` top ∧ D ≠ top.
Proof.
  unfold filtered_walk. case_bool_decide as Htop; [by intros ?%elem_of_nil|].
  intros Hin HD Hpre.
  apply list_elem_of_fmap in Hin as ([[r ds] fs'] & -> & Hin). cbn [fst] in Hpre.
  unfold os_walk_on in Hin.
  destruct (lookup_dir fs top) as [sub|]; [|by apply elem_of_nil in Hin].
  change (λ current_root dirnames, keep_all current_root (filter _ dirnames))
    with (skip_pruner skip_set) in Hin.
  apply walk_tree_clear in Hin as [Htr Hclear]. cbn [fst] in *.
  destruct (prefix_weak_total _ _ _ Hpre Htr) as [H|H].
  - split; [done|]. by intros ->.
  - destruct (decide (D = top)) as [->|Hne]; [done|].
    by destruct (Hclear D H Hpre Hne).
Qed.

Lemma filtered_walk_avoids_macosx fs skip_set top item :
  item ∈ filtered_walk skip_set (os_walk_on fs) keep_all top →
  ∃ rest, item.1.1 = top ++ rest ∧ "__MACOSX" ∉ rest.
Proof.
  unfold filtered_walk. case_bool_decide as Htop; [by intros ?%elem_of_nil|].
  intros Hin.
  apply list_elem_of_fmap in Hin as ([[r ds] fs'] & -> & Hin). cbn [fst].
  unfold os_walk_on in Hin.
  destruct (lookup_dir fs top) as [sub|]; [|by apply elem_of_nil in Hin].
  change (λ current_root dirnames, keep_all current_root (filter _ dirnames))
    with (skip_pruner skip_set) in Hin.
  apply walk_tree_clear in Hin as [[rest Hr] Hclear]. cbn [fst] in *. subst r.
  exists rest. split; [reflexivity|]. intros Hin.
  apply list_elem_of_split in Hin as (l1 & l2 & ->).
  destruct (Hclear (top ++ l1 ++ ["__MACOSX"])) as [_ Hlast].
  - by apply prefix_app_r.
  - exists l2. by rewrite <- !app_assoc.
  - intros H. apply (f_equal length) in H. rewrite !length_app in H. simpl in H. lia.
  - rewrite !app_assoc, last_snoc in Hlast. done.
Qed.

(** ** The extractor under the patched store *)

Section ExtractorLemmas.

Context {Image : Type}.
Variable extract : string → Exif → option (list string).
Variable other_columns : list string.

Implicit Types g : Globals Image.

Lemma load_rows_patched skip_set g paths :
  load_rows extract (patched skip_set g) paths
  = (flat_map (open_warnings g) paths, Ok (omap (processed extract g) paths)).
Proof.
  induction paths as [|path paths IH]; [done|].
  cbn [load_rows flat_map omap list_omap]. rewrite IH. clear IH.
  unfold open_warnings, processed.
  change (get_exif_data (patched skip_set g)) with (safe_get_exif (get_exif_data g)).
  cbn [patched image_open]. unfold safe_image_open.
  destruct (image_open g path) as [warned [[img|]|e]]; cbn [fst snd safe_get_exif].
  - destruct (get_exif_data g (Some img)) as [[|tag exif]|e];
      rewrite ?app_nil_r; try done.
    by destruct (extract path (tag :: exif)).
  - by rewrite app_nil_r.
  - by rewrite <- app_assoc.
Qed.

Lemma load_images_filtered_model_run root ct ts skip_set g :
  load_images_filtered (load_images_model extract other_columns) root ct ts skip_set g
  = {| trace := EvWarn <$> flat_map (open_warnings g) (scanned_files skip_set g root);
       result := Ok (frame_of_rows other_columns
                       (omap (processed extract g) (scanned_files skip_set g root)));
       globals := unwrapped g |}.
Proof.
  rewrite load_images_filtered_run. unfold load_images_model. cbn zeta.
  change (os_walk (patched skip_set g)) with (filtered_walk skip_set (os_walk g)).
  fold (scanned_files skip_set g root).
  by rewrite load_rows_patched.
Qed.

Lemma processed_keeps_path g paths :
  (omap (processed extract g) paths).*1 = filter (λ path, is_Some (processed extract g path)) paths.
Proof.
  induction paths as [|path paths IH]; [done|].
  cbn [omap list_omap]. rewrite filter_cons.
  destruct (processed extract g path) as [[url cells]|] eqn:E.
  - rewrite decide_True by done. csimpl. rewrite IH. f_equal.
    unfold processed in E. repeat case_match; try done.
    destruct (extract _ _); by simplify_eq/=.
  - rewrite decide_False by (by intros [? ?]). done.
Qed.

Lemma getitem_frame_of_rows rows urls :
  getitem (frame_of_rows other_columns rows) "image_url" = Ok urls → urls = rows.*1.
Proof.
  unfold getitem, frame_of_rows. cbn [df_data List.filter fst String.eqb].
  change ("image_url" =? "image_url")%string with true. cbn match.
  destruct (List.filter _ _); [|done]. by intros [= <-].
Qed.

Lemma filter_label_absent key (data : list (string * list string)) :
  key ∉ data.*1 → List.filter (λ col, String.eqb col.1 key) data = [].
Proof.
  induction data as [|col data IH]; [done|]. csimpl. intros Hnot.
  destruct (String.eqb_spec col.1 key) as [<-|_].
  - destruct Hnot. left.
  - apply IH. intros H. apply Hnot. by right.
Qed.

Lemma imap_labels {A} (f : nat → string → A) (labels : list string) :
  (imap (λ j label, (label, f j label)) labels).*1 = labels.
Proof.
  revert f. induction labels as [|c l IH]; intros f; [done|].
  csimpl. f_equal. apply (IH (λ j, f (S j))).
Qed.

Lemma getitem_frame_of_rows_ok rows :
  "image_url" ∉ other_columns →
  getitem (frame_of_rows other_columns rows) "image_url" = Ok rows.*1.
Proof.
  intros Hcols. unfold getitem, frame_of_rows. cbn [df_data List.filter fst].
  change ("image_url" =? "image_url")%string with true. cbn match.
  rewrite filter_label_absent; [done|]. by rewrite imap_labels.
Qed.

End ExtractorLemmas.

Section ExtractorClaims.

Context {Image : Type}.
Variable extract : string → Exif → option (list string).
Variable other_columns : list string.

Implicit Types g : Globals Image.


(** C1, as the code has it. For the scan root holding [a/photo1.jpg] and
    [a/photo2.png] next to [__MACOSX/b/.DS_Store], with [photo1.jpg]
    successfully processed: the patched walk scans the root and [a] only,
    nothing under [__MACOSX] being traversed or opened; the table has
    exactly one row, for [a/photo1.jpg]; and the dropped count is 0,
    because the [.png] is removed by the traversal filter before the
    table is assembled. *)
Theorem scenario_one_row_nothing_dropped ct ts g img tag exif cells :
  os_walk g = os_walk_on Scenario.tree →
  (image_open g "/data/a/photo1.jpg").2 = Ok (Some img) →
  get_exif_data g (Some img) = Ok (tag :: exif) →
  extract "/data/a/photo1.jpg" (tag :: exif) = Some cells →
  "image_url" ∉ other_columns →
  let load_images := load_images_model extract other_columns in
  let out := build_geoimageframe load_images Scenario.root ct ts ∅ g in
  (filtered_walk ∅ (os_walk g) keep_all Scenario.root).*1.*1 = [["data"]; ["data"; "a"]]
  ∧ scanned_files ∅ g Scenario.root = ["/data/a/photo1.jpg"]
  ∧ ∃ t, result out = Ok (t, 0%Z)
         ∧ getitem t "image_url" = Ok ["/data/a/photo1.jpg"]
         ∧ df_index t = [0]
         ∧ len t = 1.
Proof.
  intros Hwalk Hopen Hexif Hrow Hcols load_images out.
  assert (filtered_walk ∅ (os_walk g) keep_all Scenario.root
          = [(["data"], ["a"], []); (["data"; "a"], [], ["photo1.jpg"])]) as Hitems.
  { rewrite Hwalk. by vm_compute. }
  assert (scanned_files ∅ g Scenario.root = ["/data/a/photo1.jpg"]) as Hfiles.
  { unfold scanned_files. rewrite Hitems. by vm_compute. }
  split; [by rewrite Hitems|]. split; [done|].
  subst out load_images. rewrite build_geoimageframe_run. cbn zeta.
  rewrite load_images_filtered_model_run, Hfiles. cbn [result trace omap list_omap].
  unfold processed. rewrite Hopen, Hexif, Hrow. cbn [fmap option_fmap option_map].
  pose proof (getitem_frame_of_rows_ok other_columns
                [("/data/a/photo1.jpg", cells)] Hcols) as Hcol.
  rewrite Hcol.
  change (is_jpeg <$> ["/data/a/photo1.jpg"]) with [true].
  eexists. split; [reflexivity|].
  split; [|done]. by rewrite (getitem_reset_mask _ _ _ _ Hcol).
Qed.

End ExtractorClaims.

(** ** Paths as text *)

Lemma append_nil_r (s : string) : s +:+ "" = s.
Proof.
  induction s as [|c s IH]; [done|].
  change (String c (s +:+ "") = String c s). by rewrite IH.
Qed.

Lemma append_assoc (a b c : string) : (a +:+ b) +:+ c = a +:+ (b +:+ c).
Proof.
  induction a as [|x a IH]; [done|].
  change (String x ((a +:+ b) +:+ c) = String x (a +:+ (b +:+ c))). by rewrite IH.
Qed.

Lemma str_of_path_slashed p : p ≠ [] → str_of_path p = slashed p.
Proof.
  intros Hne. destruct p as [|c p]; [done|]. clear Hne. unfold str_of_path.
  revert c. induction p as [|c' p IH]; intros c.
  - cbn. by rewrite append_nil_r.
  - change (String.concat "" ((λ c0, "/" +:+ c0) <$> c :: c' :: p))
      with ("/" +:+ c +:+ String.concat "" ((λ c0, "/" +:+ c0) <$> c' :: p)).
    by rewrite IH.
Qed.

Lemma slashed_head p : p = [] ∨ ∃ s, slashed p = String "/" s.
Proof. destruct p as [|c p]; [by left|]. right. by eexists. Qed.

Lemma slash_free_split c c' r r' :
  slash_free c = true → slash_free c' = true →
  (r = "" ∨ ∃ s, r = String "/" s) → (r' = "" ∨ ∃ s, r' = String "/" s) →
  c +:+ r = c' +:+ r' → c = c' ∧ r = r'.
Proof.
  revert c'. induction c as [|x c IH]; intros [|y c'] Hc Hc' Hr Hr' Heq; simpl in *.
  - done.
  - destruct Hr as [->|[s ->]]; [done|]. injection Heq as <- _.
    by rewrite Ascii.eqb_refl in Hc'.
  - destruct Hr' as [->|[s ->]]; [done|]. injection Heq as -> _.
    by rewrite Ascii.eqb_refl in Hc.
  - injection Heq as -> Heq.
    apply andb_prop in Hc as [_ Hc]. apply andb_prop in Hc' as [_ Hc'].
    destruct (IH c' Hc Hc' Hr Hr' Heq) as [-> ->]. done.
Qed.

Lemma slashed_inj p q :
  Forall (λ c, slash_free c = true) p → Forall (λ c, slash_free c = true) q →
  slashed p = slashed q → p = q.
Proof.
  intros Hp. revert q. induction Hp as [|c p Hc Hp IH]; intros q Hq Heq.
  - destruct q as [|c' q]; [done|]. done.
  - destruct Hq as [|c' q Hc' Hq]; [done|].
    cbn [slashed] in Heq. injection Heq as Heq.
    assert (∀ l, slashed l = "" ∨ ∃ s, slashed l = String "/" s) as Hhead.
    { intros l. destruct (slashed_head l) as [->|?]; [by left|by right]. }
    destruct (slash_free_split _ _ _ _ Hc Hc' (Hhead p) (Hhead q) Heq) as [-> Heq'].
    f_equal. by apply IH.
Qed.

Lemma str_of_path_inj p q :
  p ≠ [] → q ≠ [] →
  Forall (λ c, slash_free c = true) p → Forall (λ c, slash_free c = true) q →
  str_of_path p = str_of_path q → p = q.
Proof.
  intros Hp Hq Fp Fq. rewrite !str_of_path_slashed by done. by apply slashed_inj.
Qed.

(** ** What the walk yields is in the tree *)

Lemma lookup_dir_app t p q sub :
  lookup_dir t p = Some sub → lookup_dir t (p ++ q) = lookup_dir sub q.
Proof.
  revert t. induction p as [|d p IH]; intros [subdirs files]; [by intros [= ->]|].
  rewrite <- app_comm_cons, !lookup_dir_unfold.
  destruct (child_named d subdirs) as [s|]; [apply IH | done].
Qed.

Lemma walk_tree_lookup t on_yield :
  ∀ top item, item ∈ walk_tree t on_yield top →
    ∃ rest subdirs, item.1.1 = top ++ rest
                    ∧ lookup_dir t rest = Some (Dir subdirs item.2).
Proof.
  induction t as [subdirs files IH] using Tree_nested_ind. intros top item.
  rewrite walk_tree_unfold. intros [->|Hin]%elem_of_cons.
  { exists [], subdirs. by rewrite app_nil_r. }
  apply list_elem_of_In, in_flat_map in Hin as (d & _ & Hin%list_elem_of_In).
  destruct (child_named d subdirs) as [sub|] eqn:E; [|by apply elem_of_nil in Hin].
  rewrite Forall_forall in IH.
  destruct (IH _ (child_named_elem_of _ _ _ E) _ _ Hin) as (rest & subs & Hr & Hl).
  exists (d :: rest), subs. split.
  - by rewrite Hr, <- app_assoc.
  - by rewrite lookup_dir_unfold, E.
Qed.

Lemma names_ok_lookup t p subdirs files :
  names_ok t = true → lookup_dir t p = Some (Dir subdirs files) →
  Forall (λ c, slash_free c = true) p ∧ Forall (λ c, slash_free c = true) files.
Proof.
  revert t. induction p as [|d p IH]; intros [subs fs'] Hok.
  - intros [= -> ->]. split; [constructor|].
    cbn [names_ok] in Hok. apply andb_prop in Hok as [Hok _].
    apply Forall_forall. intros f Hf. rewrite forallb_forall in Hok.
    by apply Hok, list_elem_of_In.
  - rewrite lookup_dir_unfold.
    destruct (child_named d subs) as [sub|] eqn:E; [|done]. intros Hl.
    apply child_named_elem_of in E.
    cbn [names_ok] in Hok. apply andb_prop in Hok as [_ Hok].
    rewrite forallb_forall in Hok. apply list_elem_of_In, Hok in E.
    apply andb_prop in E as [Hd Hsub].
    destruct (IH sub Hsub Hl) as [Hp Hf]. split; [by constructor | done].
Qed.

(** Every path the patched walk hands over names a file of the tree. *)
Lemma filtered_walk_paths fs skip_set top q :
  names_ok fs = true →
  q ∈ walk_paths (filtered_walk skip_set (os_walk_on fs) keep_all top) →
  Forall (λ c, slash_free c = true) q
  ∧ ∃ item f, item ∈ filtered_walk skip_set (os_walk_on fs) keep_all top
              ∧ f ∈ item.2 ∧ q = item.1.1 ++ [f].
Proof.
  intros Hok Hq. unfold walk_paths in Hq.
  apply list_elem_of_In, in_flat_map in Hq as ([[r ds] files] & Hitem%list_elem_of_In & Hq).
  apply list_elem_of_In, list_elem_of_fmap in Hq as (f & -> & Hf).
  split; [|by exists (r, ds, files), f].
  unfold filtered_walk in Hitem. case_bool_decide; [by apply elem_of_nil in Hitem|].
  apply list_elem_of_fmap in Hitem as ([[r' ds'] files'] & [= -> -> ->] & Hitem).
  apply list_elem_of_filter in Hf as [_ Hf].
  unfold os_walk_on in Hitem.
  destruct (lookup_dir fs top) as [sub|] eqn:E; [|by apply elem_of_nil in Hitem].
  apply walk_tree_lookup in Hitem as (rest & subs & Hr & Hl). cbn [fst snd] in *.
  rewrite <- (lookup_dir_app _ _ _ _ E), <- Hr in Hl.
  destruct (names_ok_lookup _ _ _ _ Hok Hl) as [Hp Hfiles].
  apply Forall_app. split; [done|]. constructor; [|constructor].
  rewrite Forall_forall in Hfiles. by apply Hfiles.
Qed.

(** ** Why the second filter finds nothing to remove *)

Lemma lower_append a b : PyStr.lower (a +:+ b) = PyStr.lower a +:+ PyStr.lower b.
Proof.
  induction a as [|c a IH]; [done|].
  change (String (PyStr.lower_char c) (PyStr.lower (a +:+ b))
          = String (PyStr.lower_char c) (PyStr.lower a +:+ PyStr.lower b)).
  by rewrite IH.
Qed.

Lemma endswith_append a b suffix :
  PyStr.endswith b suffix = true → PyStr.endswith (a +:+ b) suffix = true.
Proof.
  intros Hb. induction a as [|c a IH]; [done|].
  change (String c a +:+ b) with (String c (a +:+ b)). cbn [PyStr.endswith].
  rewrite IH. by destruct (String.eqb _ _).
Qed.

Lemma is_jpeg_append a b : is_jpeg b = true → is_jpeg (a +:+ b) = true.
Proof.
  unfold is_jpeg, PyStr.endswith_any. rewrite lower_append.
  rewrite !existsb_exists. intros (suffix & Hin & Hb).
  exists suffix. split; [done|]. by apply endswith_append.
Qed.

Lemma slashed_snoc r f : slashed (r ++ [f]) = slashed r +:+ "/" +:+ f.
Proof.
  induction r as [|c r IH]; cbn [slashed app].
  - by rewrite append_nil_r.
  - by rewrite IH, !append_assoc.
Qed.

Lemma is_jpeg_path r f : is_jpeg f = true → is_jpeg (str_of_path (r ++ [f])) = true.
Proof.
  intros Hf. rewrite str_of_path_slashed by (by destruct r).
  rewrite slashed_snoc. apply is_jpeg_append.
  change ("/" +:+ f) with (String "/" "" +:+ f). by apply is_jpeg_append.
Qed.

(** Whatever the original walk yields, every file the patched walk hands
    over passes the extension test with its full path. *)
Lemma scanned_files_are_jpeg {Image} skip_set (g : Globals Image) root path :
  path ∈ scanned_files skip_set g root → is_jpeg path = true.
Proof.
  unfold scanned_files, walk_paths.
  intros (q & -> & Hq)%list_elem_of_fmap.
  apply list_elem_of_In, in_flat_map in Hq as ([[r ds] files] & Hitem%list_elem_of_In & Hq).
  apply list_elem_of_In, list_elem_of_fmap in Hq as (f & -> & Hf).
  unfold filtered_walk in Hitem. case_bool_decide; [by apply elem_of_nil in Hitem|].
  apply list_elem_of_fmap in Hitem as ([[r' ds'] files'] & [= -> -> ->] & _).
  apply list_elem_of_filter in Hf as [Hf _]. by apply is_jpeg_path.
Qed.

Lemma select_all_true {A B} (f : A → bool) (l : list A) (k : list B) :
  Forall (λ x, f x = true) l → (length k ≤ length l)%nat → select (f <$> l) k = k.
Proof.
  intros H. revert k. induction H as [|x l Hx _ IH]; intros [|y k] Hlen; simpl in *;
    try done; try lia.
  rewrite Hx. f_equal. apply IH. lia.
Qed.

Section TraversalClaims.

Context {Image : Type}.
Variable extract : string → Exif → option (list string).
Variable other_columns : list string.

Implicit Types g : Globals Image.

(** C2, as the code has it. When the root itself is in the skip set the
    patched walk yields nothing and the assembled table has no row. On a
    tree of well-formed names, for every directory [D] of the skip set
    that does not lie strictly above the scan root, the walk visits
    neither [D] nor any directory below it, and no file below [D], at any
    depth, is handed to the extractor or appears in the assembled table
    or in the table the Frame Builder returns. *)
Theorem skipped_directories_contribute_no_rows root ct ts skip_set :
  let load_images := load_images_model extract other_columns in
  (∀ g, root ∈ skip_set →
     (∀ on_yield, filtered_walk skip_set (os_walk g) on_yield root = [])
     ∧ load_images_filtered load_images root ct ts skip_set g
       = {| trace := [];
            result := Ok (frame_of_rows other_columns []);
            globals := unwrapped g |})
  ∧ (∀ g fs D p,
       os_walk g = os_walk_on fs → names_ok fs = true →
       D ∈ skip_set → ¬ (D `prefix_of` root ∧ D ≠ root) →
       D `prefix_of` p → D ≠ p → Forall (λ c, slash_free c = true) p →
       (∀ item, item ∈ filtered_walk skip_set (os_walk g) keep_all root →
                ¬ D `prefix_of` item.1.1)
       ∧ (str_of_path p ∉ scanned_files skip_set g root)
       ∧ (∀ gif urls,
            result (load_images_filtered load_images root ct ts skip_set g) = Ok gif →
            getitem gif "image_url" = Ok urls → str_of_path p ∉ urls)
       ∧ (∀ t d urls,
            result (build_geoimageframe load_images root ct ts skip_set g) = Ok (t, d) →
            getitem t "image_url" = Ok urls → str_of_path p ∉ urls)).
Proof.
  intros load_images. subst load_images. split.
  - intros g Hroot.
    assert (∀ on_yield, filtered_walk skip_set (os_walk g) on_yield root = []) as Hnil.
    { intros on_yield. unfold filtered_walk. by rewrite bool_decide_eq_true_2. }
    split; [done|]. rewrite load_images_filtered_model_run.
    unfold scanned_files. by rewrite Hnil.
  - intros g fs D p Hwalk Hok HD Hanc Hpre Hne Hp.
    assert (∀ item, item ∈ filtered_walk skip_set (os_walk g) keep_all root →
                    ¬ D `prefix_of` item.1.1) as Hvisit.
    { intros item Hitem HDr. rewrite Hwalk in Hitem.
      by apply Hanc, (filtered_walk_avoids_skipped fs skip_set root item D). }
    assert (str_of_path p ∉ scanned_files skip_set g root) as Hscan.
    { unfold scanned_files. intros (q & Heq & Hq)%list_elem_of_fmap.
      pose proof Hq as Hq'. rewrite Hwalk in Hq'.
      apply filtered_walk_paths in Hq' as (Hfree & item & f & Hitem & Hf & ->); [|done].
      rewrite <- Hwalk in Hitem.
      assert (p ≠ []) as Hp0.
      { intros ->. by apply prefix_nil_inv in Hpre. }
      apply str_of_path_inj in Heq; [|done|by destruct (item.1.1)|done|done].
      subst p. apply (Hvisit item Hitem).
      destruct Hpre as [k Hk].
      destruct (decide (k = [])) as [->|Hk0]; [by rewrite app_nil_r in Hk|].
      destruct (exists_last Hk0) as (k' & x & ->).
      rewrite app_assoc in Hk. apply app_inj_tail in Hk as [Hk _]. by exists k'. }
    assert (∀ gif urls,
              result (load_images_filtered (load_images_model extract other_columns)
                        root ct ts skip_set g) = Ok gif →
              getitem gif "image_url" = Ok urls → str_of_path p ∉ urls) as Hgif.
    { intros gif urls Hload Hcol Hin.
      rewrite load_images_filtered_model_run in Hload. cbn [result] in Hload.
      injection Hload as <-. apply getitem_frame_of_rows in Hcol as ->.
      rewrite processed_keeps_path in Hin. apply list_elem_of_filter in Hin as [_ Hin].
      by apply Hscan. }
    repeat split; try done.
    intros t d urls Hbuild Hcol Hin.
    apply build_geoimageframe_ok in Hbuild as (gif & urls0 & Hload & Hcol0 & _ & _ & Ht).
    rewrite Ht in Hcol. injection Hcol as <-.
    apply select_elem_of in Hin as [_ Hin]. by apply (Hgif gif urls0).
Qed.

(** With the extractor walking through the patched [os.walk], the table
    the Frame Builder returns is the assembled table itself, and the
    dropped count is 0. *)
Lemma traversal_filter_leaves_nothing_to_drop root ct ts skip_set g t d :
  "image_url" ∉ other_columns →
  result (build_geoimageframe (load_images_model extract other_columns)
            root ct ts skip_set g) = Ok (t, d) →
  d = 0%Z
  ∧ getitem t "image_url"
    = Ok (omap (processed extract g) (scanned_files skip_set g root)).*1.
Proof.
  intros Hcols Hbuild.
  apply build_geoimageframe_ok in Hbuild as (gif & urls & Hload & Hcol & -> & -> & Ht).
  rewrite load_images_filtered_model_run in Hload. cbn [result] in Hload.
  injection Hload as <-. rewrite getitem_frame_of_rows_ok in Hcol by done.
  injection Hcol as <-.
  set (rows := omap (processed extract g) (scanned_files skip_set g root)) in *.
  assert (Forall (λ url, is_jpeg url = true) rows.*1) as Hall.
  { apply Forall_forall. intros url Hurl. subst rows.
    rewrite processed_keeps_path in Hurl. apply list_elem_of_filter in Hurl as [_ Hurl].
    by apply (scanned_files_are_jpeg skip_set g root). }
  split.
  - unfold len, reset_index, getitem_mask, frame_of_rows. cbn [df_index].
    unfold len. cbn [df_index].
    rewrite (select_all_true is_jpeg rows.*1 (seq 0 (length rows)) Hall)
      by (by rewrite length_seq, length_fmap).
    rewrite !length_seq. lia.
  - rewrite Ht. f_equal. by apply select_all_true.
Qed.

End TraversalClaims.

(** ** The Schema Aligner *)

Lemma insert_sorted_perm x l : insert_sorted x l ≡ₚ x :: l.
Proof.
  induction l as [|y l IH]; [done|]. cbn [insert_sorted].
  destruct (String.leb x y); [done|]. rewrite IH. apply Permutation_swap.
Qed.

Lemma sorted_perm l : sorted l ≡ₚ l.
Proof.
  induction l as [|x l IH]; [done|]. cbn [sorted foldr].
  rewrite insert_sorted_perm. by constructor.
Qed.

(** The columns a frame keeps when asked for labels it carries once. *)
Lemma filter_label_unique (data : list (string * list string)) col :
  NoDup data.*1 → col ∈ data →
  List.filter (λ c, String.eqb c.1 col.1) data = [col].
Proof.
  induction data as [|c data IH]; [by intros _ ?%elem_of_nil|].
  csimpl. intros [Hc Hnd]%NoDup_cons [->|Hin]%elem_of_cons.
  - rewrite String.eqb_refl. f_equal. by apply filter_label_absent.
  - destruct (String.eqb_spec c.1 col.1) as [Heq|_]; [|by apply IH].
    destruct Hc. rewrite Heq. apply list_elem_of_fmap. by exists col.
Qed.

Lemma getitem_columns_present (P : string → Prop) `{!∀ c, Decision (P c)} gif :
  NoDup (columns gif) →
  df_data (getitem_columns gif (filter P (columns gif)))
  = filter (λ col, P col.1) (df_data gif).
Proof.
  unfold getitem_columns, columns. cbn [df_data]. intros Hnd.
  assert (∀ l, l ⊆ df_data gif →
            flat_map (λ k, List.filter (λ col, String.eqb col.1 k) (df_data gif))
                     (filter P l.*1)
            = filter (λ col, P col.1) l) as Hflat.
  { induction l as [|col l IH]; [done|]. intros Hsub. csimpl.
    rewrite !filter_cons. cbn [fst].
    assert (l ⊆ df_data gif) as Hl by (intros x Hx; apply Hsub; by right).
    destruct (decide (P col.1)); [|by apply IH].
    cbn [flat_map]. rewrite filter_label_unique; [|done|apply Hsub; left].
    cbn [app]. f_equal. by apply IH. }
  by apply Hflat.
Qed.

Section AlignerClaims.

Context {Image : Type}.

Implicit Types g : Globals Image.

Lemma missing_required_spec target c :
  c ∈ missing_required target
  ↔ c ∈ ["image_url"; "name"; "geometry"] ∧ c ∉ target.
Proof.
  unfold missing_required. rewrite sorted_perm, elem_of_elements, elem_of_difference.
  rewrite elem_of_list_to_set, !elem_of_union, !elem_of_singleton.
  rewrite !elem_of_cons, elem_of_nil. tauto.
Qed.

Lemma align_columns_to_table_run db table schema gif g :
  align_columns_to_table db table schema gif g =
    let target := get_columns db table schema in
    match missing_required target with
    | _ :: _ =>
        {| trace := [EvInspect table schema];
           result := Raise (ValueError
                              ("Target table '" +:+ table
                               +:+ "' is missing required columns: "
                               +:+ PyStr.join ", " (missing_required target)));
           globals := g |}
    | [] =>
        {| trace :=
             EvInspect table schema
             :: match filter (λ col, col ∉ target) (columns gif) with
                | [] => []
                | dropped_cols =>
                    [EvWarn ("Dropping columns not present in '" +:+ table +:+ "': "
                             +:+ PyStr.join ", " dropped_cols)]
                end
             ++ [EvReflect table schema];
           result := Ok (getitem_columns gif (filter (λ col, col ∈ target) (columns gif)));
           globals := g |}
    end.
Proof.
  cbn zeta. unfold align_columns_to_table.
  set (missing := ({["image_url"; "name"; "geometry"]} : gset string)
                  ∖ list_to_set (get_columns db table schema)).
  assert (missing_required (get_columns db table schema) = [] ↔ missing = ∅) as Hnil.
  { unfold missing_required. fold missing. split.
    - intros H. apply leibniz_equiv, elements_empty_inv.
      apply Permutation_nil_r. by rewrite <- sorted_perm, H.
    - intros ->. by rewrite elements_empty. }
  case_bool_decide as Hm; cbn [negb].
  - apply Hnil in Hm. rewrite Hm.
    assert (filter (λ col, col ∈ (list_to_set (get_columns db table schema) : gset string))
                   (columns gif)
            = filter (λ col, col ∈ get_columns db table schema) (columns gif)) as ->.
    { apply list_filter_iff. intros c. apply elem_of_list_to_set. }
    assert (filter (λ col, col ∉ (list_to_set (get_columns db table schema) : gset string))
                   (columns gif)
            = filter (λ col, col ∉ get_columns db table schema) (columns gif)) as ->.
    { apply list_filter_iff. intros c. by rewrite elem_of_list_to_set. }
    destruct (filter (λ col, col ∉ get_columns db table schema) (columns gif)) eqn:Ed.
    + reflexivity.
    + rewrite bool_decide_eq_false_2 by done. reflexivity.
  - destruct (missing_required (get_columns db table schema)) as [|c l] eqn:E.
    + destruct Hm. by apply Hnil.
    + rewrite <- E. reflexivity.
Qed.

Lemma filter_labels (P : string → Prop) `{!∀ c, Decision (P c)}
    (data : list (string * list string)) :
  (filter (λ col, P col.1) data).*1 = filter P data.*1.
Proof.
  induction data as [|col data IH]; [done|]. csimpl. rewrite !filter_cons.
  destruct (decide (P col.1)); csimpl; by rewrite IH.
Qed.

Lemma lift_ok_bind {A B} (a : A) (f : A → Prog Image B) g :
  (lift (Ok a) ≫= f) g = f a g.
Proof. unfold mbind, prog_bind, lift. cbn [result trace globals app]. by destruct (f a g). Qed.

Lemma emits_only_build_geoimageframe (P : Event → Prop) load_images root ct ts skip :
  (∀ msg, P (EvWarn msg)) →
  emits_only P (build_geoimageframe (Image:=Image) load_images root ct ts skip).
Proof.
  intros HP g. rewrite build_geoimageframe_run. cbn [trace].
  rewrite load_images_filtered_run. cbn [trace].
  apply Forall_fmap, Forall_true. intros msg. apply HP.
Qed.

(** C6. Whenever a required column is absent from the target table, the
    Schema Aligner raises "Target table '<table>' is missing required
    columns: ..." listing, in sorted order and once each, exactly the
    required columns the target lacks, having only inspected the table;
    when [geometry] alone is absent the list is exactly [geometry]; and a
    run against such a table raises without ever attempting the upsert. *)
Theorem missing_required_columns_is_fatal :
  (∀ db table schema gif g c,
     c ∈ ["image_url"; "name"; "geometry"] → c ∉ get_columns db table schema →
     let missing := missing_required (get_columns db table schema) in
     align_columns_to_table db table schema gif g
     = {| trace := [EvInspect table schema];
          result := Raise (ValueError ("Target table '" +:+ table
                                       +:+ "' is missing required columns: "
                                       +:+ PyStr.join ", " missing));
          globals := g |}
     ∧ (∀ c', c' ∈ missing
              ↔ c' ∈ ["image_url"; "name"; "geometry"]
                ∧ c' ∉ get_columns db table schema)
     ∧ NoDup missing
     ∧ ("image_url" ∈ get_columns db table schema →
        "name" ∈ get_columns db table schema →
        missing = ["geometry"]))
  ∧ (∀ load_images w env args g cfg c,
       load_config args env = Ok cfg →
       c ∈ ["image_url"; "name"; "geometry"] →
       c ∉ get_columns (connect w (database_url cfg)) (table_name cfg) (table_schema cfg) →
       let out := import_images load_images w env args g in
       is_raise (result out)
       ∧ Forall (λ ev, match ev with EvUpsert _ _ _ => False | _ => True end) (trace out)).
Proof.
  assert (∀ db table schema c,
            c ∈ ["image_url"; "name"; "geometry"] → c ∉ get_columns db table schema →
            ∃ x l, missing_required (get_columns db table schema) = x :: l) as Hsome.
  { intros db table schema c Hc Hn.
    destruct (missing_required (get_columns db table schema)) as [|x l] eqn:E; [|by eauto].
    assert (c ∈ missing_required (get_columns db table schema)) as Hin
      by by apply missing_required_spec.
    rewrite E in Hin. by apply elem_of_nil in Hin. }
  split.
  - intros db table schema gif g c Hc Hn missing.
    destruct (Hsome db table schema c Hc Hn) as (x & l & E).
    split; [|split; [|split]].
    + rewrite align_columns_to_table_run. cbn zeta. subst missing. by rewrite E.
    + apply missing_required_spec.
    + subst missing. unfold missing_required. rewrite sorted_perm. apply NoDup_elements.
    + intros Hurl Hname. subst missing. unfold missing_required.
      assert (({["image_url"; "name"; "geometry"]} : gset string)
              ∖ list_to_set (get_columns db table schema) = {["geometry"]}) as ->.
      { apply set_eq. intros y.
        rewrite elem_of_difference, elem_of_list_to_set, !elem_of_union, !elem_of_singleton.
        split.
        - intros [Hy Hy']. destruct_or!; by subst.
        - intros ->. split; [auto|].
          rewrite !elem_of_cons, elem_of_nil in Hc.
          destruct Hc as [->|[->|[->|[]]]]; done. }
      by rewrite elements_singleton.
  - intros load_images w env args g cfg c Hcfg Hc Hn out. subst out.
    set (P := λ ev, match ev with EvUpsert _ _ _ => False | _ => True end).
    unfold import_images. destruct (negb _); [by split; [|constructor]|].
    rewrite Hcfg, lift_ok_bind.
    destruct (Hsome _ _ _ c Hc Hn) as (x & l & E).
    assert (∀ gif, always_raises (Image:=Image)
              (align_columns_to_table (connect w (database_url cfg)) (table_name cfg)
                 (table_schema cfg) gif)
            ∧ emits_only (Image:=Image) P
                (align_columns_to_table (connect w (database_url cfg)) (table_name cfg)
                   (table_schema cfg) gif)) as Halign.
    { intros gif. split; intros g'; rewrite align_columns_to_table_run; cbn zeta;
        rewrite E; cbn [result trace]; [done | by repeat constructor]. }
    split.
    + apply always_raises_bind_r. intros skip.
      apply always_raises_bind_r. intros _.
      apply always_raises_bind_r. intros [gif dropped].
      apply always_raises_bind_r. intros _.
      apply always_raises_bind_l, Halign.
    + apply emits_only_bind.
      { destruct (skip_existing_dirs cfg); [|apply emits_only_ret].
        apply emits_only_bind; [by apply emits_only_emit|]. intros _.
        apply emits_only_bind; [by apply emits_only_emit|]. intros sd.
        apply emits_only_bind; [by apply emits_only_emit|]. intros _.
        apply emits_only_ret. }
      intros skip. apply emits_only_bind; [by apply emits_only_emit|]. intros _.
      apply emits_only_bind; [by apply emits_only_build_geoimageframe|].
      intros [gif dropped].
      apply emits_only_bind; [by apply emits_only_when, emits_only_emit|]. intros _.
      apply emits_only_bind_raises; apply Halign.
Qed.

Lemma getitem_columns_labels gif keys c :
  c ∈ columns (getitem_columns gif keys) ↔ c ∈ keys ∧ c ∈ columns gif.
Proof.
  unfold columns, getitem_columns. cbn [df_data].
  assert (∀ k, c ∈ (List.filter (λ col, String.eqb col.1 k) (df_data gif)).*1
               ↔ c = k ∧ c ∈ (df_data gif).*1) as Hone.
  { intros k. induction (df_data gif) as [|col data IH]; csimpl.
    - rewrite elem_of_nil. tauto.
    - destruct (String.eqb_spec col.1 k) as [Heq|Hne]; csimpl;
        rewrite ?elem_of_cons, IH; [subst k|]; intuition congruence. }
  induction keys as [|k keys IH]; cbn [flat_map].
  - rewrite fmap_nil, !elem_of_nil. tauto.
  - rewrite fmap_app, elem_of_app, Hone, IH, elem_of_cons. tauto.
Qed.

(** C7. For a target holding the required columns, the Schema Aligner
    returns the table cut down to exactly the columns present in both the
    table and the target, rows untouched; no column of the target is
    dropped; when the table's labels are distinct, the kept columns stand
    in the table's own order with their cells unchanged; and the columns
    absent from the target, when there are any, are listed in one warning
    emitted between inspecting and reflecting the table. *)
Theorem aligner_projects_to_shared_columns db table schema gif g :
  (∀ c, c ∈ ["image_url"; "name"; "geometry"] → c ∈ get_columns db table schema) →
  let target := get_columns db table schema in
  let dropped_cols := filter (λ col, col ∉ target) (columns gif) in
  let out := align_columns_to_table db table schema gif g in
  ∃ t, result out = Ok t
       ∧ df_index t = df_index gif
       ∧ (∀ c, c ∈ columns t ↔ c ∈ columns gif ∧ c ∈ target)
       ∧ (∀ c, c ∈ columns gif → c ∈ target → c ∈ columns t)
       ∧ (NoDup (columns gif) →
          columns t = filter (λ col, col ∈ target) (columns gif)
          ∧ df_data t = filter (λ col, col.1 ∈ target) (df_data gif)
          ∧ columns t `sublist_of` columns gif)
       ∧ trace out
         = EvInspect table schema
           :: match dropped_cols with
              | [] => []
              | _ => [EvWarn ("Dropping columns not present in '" +:+ table +:+ "': "
                              +:+ PyStr.join ", " dropped_cols)]
              end
           ++ [EvReflect table schema].
Proof.
  intros Hreq target dropped_cols out. subst out.
  rewrite align_columns_to_table_run. cbn zeta. fold target.
  destruct (missing_required target) as [|x l] eqn:E.
  2:{ assert (x ∈ missing_required target) as Hx by (rewrite E; left).
      apply missing_required_spec in Hx as [Hx Hn]. destruct Hn. by apply Hreq. }
  eexists. split; [reflexivity|]. split; [reflexivity|].
  assert (∀ c, c ∈ columns (getitem_columns gif
                              (filter (λ col, col ∈ target) (columns gif)))
               ↔ c ∈ columns gif ∧ c ∈ target) as Hset.
  { intros c. rewrite getitem_columns_labels, list_elem_of_filter. tauto. }
  split; [exact Hset|]. split; [intros c Hc Ht; by apply Hset|]. split.
  - intros Hnd.
    pose proof (getitem_columns_present (λ c, c ∈ target) gif Hnd) as Hdata.
    assert (columns (getitem_columns gif (filter (λ col, col ∈ target) (columns gif)))
            = filter (λ col, col ∈ target) (columns gif)) as Hcols.
    { unfold columns at 1. rewrite Hdata.
      exact (filter_labels (λ c, c ∈ target) (df_data gif)). }
    rewrite Hcols. split; [done|]. split; [exact Hdata | apply sublist_filter].
  - cbn [trace]. subst dropped_cols.
    destruct (filter (λ col, col ∉ target) (columns gif)); reflexivity.
Qed.

End AlignerClaims.

(** ** Thumbnail sizes *)

Lemma lower_char_class c :
  PyStr.is_space (PyStr.lower_char c) = PyStr.is_space c
  ∧ PyStr.digit_val (PyStr.lower_char c) = PyStr.digit_val c
  ∧ Ascii.eqb (PyStr.lower_char c) "_" = Ascii.eqb c "_"
  ∧ Ascii.eqb (PyStr.lower_char c) "+" = Ascii.eqb c "+"
  ∧ Ascii.eqb (PyStr.lower_char c) "-" = Ascii.eqb c "-"
  ∧ Ascii.eqb (PyStr.lower_char c) "x" = (Ascii.eqb c "x" || Ascii.eqb c "X")
  ∧ Ascii.eqb (PyStr.lower_char c) "," = Ascii.eqb c ",".
Proof. destruct c as [[] [] [] [] [] [] [] []]; by vm_compute. Qed.

Lemma lstrip_lower s : PyStr.lstrip (PyStr.lower s) = PyStr.lower (PyStr.lstrip s).
Proof.
  induction s as [|c s IH]; [done|]. cbn [PyStr.lower PyStr.lstrip].
  destruct (lower_char_class c) as [-> _]. by destruct (PyStr.is_space c).
Qed.

Lemma rstrip_lower s : PyStr.rstrip (PyStr.lower s) = PyStr.lower (PyStr.rstrip s).
Proof.
  induction s as [|c s IH]; [done|]. cbn [PyStr.lower PyStr.rstrip]. rewrite IH.
  destruct (lower_char_class c) as [-> _].
  destruct (PyStr.rstrip s); [by destruct (PyStr.is_space c) | done].
Qed.

Lemma int_digits_lower s acc b :
  PyStr.int_digits (PyStr.lower s) acc b = PyStr.int_digits s acc b.
Proof.
  revert acc b. induction s as [|c s IH]; intros acc b; [done|].
  cbn [PyStr.lower PyStr.int_digits].
  destruct (lower_char_class c) as (_ & -> & -> & _).
  destruct (PyStr.digit_val c); [apply IH|].
  destruct (Ascii.eqb c "_" && b); [apply IH | done].
Qed.

Lemma lower_char_int_space c :
  PyStr.is_int_space (PyStr.lower_char c) = PyStr.is_int_space c.
Proof. destruct c as [[] [] [] [] [] [] [] []]; by vm_compute. Qed.

Lemma int_lstrip_lower s :
  PyStr.int_lstrip (PyStr.lower s) = PyStr.lower (PyStr.int_lstrip s).
Proof.
  induction s as [|c s IH]; [done|]. cbn [PyStr.lower PyStr.int_lstrip].
  rewrite lower_char_int_space. by destruct (PyStr.is_int_space c).
Qed.

Lemma int_rstrip_lower s :
  PyStr.int_rstrip (PyStr.lower s) = PyStr.lower (PyStr.int_rstrip s).
Proof.
  induction s as [|c s IH]; [done|]. cbn [PyStr.lower PyStr.int_rstrip]. rewrite IH.
  rewrite lower_char_int_space.
  destruct (PyStr.int_rstrip s); [by destruct (PyStr.is_int_space c) | done].
Qed.

Lemma digit_count_lower s : PyStr.digit_count (PyStr.lower s) = PyStr.digit_count s.
Proof.
  induction s as [|c s IH]; [done|]. cbn [PyStr.lower PyStr.digit_count].
  destruct (lower_char_class c) as (_ & -> & _). by rewrite IH.
Qed.

Lemma int_numeral_lower s : PyStr.int_numeral (PyStr.lower s) = PyStr.int_numeral s.
Proof. unfold PyStr.int_numeral. by rewrite digit_count_lower, int_digits_lower. Qed.

Lemma int_lower s : PyStr.int (PyStr.lower s) = PyStr.int s.
Proof.
  unfold PyStr.int. rewrite int_rstrip_lower, int_lstrip_lower.
  destruct (PyStr.int_lstrip (PyStr.int_rstrip s)) as [|c r]; [done|]. cbn [PyStr.lower].
  destruct (lower_char_class c) as (_ & _ & _ & -> & -> & _ & _).
  rewrite int_numeral_lower.
  change (String (PyStr.lower_char c) (PyStr.lower r)) with (PyStr.lower (String c r)).
  by rewrite int_numeral_lower.
Qed.

Lemma split_normalized s :
  ∃ l, pieces s l
       ∧ PyStr.split "," (PyStr.replace_char "x" "," (PyStr.lower s)) = PyStr.lower <$> l.
Proof.
  induction s as [|c s (l & Hl & IH)].
  { exists [""]. split; [by constructor | done]. }
  cbn [PyStr.lower PyStr.replace_char PyStr.split].
  destruct (lower_char_class c) as (_ & _ & _ & _ & _ & Hx & Hcomma).
  assert (is_separator c = true →
          ∃ l', pieces (String c s) l'
                ∧ "" :: PyStr.split "," (PyStr.replace_char "x" "," (PyStr.lower s))
                  = PyStr.lower <$> l') as Hsep.
  { intros Hc. exists ("" :: l). split; [|by rewrite IH].
    by apply (pieces_cons "" c s l). }
  rewrite Hx. destruct (Ascii.eqb c "x" || Ascii.eqb c "X") eqn:Hxx.
  { apply Hsep. unfold is_separator. by rewrite Hxx. }
  rewrite Hcomma. destruct (Ascii.eqb c ",") eqn:Hcm.
  { apply Hsep. unfold is_separator. by rewrite Hcm, orb_true_r. }
  assert (is_separator c = false) as Hc by (unfold is_separator; by rewrite Hxx, Hcm).
  rewrite IH. inversion Hl as [a Ha|a c' s' l' Ha Hc' Hs']; subst.
  - exists [String c s]. split; [|reflexivity]. constructor. cbn. by rewrite Hc.
  - exists (String c a :: l'). split; [|reflexivity].
    apply (pieces_cons (String c a) c' s' l'); [|done|done]. cbn. by rewrite Hc.
Qed.

Lemma nonempty_lower a : PyStr.nonempty (PyStr.lower a) = PyStr.nonempty a.
Proof. by destruct a. Qed.

Lemma filter_nonempty_lower l :
  List.filter PyStr.nonempty (PyStr.lower <$> l)
  = PyStr.lower <$> List.filter PyStr.nonempty l.
Proof.
  induction l as [|a l IH]; [done|]. csimpl. rewrite nonempty_lower, IH.
  by destruct (PyStr.nonempty a).
Qed.

Lemma pieces_none s l :
  pieces s l → List.filter PyStr.nonempty l = [] → all_separators s = true.
Proof.
  induction 1 as [a Ha|a c s l Ha Hc Hs IH]; cbn [List.filter].
  - by destruct a.
  - destruct a; [|done]. intros H.
    change (is_separator c && all_separators s = true). by rewrite Hc, IH.
Qed.

Lemma pieces_one s l b :
  pieces s l → List.filter PyStr.nonempty l = [b] →
  ∃ pre post, s = pre +:+ b +:+ post
              ∧ all_separators pre = true ∧ all_separators post = true.
Proof.
  induction 1 as [a Ha|a c s l Ha Hc Hs IH]; cbn [List.filter].
  - destruct a; [done|]. intros [= <-]. exists "", "". by rewrite append_nil_r.
  - destruct a as [|x a]; cbn [PyStr.nonempty String.eqb negb].
    + intros H. destruct (IH H) as (pre & post & -> & Hpre & Hpost).
      exists (String c pre), post. split; [done|]. split; [|done]. cbn. by rewrite Hc.
    + intros [= <- H]. exists "", (String c s). split; [done|]. split; [done|].
      cbn. by rewrite Hc, (pieces_none _ _ Hs H).
Qed.

Lemma pieces_two s l a b :
  pieces s l → List.filter PyStr.nonempty l = [a; b] →
  ∃ pre sep post, s = pre +:+ a +:+ sep +:+ b +:+ post
                  ∧ all_separators pre = true ∧ all_separators sep = true
                  ∧ all_separators post = true ∧ sep ≠ "".
Proof.
  induction 1 as [a0 Ha|a0 c s l Ha Hc Hs IH]; cbn [List.filter].
  - by destruct a0.
  - destruct a0 as [|x a0]; cbn [PyStr.nonempty String.eqb negb].
    + intros H. destruct (IH H) as (pre & sep & post & -> & Hpre & Hsep & Hpost & Hne).
      exists (String c pre), sep, post. split; [done|].
      split; [cbn; by rewrite Hc|done].
    + intros [= <- H]. destruct (pieces_one _ _ _ Hs H) as (pre & post & -> & Hpre & Hpost).
      exists "", (String c pre), post. split; [done|]. split; [done|].
      split; [cbn; by rewrite Hc|done].
Qed.

Lemma parse_thumbnail_size_two_integers s w h :
  s ≠ "" → parse_thumbnail_size (Some s) = Ok (w, h) → two_integers s w h.
Proof.
  intros Hs. unfold parse_thumbnail_size. destruct s as [|c s]; [done|].
  destruct (split_normalized (String c s)) as (l & Hl & ->).
  rewrite filter_nonempty_lower.
  destruct (List.filter PyStr.nonempty l) as [|a [|b [|]]] eqn:E; try done.
  csimpl. rewrite !int_lower.
  destruct (PyStr.int a) as [w'|] eqn:Ea; [|done].
  destruct (PyStr.int b) as [h'|] eqn:Eb; [|done]. intros [= <- <-].
  destruct (pieces_two _ _ _ _ Hl E) as (pre & sep & post & Heq & ? & ? & ? & ?).
  by exists pre, a, sep, b, post.
Qed.

Lemma parse_thumbnail_size_raises_value_error raw e :
  parse_thumbnail_size raw = Raise e → ∃ msg, e = ValueError msg.
Proof.
  unfold parse_thumbnail_size. repeat case_match; try done; intros [= <-]; by eexists.
Qed.

(** C8, as the code has it. An unset or empty value gives the default
    (256, 256); "512x512" gives (512, 512); "bad" raises the
    configuration error; every accepted text is made of two integers with
    "x", "X" or "," between them, so every other non-empty text raises a
    [ValueError]; the integers are whatever [int] reads, zero and negative
    values included, and what [int] does not read raises, as does a field
    starting with the separator U+001C, which [str.strip] would drop and
    [int] does not; and a malformed value makes [load_config] and the
    whole run raise before anything is printed, queried or scanned. *)
Theorem thumbnail_size_parsing :
  parse_thumbnail_size None = Ok (256, 256)%Z
  ∧ parse_thumbnail_size (Some "") = Ok (256, 256)%Z
  ∧ parse_thumbnail_size (Some "512x512") = Ok (512, 512)%Z
  ∧ parse_thumbnail_size (Some "bad")
    = Raise (ValueError "Thumbnail size must look like 256x256 or 256,256")
  ∧ parse_thumbnail_size (Some "0x-5") = Ok (0, -5)%Z
  ∧ parse_thumbnail_size (Some (String "028" "7x8"))
    = Raise (ValueError "Thumbnail size values must be integers")
  ∧ (∀ s w h, s ≠ "" → parse_thumbnail_size (Some s) = Ok (w, h) → two_integers s w h)
  ∧ (∀ s, s ≠ "" → (¬ ∃ w h, two_integers s w h) →
          ∃ msg, parse_thumbnail_size (Some s) = Raise (ValueError msg))
  ∧ (∀ Image (load_images : LoadImages Image) w env args g e,
       parse_thumbnail_size
         (por (arg_thumbnail_size args) (getenv env "LANDLENS_THUMBNAIL_SIZE"))
       = Raise e →
       (∃ msg, load_config args env = Raise (ValueError msg))
       ∧ let out := import_images load_images w env args g in
         trace out = []
         ∧ (∃ msg, result out = Raise (ValueError msg))
         ∧ globals out = g).
Proof.
  do 6 (split; [reflexivity|]).
  split; [apply parse_thumbnail_size_two_integers|]. split.
  - intros s Hs Hnot. destruct (parse_thumbnail_size (Some s)) as [[w h]|e] eqn:E.
    + destruct Hnot. exists w, h. by apply parse_thumbnail_size_two_integers.
    + apply parse_thumbnail_size_raises_value_error in E as [msg ->]. by exists msg.
  - intros Image load_images w env args g e Hparse.
    assert (∃ msg, load_config args env = Raise (ValueError msg)) as [msg Hcfg].
    { unfold load_config. destruct (negb _); [by eexists|]. rewrite Hparse.
      apply parse_thumbnail_size_raises_value_error in Hparse as [msg ->]. by exists msg. }
    split; [by exists msg|]. cbn zeta. unfold import_images.
    destruct (negb _); [by repeat split; try eexists|].
    rewrite Hcfg. rewrite (bind_raise _ _ _ (ValueError msg)) by done.
    cbn [trace result globals lift]. repeat split; by try eexists.
Qed.

(** * Concrete runs of the properties *)

Lemma scenario_one_row_nothing_dropped_witness :
  (filtered_walk ∅ (os_walk Scenario.store) keep_all Scenario.root).*1.*1
    = [["data"]; ["data"; "a"]]
  ∧ scanned_files ∅ Scenario.store Scenario.root = ["/data/a/photo1.jpg"]
  ∧ ∃ t, result Scenario.build = Ok (t, 0%Z)
         ∧ getitem t "image_url" = Ok ["/data/a/photo1.jpg"]
         ∧ df_index t = [0]
         ∧ len t = 1.
Proof.
  apply (scenario_one_row_nothing_dropped Scenario.extract Scenario.other_columns
           true (256, 256)%Z Scenario.store "/data/a/photo1.jpg" ("Make", "camera") []
           ["/data/a/photo1.jpg"; "POINT (0 0)"; "camera"]);
    [reflexivity | reflexivity | reflexivity | reflexivity | by_compute].
Defined.

(** C1 as stated fails: in the scenario the dropped count is 0, not 1. *)
Lemma scenario_dropped_count_is_zero :
  result Scenario.build = Ok (Run.table, 0%Z)
  ∧ ¬ ∃ t, result Scenario.build = Ok (t, 1%Z).
Proof.
  assert (result Scenario.build = Ok (Run.table, 0%Z)) as H by by vm_compute.
  split; [done|]. rewrite H. by intros [t [= _]].
Qed.

Lemma skipped_directories_contribute_no_rows_witness :
  (∀ item, item ∈ filtered_walk Unreadable.skip_dirs (os_walk Unreadable.store)
                    keep_all Unreadable.root →
           ¬ ["data"; "old"] `prefix_of` item.1.1)
  ∧ (str_of_path ["data"; "old"; "seen.jpg"]
       ∉ scanned_files Unreadable.skip_dirs Unreadable.store Unreadable.root).
Proof.
  pose proof (proj2 (skipped_directories_contribute_no_rows Scenario.extract
                       Scenario.other_columns Unreadable.root true (256, 256)%Z
                       Unreadable.skip_dirs)
                Unreadable.store Unreadable.tree ["data"; "old"]
                ["data"; "old"; "seen.jpg"]) as H.
  destruct H as (H1 & H2 & _).
  - reflexivity.
  - reflexivity.
  - by_compute.
  - intros [[k Hk] _]. discriminate Hk.
  - by exists ["seen.jpg"].
  - discriminate.
  - by_compute.
  - split; [exact H1 | exact H2].
Defined.

(** C2 as stated fails: with [/data] in the skip set and [/data/sub] as
    the scan root, [/data/sub/x.jpg], which lies below [/data], is
    imported. *)
Lemma file_below_skipped_ancestor_is_imported :
  ["data"] ∈ AncestorSkipped.skip_dirs
  ∧ ["data"] `prefix_of` ["data"; "sub"; "x.jpg"]
  ∧ ["data"] ≠ ["data"; "sub"; "x.jpg"]
  ∧ ∃ t d urls, result AncestorSkipped.build = Ok (t, d)
                ∧ getitem t "image_url" = Ok urls
                ∧ str_of_path ["data"; "sub"; "x.jpg"] ∈ urls.
Proof.
  split; [by_compute|]. split; [by exists ["sub"; "x.jpg"]|]. split; [done|].
  eexists _, _, _. split; [by vm_compute|]. split; [by vm_compute|]. left.
Qed.

Lemma disallowed_extension_never_in_table_witness :
  ∃ urls, getitem Run.table "image_url" = Ok urls
          ∧ (∀ url, url ∈ urls → is_jpeg url = true)
          ∧ (∀ file, is_jpeg file = false → file ∉ urls).
Proof.
  apply (disallowed_extension_never_in_table Scenario.load_images Scenario.root true
           (256, 256)%Z ∅ Scenario.store Run.table 0%Z).
  by vm_compute.
Defined.


Lemma empty_table_fails_before_alignment_witness :
  result (build_geoimageframe Scenario.load_images ["data"] true (256, 256)%Z ∅
            Run.empty_store)
  = Raise (ValueError ("No JPEG images found in " +:+ str_of_path ["data"]))
  ∧ result (import_images Scenario.load_images
              (Run.world Run.empty_tree ["image_url"; "name"; "geometry"])
              Run.env Run.args Run.empty_store)
    = Raise (ValueError "No JPEG images found in /data").
Proof.
  split.
  - apply (proj1 (empty_table_fails_before_alignment Scenario.load_images)
             ["data"] true (256, 256)%Z ∅ Run.empty_store
             (frame_of_rows Scenario.other_columns []) []).
    + by vm_compute.
    + by vm_compute.
    + constructor.
  - apply (proj2 (empty_table_fails_before_alignment Scenario.load_images)
             (Run.world Run.empty_tree ["image_url"; "name"; "geometry"])
             Run.env Run.args Run.empty_store Run.config ∅
             (ValueError "No JPEG images found in /data")).
    + by eexists.
    + by vm_compute.
    + reflexivity.
    + by vm_compute.
Defined.

Lemma missing_required_columns_is_fatal_witness :
  align_columns_to_table (Run.db ["image_url"; "name"]) "images" None Run.table
    Scenario.store
  = {| trace := [EvInspect "images" None];
       result := Raise (ValueError
                          ("Target table '" +:+ "images"
                           +:+ "' is missing required columns: "
                           +:+ PyStr.join ", " (missing_required ["image_url"; "name"])));
       globals := Scenario.store |}
  ∧ missing_required ["image_url"; "name"] = ["geometry"]
  ∧ Forall (λ ev, match ev with EvUpsert _ _ _ => False | _ => True end)
      (trace (import_images Scenario.load_images
                (Run.world Scenario.tree ["image_url"; "name"])
                Run.env Run.args Scenario.store)).
Proof.
  pose proof (proj1 (missing_required_columns_is_fatal (Image:=string))
                (Run.db ["image_url"; "name"]) "images" None Run.table Scenario.store
                "geometry") as H1.
  pose proof (proj2 (missing_required_columns_is_fatal (Image:=string))
                Scenario.load_images (Run.world Scenario.tree ["image_url"; "name"])
                Run.env Run.args Scenario.store Run.config "geometry") as H2.
  destruct H1 as (Ha & _ & _ & Hb); [by_compute | by_compute |].
  destruct H2 as (_ & Hc); [by vm_compute | by_compute | by_compute |].
  split; [exact Ha|]. split; [|exact Hc]. apply Hb; by_compute.
Defined.

Lemma aligner_projects_to_shared_columns_witness :
  ∃ t, result (align_columns_to_table (Run.db ["geometry"; "name"; "image_url"])
                 "images" None Run.table Scenario.store) = Ok t
       ∧ columns t = filter (λ col, col ∈ ["geometry"; "name"; "image_url"])
                            (columns Run.table).
Proof.
  destruct (aligner_projects_to_shared_columns
              (Run.db ["geometry"; "name"; "image_url"]) "images" None Run.table
              Scenario.store) as (t & Ht & _ & _ & _ & Hcols & _).
  - intros c Hc.
    repeat (apply elem_of_cons in Hc as [->|Hc]; [by_compute|]).
    by apply elem_of_nil in Hc.
  - exists t. split; [exact Ht|]. apply Hcols. by_compute.
Defined.

Lemma thumbnail_size_parsing_witness :
  two_integers "512x512" 512 512
  ∧ trace (import_images Scenario.load_images
             (Run.world Scenario.tree ["image_url"; "name"; "geometry"])
             Run.env Run.args_bad_size Scenario.store) = [].
Proof.
  destruct thumbnail_size_parsing as (_ & _ & _ & _ & _ & _ & H1 & _ & H2). split.
  - apply H1; [discriminate | reflexivity].
  - destruct (H2 string Scenario.load_images
                (Run.world Scenario.tree ["image_url"; "name"; "geometry"])
                Run.env Run.args_bad_size Scenario.store
                (ValueError "Thumbnail size must look like 256x256 or 256,256"))
      as (_ & Ht & _); [by vm_compute | exact Ht].
Defined.

(** C8 as stated fails: a size that is not positive is accepted. *)
Lemma thumbnail_size_accepts_non_positive :
  parse_thumbnail_size (Some "0x-5") = Ok (0, -5)%Z ∧ ¬ (0 < 0 ∧ 0 < -5)%Z.
Proof. split; [reflexivity | lia]. Qed.

(** C9 on a class that declares [get_exif_data] with [staticmethod], as
    the script's own replacement does: after the call the class holds the
    bare function. *)
Lemma load_images_filtered_unwraps_staticmethod_witness :
  get_exif_data_attr Scenario.store = StaticMethod Scenario.exif_any
  ∧ get_exif_data_attr
      (globals (load_images_filtered Scenario.load_images Scenario.root true
                  (256, 256)%Z ∅ Scenario.store))
    = PlainFunction Scenario.exif_any
  ∧ globals (load_images_filtered Scenario.load_images Scenario.root true
               (256, 256)%Z ∅ Scenario.store)
    ≠ Scenario.store.
Proof.
  split; [reflexivity|].
  apply (proj2 (proj2 (proj2 (proj2 (proj2 (proj2
           (load_images_filtered_unwraps_staticmethod Scenario.load_images
              Scenario.root true (256, 256)%Z ∅ Scenario.store))))))).
  reflexivity.
Defined.

Lemma parse_bool_default_only_for_none_witness :
  create_thumbnails Run.config_empty_flag = false.
Proof.
  apply (proj2 (proj2 (proj2 (proj2 parse_bool_default_only_for_none)))
           Run.args Run.env_empty_flag Run.config_empty_flag); by vm_compute.
Defined.

(** * Further properties of the script *)

(** ** Flags and settings *)

Lemma strip_lower s : PyStr.strip (PyStr.lower s) = PyStr.lower (PyStr.strip s).
Proof. unfold PyStr.strip. by rewrite rstrip_lower, lstrip_lower. Qed.

Lemma lstrip_space pre s : all_space pre = true → PyStr.lstrip (pre +:+ s) = PyStr.lstrip s.
Proof.
  induction pre as [|c pre IH]; [done|]. intros [Hc Hpre]%andb_prop.
  change (String c pre +:+ s) with (String c (pre +:+ s)). cbn [PyStr.lstrip].
  rewrite Hc. by apply IH.
Qed.

Lemma rstrip_space post : all_space post = true → PyStr.rstrip post = "".
Proof.
  induction post as [|c post IH]; [done|]. intros [Hc Hpost]%andb_prop.
  cbn [PyStr.rstrip]. by rewrite IH, Hc.
Qed.

Lemma rstrip_append a b :
  PyStr.rstrip (a +:+ b)
  = match PyStr.rstrip b with "" => PyStr.rstrip a | r => a +:+ r end.
Proof.
  induction a as [|c a IH].
  { change ("" +:+ b) with b. by destruct (PyStr.rstrip b). }
  change (String c a +:+ b) with (String c (a +:+ b)). cbn [PyStr.rstrip]. rewrite IH.
  destruct (PyStr.rstrip b) as [|x r]; [done|].
  change (a +:+ String x r) with (append a (String x r)).
  destruct a; reflexivity.
Qed.

Lemma strip_space pre s post :
  all_space pre = true → all_space post = true →
  PyStr.strip (pre +:+ s +:+ post) = PyStr.strip s.
Proof.
  intros Hpre Hpost. unfold PyStr.strip.
  rewrite (rstrip_append pre), (rstrip_append s), (rstrip_space post Hpost).
  destruct (PyStr.rstrip s) as [|x r] eqn:E.
  - by rewrite (rstrip_space pre Hpre).
  - by rewrite lstrip_space.
Qed.

(** X1. [parse_bool] looks at a set value through [strip().lower()] only:
    white space around the text and the case of its letters never change
    the answer. *)
Theorem parse_bool_ignores_case_and_space pre v v' post d :
  all_space pre = true → all_space post = true →
  PyStr.lower v = PyStr.lower v' →
  parse_bool (Some (pre +:+ v +:+ post)) d = parse_bool (Some v') d.
Proof.
  intros Hpre Hpost Hcase. unfold parse_bool.
  by rewrite strip_space, <- !strip_lower, Hcase.
Qed.

Lemma parse_bool_ignores_case_and_space_witness :
  parse_bool (Some (" " +:+ "YeS" +:+ "  ")) false = parse_bool (Some "yes") false.
Proof.
  apply parse_bool_ignores_case_and_space; reflexivity.
Defined.

Lemma truthy_Some o : truthy o = true → ∃ v, o = Some v ∧ v ≠ "".
Proof.
  destruct o as [v|]; [|done]. intros H. exists v. split; [done|].
  intros ->. done.
Qed.

Lemma setting_flag flag var : truthy flag = true → setting flag var = flag.
Proof. unfold setting, por. by intros ->. Qed.

Lemma por_unset flag var : truthy flag = false → por flag var = var.
Proof. unfold por. by intros ->. Qed.

Lemma conflict_valid (c : option string) :
  bool_decide (c ∈ ({[Some "update"; Some "nothing"]} : gset (option string))) = true
  ↔ c = Some "update" ∨ c = Some "nothing".
Proof. rewrite bool_decide_eq_true, elem_of_union, !elem_of_singleton. tauto. Qed.

(** X2. Whatever [load_config] returns has been validated: the database
    URL and the table name are not empty and come from the flag or, failing
    that, the variable; the conflict policy is "update" or "nothing"; the
    schema is absent rather than empty; thumbnails are off whenever
    [--no-thumbnails] was given, and already-imported directories are
    skipped whenever [--skip-existing-dirs] was. *)
Theorem load_config_validated args env cfg :
  load_config args env = Ok cfg →
  database_url cfg ≠ ""
  ∧ Some (database_url cfg)
    = setting (arg_database_url args) (getenv env "LANDLENS_DATABASE_URL")
  ∧ table_name cfg ≠ ""
  ∧ Some (table_name cfg) = setting (arg_table args) (getenv env "LANDLENS_TABLE")
  ∧ (conflict cfg = "update" ∨ conflict cfg = "nothing")
  ∧ table_schema cfg ≠ Some ""
  ∧ (arg_no_thumbnails args = true → create_thumbnails cfg = false)
  ∧ (arg_skip_existing_dirs args = true → skip_existing_dirs cfg = true).
Proof.
  unfold load_config, setting.
  destruct (bool_decide _) eqn:Hc; cbn [negb]; [|done]. apply conflict_valid in Hc.
  destruct (parse_thumbnail_size _) as [size|e]; [|done].
  destruct (truthy (por (arg_database_url args) _)) eqn:Hdb;
    destruct (truthy (por (arg_table args) _)) eqn:Htb; cbn [app]; try done.
  apply truthy_Some in Hdb as (url & Hurl & Hurl0).
  apply truthy_Some in Htb as (tb & Htb & Htb0).
  intros [= <-]. cbn [database_url table_name conflict table_schema create_thumbnails
                       skip_existing_dirs].
  rewrite Hurl, Htb. cbn [default from_option]. repeat split; try done.
  - destruct Hc as [-> | ->]; [by left | by right].
  - unfold por at 1. destruct (truthy (por (arg_schema args) _)) eqn:Hs; [|done].
    apply truthy_Some in Hs as (sc & -> & Hsc). by intros [= ->].
  - intros ->. by rewrite andb_false_r.
  - intros ->. by rewrite orb_true_r.
Qed.

Lemma load_config_validated_witness :
  database_url Run.config ≠ "" ∧ table_name Run.config ≠ "".
Proof.
  destruct (load_config_validated Run.args Run.env Run.config) as (H1 & _ & H2 & _);
    [by vm_compute | by split].
Defined.

(** X3. A valued flag that is given, and not empty, hides its variable:
    with [--database-url], [--table], [--schema], [--conflict] or
    [--thumbnail-size] on the command line, two environments that differ
    only in the matching variable load the same configuration, or fail
    alike. *)
Theorem flag_hides_its_variable args (env env' : Env) key :
  (∀ k, k ≠ key → env !! k = env' !! k) →
  (key = "LANDLENS_DATABASE_URL" ∧ truthy (arg_database_url args) = true)
  ∨ (key = "LANDLENS_TABLE" ∧ truthy (arg_table args) = true)
  ∨ (key = "LANDLENS_TABLE_SCHEMA" ∧ truthy (arg_schema args) = true)
  ∨ (key = "LANDLENS_ON_CONFLICT" ∧ truthy (arg_conflict args) = true)
  ∨ (key = "LANDLENS_THUMBNAIL_SIZE" ∧ truthy (arg_thumbnail_size args) = true) →
  load_config args env = load_config args env'.
Proof.
  intros Hsame Hflag. unfold load_config, getenv.
  assert (∀ k flag, k ≠ key ∨ truthy flag = true →
                    por flag (env !! k) = por flag (env' !! k)) as Hpor.
  { intros k flag [Hne|Hflag']; [by rewrite (Hsame k Hne)|].
    unfold por. by rewrite Hflag'. }
  assert (∀ flag, "LANDLENS_ON_CONFLICT" ≠ key ∨ truthy flag = true →
            por flag (Some (default "update" (env !! "LANDLENS_ON_CONFLICT")))
            = por flag (Some (default "update" (env' !! "LANDLENS_ON_CONFLICT"))))
    as Hconflict.
  { intros flag [Hne|Hflag']; [by rewrite (Hsame _ Hne)|].
    unfold por. by rewrite Hflag'. }
  destruct Hflag as [[-> Hf]|[[-> Hf]|[[-> Hf]|[[-> Hf]|[-> Hf]]]]];
    rewrite (Hpor "LANDLENS_DATABASE_URL" (arg_database_url args)),
      (Hpor "LANDLENS_TABLE" (arg_table args)),
      (Hpor "LANDLENS_TABLE_SCHEMA" (arg_schema args)),
      (Hpor "LANDLENS_THUMBNAIL_SIZE" (arg_thumbnail_size args)),
      (Hconflict (arg_conflict args)),
      (Hsame "LANDLENS_CREATE_THUMBNAILS"),
      (Hsame "LANDLENS_SKIP_EXISTING_DIRS");
    first [done | by left | by right].
Qed.

Lemma flag_hides_its_variable_witness :
  load_config Run.args_bad_size (<["LANDLENS_THUMBNAIL_SIZE" := "64x64"]> Run.env)
  = load_config Run.args_bad_size Run.env.
Proof.
  apply (flag_hides_its_variable _ _ _ "LANDLENS_THUMBNAIL_SIZE").
  - intros k Hk. by apply lookup_insert_ne.
  - do 4 right. by split.
Defined.

(** X4. [load_config] accepts exactly when the conflict policy is one of
    the two allowed, the thumbnail size parses, and the database URL and
    table name are both set and not empty; and once policy and size are
    fine, one error names every missing setting, URL first. *)
Theorem load_config_names_every_missing_setting args env :
  let db := setting (arg_database_url args) (getenv env "LANDLENS_DATABASE_URL") in
  let tb := setting (arg_table args) (getenv env "LANDLENS_TABLE") in
  let cf := setting (arg_conflict args)
              (Some (default "update" (getenv env "LANDLENS_ON_CONFLICT"))) in
  let sz := parse_thumbnail_size
              (setting (arg_thumbnail_size args) (getenv env "LANDLENS_THUMBNAIL_SIZE")) in
  ((∃ cfg, load_config args env = Ok cfg)
   ↔ (cf = Some "update" ∨ cf = Some "nothing") ∧ (∃ size, sz = Ok size)
     ∧ truthy db = true ∧ truthy tb = true)
  ∧ ((cf = Some "update" ∨ cf = Some "nothing") → (∃ size, sz = Ok size) →
     match truthy db, truthy tb with
     | true, true => ∃ cfg, load_config args env = Ok cfg
     | false, true =>
         load_config args env
         = Raise (ValueError
                    "Missing required environment variables: LANDLENS_DATABASE_URL")
     | true, false =>
         load_config args env
         = Raise (ValueError "Missing required environment variables: LANDLENS_TABLE")
     | false, false =>
         load_config args env
         = Raise (ValueError
                    "Missing required environment variables: LANDLENS_DATABASE_URL, LANDLENS_TABLE")
     end).
Proof.
  cbn zeta. unfold load_config, setting.
  destruct (bool_decide _) eqn:Hc; cbn [negb].
  - apply conflict_valid in Hc.
    destruct (parse_thumbnail_size _) as [size|e].
    + destruct (truthy (por (arg_database_url args) _));
        destruct (truthy (por (arg_table args) _)); cbn [app]; split;
        first [ by intros _ _; eexists
              | by intros _ _
              | split; [by intros [? ?] | by intros (_ & _ & ? & ?)]
              | split; [intros _; by eauto | by intros _; eexists] ].
    + split; [split; [by intros [? ?] | by intros (_ & [? ?] & _)]|].
      by intros _ [? ?].
  - assert (¬ (por (arg_conflict args)
                 (Some (default "update" (getenv env "LANDLENS_ON_CONFLICT")))
               = Some "update"
               ∨ por (arg_conflict args)
                   (Some (default "update" (getenv env "LANDLENS_ON_CONFLICT")))
                 = Some "nothing")) as Hn.
    { intros H. apply conflict_valid in H. congruence. }
    split; [split; [by intros [? ?] | by intros (? & _)] | done].
Qed.

Lemma load_config_names_every_missing_setting_witness :
  load_config Run.args ∅
  = Raise (ValueError
             "Missing required environment variables: LANDLENS_DATABASE_URL, LANDLENS_TABLE").
Proof.
  exact (proj2 (load_config_names_every_missing_setting Run.args ∅)
           (or_introl eq_refl) (ex_intro _ (256, 256)%Z eq_refl)).
Defined.

(** X5. Without a [--conflict] flag the policy is "update" when
    [LANDLENS_ON_CONFLICT] is unset, and otherwise the variable's text as
    it stands: any text other than "update" and "nothing", the empty text
    included, makes [load_config] raise the conflict error, whatever the
    other settings are. *)
Theorem conflict_policy_from_environment args env :
  truthy (arg_conflict args) = false →
  (getenv env "LANDLENS_ON_CONFLICT" = None →
   ∀ cfg, load_config args env = Ok cfg → conflict cfg = "update")
  ∧ (∀ v cfg, getenv env "LANDLENS_ON_CONFLICT" = Some v →
              load_config args env = Ok cfg → conflict cfg = v)
  ∧ (∀ v, getenv env "LANDLENS_ON_CONFLICT" = Some v → v ≠ "update" → v ≠ "nothing" →
          load_config args env
          = Raise (ValueError "LANDLENS_ON_CONFLICT must be 'update' or 'nothing'")).
Proof.
  intros Hflag.
  assert (∀ cfg, load_config args env = Ok cfg →
                 Some (conflict cfg)
                 = Some (default "update" (getenv env "LANDLENS_ON_CONFLICT"))) as Hok.
  { intros cfg. unfold load_config. rewrite (por_unset (arg_conflict args)) by done.
    destruct (bool_decide _); cbn [negb]; [|done].
    destruct (parse_thumbnail_size _); [|done].
    destruct (truthy (por (arg_database_url args) _));
      destruct (truthy (por (arg_table args) _)); cbn [app]; try done.
    by intros [= <-]. }
  split; [|split].
  - intros Hunset cfg Hcfg. apply Hok in Hcfg. rewrite Hunset in Hcfg. by injection Hcfg.
  - intros v cfg Hset Hcfg. apply Hok in Hcfg. rewrite Hset in Hcfg. by injection Hcfg.
  - intros v Hset Hu Hn. unfold load_config.
    rewrite (por_unset (arg_conflict args)), Hset by done.
    cbn [default from_option].
    destruct (bool_decide _) eqn:Hc; cbn [negb]; [|done].
    apply conflict_valid in Hc as [[= ->]|[= ->]]; done.
Qed.

Lemma conflict_policy_from_environment_witness :
  load_config Run.args (<["LANDLENS_ON_CONFLICT" := ""]> Run.env)
  = Raise (ValueError "LANDLENS_ON_CONFLICT must be 'update' or 'nothing'").
Proof.
  apply (proj2 (proj2 (conflict_policy_from_environment Run.args
                         (<["LANDLENS_ON_CONFLICT" := ""]> Run.env) eq_refl)) "");
    [by vm_compute | done | done].
Defined.

(** ** Thumbnail sizes, the other way round *)

Lemma separator_class c :
  is_separator c = true →
  PyStr.is_space c = false ∧ PyStr.digit_val c = None
  ∧ Ascii.eqb c "_" = false ∧ Ascii.eqb c "+" = false ∧ Ascii.eqb c "-" = false.
Proof.
  unfold is_separator.
  destruct (Ascii.eqb_spec c "x") as [->|_]; [done|].
  destruct (Ascii.eqb_spec c "X") as [->|_]; [done|].
  destruct (Ascii.eqb_spec c ",") as [->|_]; done.
Qed.

Lemma normalized_char c :
  let c' := if Ascii.eqb (PyStr.lower_char c) "x" then ","%char else PyStr.lower_char c in
  if is_separator c then c' = ","%char
  else c' = PyStr.lower_char c ∧ Ascii.eqb c' "," = false.
Proof.
  cbn zeta. destruct (lower_char_class c) as (_ & _ & _ & _ & _ & Hx & Hcomma).
  unfold is_separator. rewrite Hx.
  destruct (Ascii.eqb c "x" || Ascii.eqb c "X"); [done|]. cbn [orb].
  destruct (Ascii.eqb c ","); [|by rewrite Hcomma].
  by apply Ascii.eqb_eq in Hcomma.
Qed.

Lemma split_piece a c v :
  no_separator a = true → is_separator c = true →
  PyStr.split "," (PyStr.replace_char "x" "," (PyStr.lower (a +:+ String c v)))
  = PyStr.lower a
    :: PyStr.split "," (PyStr.replace_char "x" "," (PyStr.lower v)).
Proof.
  intros Ha Hc. induction a as [|x a IH].
  - change ("" +:+ String c v) with (String c v).
    cbn [PyStr.lower PyStr.replace_char PyStr.split].
    pose proof (normalized_char c) as H. cbn zeta in H. rewrite Hc in H. by rewrite H.
  - apply andb_prop in Ha as [Hx Ha]. apply negb_true_iff in Hx.
    change (String x a +:+ String c v) with (String x (a +:+ String c v)).
    cbn [PyStr.lower PyStr.replace_char PyStr.split].
    pose proof (normalized_char x) as H. cbn zeta in H. rewrite Hx in H.
    destruct H as [-> ->]. by rewrite (IH Ha).
Qed.

Lemma split_whole a :
  no_separator a = true →
  PyStr.split "," (PyStr.replace_char "x" "," (PyStr.lower a)) = [PyStr.lower a].
Proof.
  induction a as [|x a IH]; [done|]. intros [Hx Ha]%andb_prop.
  apply negb_true_iff in Hx. cbn [PyStr.lower PyStr.replace_char PyStr.split].
  pose proof (normalized_char x) as H. cbn zeta in H. rewrite Hx in H.
  destruct H as [-> ->]. by rewrite (IH Ha).
Qed.

Lemma fields_skip u v : all_separators u = true → fields (u +:+ v) = fields v.
Proof.
  induction u as [|c u IH]; [done|]. intros [Hc Hu]%andb_prop.
  rewrite <- (IH Hu). unfold fields.
  change (String c u +:+ v) with ("" +:+ String c (u +:+ v)).
  by rewrite (split_piece "" c (u +:+ v)).
Qed.

Lemma fields_separators u : all_separators u = true → fields u = [].
Proof.
  intros Hu. rewrite <- (append_nil_r u). by rewrite fields_skip.
Qed.

Lemma fields_piece a c v :
  no_separator a = true → a ≠ "" → is_separator c = true →
  fields (a +:+ String c v) = PyStr.lower a :: fields v.
Proof.
  intros Ha Hne Hc. unfold fields. rewrite split_piece by done.
  cbn [List.filter]. rewrite nonempty_lower. by destruct a.
Qed.

Lemma fields_whole a : no_separator a = true → a ≠ "" → fields a = [PyStr.lower a].
Proof.
  intros Ha Hne. unfold fields. rewrite split_whole by done.
  cbn [List.filter]. rewrite nonempty_lower. by destruct a.
Qed.

Lemma int_digits_no_separator s acc b w :
  PyStr.int_digits s acc b = Some w → no_separator s = true.
Proof.
  revert acc b. induction s as [|c s IH]; intros acc b; [done|].
  cbn [PyStr.int_digits no_separator].
  destruct (is_separator c) eqn:Hc.
  - destruct (separator_class c Hc) as (_ & -> & -> & _). done.
  - destruct (PyStr.digit_val c); [apply IH|].
    destruct (Ascii.eqb c "_" && b); [apply IH | done].
Qed.

Lemma separator_not_int_space c : is_separator c = true → PyStr.is_int_space c = false.
Proof.
  unfold is_separator.
  destruct (Ascii.eqb_spec c "x") as [->|_]; [done|].
  destruct (Ascii.eqb_spec c "X") as [->|_]; [done|].
  destruct (Ascii.eqb_spec c ",") as [->|_]; done.
Qed.

Lemma int_lstrip_no_separator s :
  no_separator (PyStr.int_lstrip s) = true → no_separator s = true.
Proof.
  induction s as [|c s IH]; [done|]. cbn [PyStr.int_lstrip].
  destruct (PyStr.is_int_space c) eqn:Hs; [|done]. intros H. cbn [no_separator].
  rewrite (IH H), andb_true_r. apply negb_true_iff.
  destruct (is_separator c) eqn:Hc; [|done].
  pose proof (separator_not_int_space c Hc). congruence.
Qed.

Lemma int_rstrip_no_separator s :
  no_separator (PyStr.int_rstrip s) = true → no_separator s = true.
Proof.
  induction s as [|c s IH]; [done|]. cbn [PyStr.int_rstrip no_separator].
  destruct (PyStr.int_rstrip s) as [|x r].
  - rewrite (IH eq_refl), andb_true_r.
    destruct (PyStr.is_int_space c) eqn:Hs.
    + intros _. apply negb_true_iff.
      destruct (is_separator c) eqn:Hc; [|done].
      pose proof (separator_not_int_space c Hc). congruence.
    + cbn [no_separator]. by rewrite andb_true_r.
  - cbn [no_separator]. intros [-> H]%andb_prop. cbn [andb]. by apply IH.
Qed.

Lemma int_numeral_no_separator s w :
  PyStr.int_numeral s = Some w → no_separator s = true.
Proof.
  unfold PyStr.int_numeral. destruct (_ <=? _)%N; [|done].
  apply int_digits_no_separator.
Qed.

Lemma int_no_separator a w : PyStr.int a = Some w → no_separator a = true ∧ a ≠ "".
Proof.
  intros H. split; [|by intros ->].
  apply int_rstrip_no_separator, int_lstrip_no_separator.
  unfold PyStr.int in H.
  destruct (PyStr.int_lstrip (PyStr.int_rstrip a)) as [|c r]; [done|]. cbn [no_separator].
  destruct (Ascii.eqb_spec c "+") as [->|_].
  { by rewrite (int_numeral_no_separator _ _ H). }
  destruct (Ascii.eqb_spec c "-") as [->|_].
  { destruct (PyStr.int_numeral r) as [n|] eqn:E; [|done].
    by rewrite (int_numeral_no_separator _ _ E). }
  exact (int_numeral_no_separator _ _ H).
Qed.

Lemma append_empty a b : a +:+ b = "" → a = "" ∧ b = "".
Proof. by destruct a. Qed.

(** X6. Every text made of two integers with "x", "X" or "," between them
    (and possibly around them) is accepted by [parse_thumbnail_size], which
    returns exactly those two integers; so, for a non-empty text, being
    accepted and being of that form are the same thing. *)
Theorem thumbnail_size_accepts_two_integers s w h :
  two_integers s w h →
  parse_thumbnail_size (Some s) = Ok (w, h)
  ∧ (∀ w' h', parse_thumbnail_size (Some s) = Ok (w', h') ↔ two_integers s w' h').
Proof.
  assert (∀ s w h, two_integers s w h → parse_thumbnail_size (Some s) = Ok (w, h)) as Hacc.
  { clear. intros s w h (pre & a & sep & b & post & -> & Hpre & Hsep & Hpost & Hne & Ha & Hb).
    destruct (int_no_separator _ _ Ha) as [Hna Ha0].
    destruct (int_no_separator _ _ Hb) as [Hnb Hb0].
    assert (fields (pre +:+ a +:+ sep +:+ b +:+ post) = [PyStr.lower a; PyStr.lower b])
      as Hfields.
    { rewrite fields_skip by done. destruct sep as [|c sep]; [done|].
      apply andb_prop in Hsep as [Hc Hsep].
      change (String c sep +:+ b +:+ post) with (String c (sep +:+ b +:+ post)).
      rewrite fields_piece by done. f_equal. rewrite fields_skip by done.
      destruct post as [|c' post].
      - rewrite append_nil_r. by apply fields_whole.
      - apply andb_prop in Hpost as [Hc' Hpost].
        rewrite fields_piece by done. by rewrite fields_separators. }
    destruct (pre +:+ a +:+ sep +:+ b +:+ post) as [|c0 s0] eqn:Es.
    { apply append_empty in Es as [_ Es]. by apply append_empty in Es as [? _]. }
    unfold parse_thumbnail_size. fold (fields (String c0 s0)). rewrite Hfields.
    by rewrite !int_lower, Ha, Hb. }
  intros Htwo. split; [by apply Hacc|]. intros w' h'. split; [|apply Hacc].
  apply parse_thumbnail_size_two_integers.
  destruct Htwo as (pre & a & sep & b & post & -> & _ & _ & _ & _ & Ha & _).
  intros Es. apply append_empty in Es as [_ Es]. apply append_empty in Es as [-> _].
  done.
Qed.

Lemma thumbnail_size_accepts_two_integers_witness :
  parse_thumbnail_size (Some ("," +:+ " 6_4 " +:+ "Xx" +:+ "-048" +:+ "")) = Ok (64, -48)%Z.
Proof.
  refine (proj1 (thumbnail_size_accepts_two_integers _ 64 (-48) _)).
  exists ",", " 6_4 ", "Xx", "-048", "".
  do 4 (split; [reflexivity|]). split; [discriminate|]. split; reflexivity.
Defined.

(** ** The patched walk, completely *)

Lemma walk_tree_yield t on_yield :
  ∀ top item, item ∈ walk_tree t on_yield top →
    ∃ rest subdirs files,
      item = (top ++ rest, on_yield (top ++ rest) subdirs.*1, files)
      ∧ lookup_dir t rest = Some (Dir subdirs files).
Proof.
  induction t as [subdirs files IH] using Tree_nested_ind. intros top item.
  rewrite walk_tree_unfold. intros [->|Hin]%elem_of_cons.
  { exists [], subdirs, files. by rewrite app_nil_r. }
  apply list_elem_of_In, in_flat_map in Hin as (d & _ & Hin%list_elem_of_In).
  destruct (child_named d subdirs) as [sub|] eqn:E; [|by apply elem_of_nil in Hin].
  rewrite Forall_forall in IH.
  destruct (IH _ (child_named_elem_of _ _ _ E) _ _ Hin) as (rest & subs & fs' & -> & Hl).
  exists (d :: rest), subs, fs'. split.
  - by rewrite <- !app_assoc.
  - by rewrite lookup_dir_unfold, E.
Qed.

Lemma walk_tree_complete skip_set rest :
  ∀ t top subdirs files,
    lookup_dir t rest = Some (Dir subdirs files) →
    clear_between skip_set top (top ++ rest) →
    (top ++ rest, skip_pruner skip_set (top ++ rest) subdirs.*1, files)
      ∈ walk_tree t (skip_pruner skip_set) top.
Proof.
  induction rest as [|d rest IH]; intros [subs fs'] top subdirs files Hl Hclear.
  - injection Hl as -> ->. rewrite app_nil_r, walk_tree_unfold. left.
  - rewrite lookup_dir_unfold in Hl.
    destruct (child_named d subs) as [sub|] eqn:E; [|done].
    rewrite walk_tree_unfold. right.
    apply list_elem_of_In, in_flat_map. exists d. split.
    + apply list_elem_of_In, list_elem_of_filter.
      destruct (Hclear (top ++ [d])) as [Hskip Hlast].
      * by apply prefix_app_r.
      * exists rest. by rewrite <- app_assoc.
      * intros H. apply (f_equal length) in H. rewrite length_app in H. simpl in H. lia.
      * split; [split; [done|]|].
        -- intros ->. by rewrite last_snoc in Hlast.
        -- apply list_elem_of_fmap. exists (d, sub).
           split; [done | by apply child_named_elem_of].
    + rewrite E. apply list_elem_of_In.
      replace (top ++ d :: rest) with ((top ++ [d]) ++ rest) by by rewrite <- app_assoc.
      apply IH; [done|]. intros q Hq1 Hq2 Hne. rewrite <- app_assoc in Hq2.
      apply Hclear; [|done|].
      * etrans; [|done]. by apply prefix_app_r.
      * intros ->. destruct Hq1 as [k Hk]. apply (f_equal length) in Hk.
        rewrite !length_app in Hk. simpl in Hk. lia.
Qed.

Lemma filtered_walk_on_tree fs skip_set top :
  filtered_walk skip_set (os_walk_on fs) keep_all top
  = if bool_decide (top ∈ skip_set) then []
    else match lookup_dir fs top with
         | Some sub => jpeg_files_only <$> walk_tree sub (skip_pruner skip_set) top
         | None => []
         end.
Proof.
  unfold filtered_walk, os_walk_on. case_bool_decide; [done|].
  by destruct (lookup_dir fs top).
Qed.

(** X7. On a directory tree, the patched walk started at [top] yields a
    triple for a directory exactly when [top] is not in the skip set, the
    directory exists at or below [top], and neither it nor any directory on
    the way down to it is in the skip set or called [__MACOSX]; the triple
    then holds the sub-directory names that are not themselves pruned and
    the file names with an allowed extension, both in listing order. *)
Theorem patched_walk_yields_exactly fs skip_set top r dirnames filenames :
  (r, dirnames, filenames) ∈ filtered_walk skip_set (os_walk_on fs) keep_all top
  ↔ ((top ∉ skip_set)
     ∧ top `prefix_of` r
     ∧ clear_between skip_set top r
     ∧ ∃ subdirs files,
        lookup_dir fs r = Some (Dir subdirs files)
        ∧ dirnames = skip_pruner skip_set r subdirs.*1
        ∧ filenames = filter (λ f, is_jpeg f = true) files).
Proof.
  rewrite filtered_walk_on_tree. split.
  - case_bool_decide as Htop; [by intros ?%elem_of_nil|].
    destruct (lookup_dir fs top) as [sub|] eqn:E; [|by intros ?%elem_of_nil].
    intros ([[r' ds] files] & [= -> -> ->] & Hin)%list_elem_of_fmap.
    pose proof (walk_tree_clear _ _ _ _ Hin) as [Hpre Hclear].
    apply walk_tree_yield in Hin as (rest & subs & files' & [= -> -> ->] & Hl).
    split; [done|]. split; [done|]. split; [done|].
    exists subs, files'. by rewrite (lookup_dir_app _ _ _ _ E).
  - intros (Htop & [rest ->] & Hclear & subs & files & Hl & -> & ->).
    rewrite bool_decide_eq_false_2 by done.
    destruct (lookup_dir fs top) as [sub|] eqn:E.
    + rewrite (lookup_dir_app _ _ _ _ E) in Hl.
      apply list_elem_of_fmap. eexists (_, _, files). split; [done|].
      by apply walk_tree_complete.
    + assert (lookup_dir fs (top ++ rest) = None) as Hnone; [|congruence].
      clear -E. revert fs E. induction top as [|d top IH]; intros [subs fs'] E; [done|].
      rewrite <- app_comm_cons, lookup_dir_unfold. rewrite lookup_dir_unfold in E.
      destruct (child_named d subs); [by apply IH | done].
Qed.

Lemma patched_walk_yields_exactly_witness :
  (["data"; "a"], [], ["good.jpg"; "broken.jpg"])
    ∈ filtered_walk Unreadable.skip_dirs (os_walk_on Unreadable.tree) keep_all
        Unreadable.root.
Proof.
  apply patched_walk_yields_exactly.
  split; [by_compute|]. split; [by exists ["a"]|]. split.
  - intros q [k ->] [k' Hk'] Hne. rewrite <- app_assoc in Hk'.
    injection Hk' as Hk'. destruct k as [|x k]; [done|].
    injection Hk' as <- Hk'. destruct k; [|by destruct k].
    split; [by_compute | discriminate].
  - exists [], ["good.jpg"; "broken.jpg"]. by vm_compute.
Defined.

(** X8. Skipping more never scans more: with a larger skip set, every
    directory the patched walk still yields is also yielded with the
    smaller one, with the same file names, and with at least the same
    sub-directory names. *)
Theorem larger_skip_set_scans_less (fs : Tree) (skip_set skip_set' : gset Path)
    (top r : Path) (dirnames' filenames : list string) :
  skip_set ⊆ skip_set' →
  (r, dirnames', filenames) ∈ filtered_walk skip_set' (os_walk_on fs) keep_all top →
  ∃ dirnames,
    (r, dirnames, filenames) ∈ filtered_walk skip_set (os_walk_on fs) keep_all top
    ∧ dirnames' ⊆ dirnames.
Proof.
  intros Hsub. rewrite !filtered_walk_on_tree.
  case_bool_decide as Htop'; [by intros ?%elem_of_nil|].
  rewrite bool_decide_eq_false_2 by (intros H; by apply Htop', Hsub).
  destruct (lookup_dir fs top) as [sub|] eqn:E; [|by intros ?%elem_of_nil].
  intros ([[r' ds] files] & [= -> -> ->] & Hin)%list_elem_of_fmap.
  pose proof (walk_tree_clear _ _ _ _ Hin) as [_ Hclear].
  apply walk_tree_yield in Hin as (rest' & subs & files' & [= -> -> ->] & Hl).
  exists (skip_pruner skip_set (top ++ rest') subs.*1). split.
  - apply list_elem_of_fmap. eexists (_, _, files'). split; [done|].
    apply walk_tree_complete; [done|].
    intros q Hq1 Hq2 Hne. destruct (Hclear q Hq1 Hq2 Hne) as [Hq Hlast].
    split; [|done]. intros H. by apply Hq, Hsub.
  - intros d [[Hd Hmac] Hin]%list_elem_of_filter.
    apply list_elem_of_filter. split; [|done]. split; [|done].
    intros H. by apply Hd, Hsub.
Qed.

Lemma larger_skip_set_scans_less_witness :
  ∃ dirnames,
    (["data"; "a"], dirnames, ["good.jpg"; "broken.jpg"])
      ∈ filtered_walk ∅ (os_walk_on Unreadable.tree) keep_all Unreadable.root
    ∧ [] ⊆ dirnames.
Proof.
  apply (larger_skip_set_scans_less Unreadable.tree ∅ Unreadable.skip_dirs).
  - apply empty_subseteq.
  - by_compute.
Defined.

Lemma filter_keeps_all {A} (P : A → Prop) `{!∀ x, Decision (P x)} (l : list A) :
  (∀ x, x ∈ l → P x) → filter P l = l.
Proof.
  induction l as [|x l IH]; intros Hall; [done|].
  rewrite filter_cons_True by (apply Hall; left).
  f_equal. apply IH. intros y Hy. apply Hall. by right.
Qed.

Lemma walk_tree_keeps_all t :
  no_macosx t = true →
  ∀ top, walk_tree t (skip_pruner ∅) top = walk_tree t keep_all top.
Proof.
  induction t as [subdirs files IH] using Tree_nested_ind. intros Hok top.
  cbn [no_macosx] in Hok. rewrite forallb_forall in Hok.
  rewrite !walk_tree_unfold.
  assert (skip_pruner ∅ top subdirs.*1 = subdirs.*1) as ->.
  { unfold skip_pruner. apply filter_keeps_all. intros d Hd. split; [set_solver|].
    apply list_elem_of_fmap in Hd as ([n sub] & -> & Hin).
    apply list_elem_of_In, Hok in Hin. apply andb_prop in Hin as [Hn _].
    intros Heq. cbn [fst] in Heq. rewrite Heq in Hn. done. }
  unfold keep_all at 1 2. f_equal. apply flat_map_ext. intros d.
  destruct (child_named d subdirs) as [sub|] eqn:E; [|done].
  apply child_named_elem_of in E. rewrite Forall_forall in IH.
  apply (IH _ E). apply list_elem_of_In, Hok in E. by apply andb_prop in E as [_ ?].
Qed.

(** X9. With an empty skip set and no [__MACOSX] directory at or below
    the top, the patched walk is the original walk with nothing changed
    but the file names, of which those with an allowed extension remain:
    same directories, same order, same sub-directory lists. *)
Theorem patched_walk_only_filters_files fs top sub :
  lookup_dir fs top = Some sub → no_macosx sub = true →
  filtered_walk ∅ (os_walk_on fs) keep_all top
  = jpeg_files_only <$> os_walk_on fs keep_all top.
Proof.
  intros Hl Hok. rewrite filtered_walk_on_tree. unfold os_walk_on. rewrite Hl.
  rewrite bool_decide_eq_false_2 by set_solver. by rewrite walk_tree_keeps_all.
Qed.

Lemma patched_walk_only_filters_files_witness :
  filtered_walk ∅ (os_walk_on Unreadable.tree) keep_all Unreadable.root
  = jpeg_files_only <$> os_walk_on Unreadable.tree keep_all Unreadable.root.
Proof.
  apply (patched_walk_only_filters_files Unreadable.tree Unreadable.root
           (Dir [("a", Dir [] ["good.jpg"; "broken.jpg"]);
                 ("old", Dir [] ["seen.jpg"])] []));
    reflexivity.
Defined.

(** ** The Frame Builder, row by row *)

Lemma select_filter {A} (f : A → bool) (l : list A) :
  select (f <$> l) l = filter (λ x, f x = true) l.
Proof.
  induction l as [|x l IH]; [done|]. csimpl. rewrite filter_cons.
  destruct (f x) eqn:E; rewrite IH.
  - by rewrite decide_True.
  - by rewrite decide_False.
Qed.

Lemma select_length {A B} (f : A → bool) (l : list A) :
  ∀ k : list B, length k = length l →
    length (select (f <$> l) k) = length (filter (λ x, f x = true) l).
Proof.
  induction l as [|x l IH]; intros [|y k] Hlen; try done. csimpl.
  injection Hlen as Hlen. rewrite filter_cons.
  destruct (f x) eqn:E.
  - rewrite decide_True by done. cbn [length]. by rewrite IH.
  - rewrite decide_False by done. by apply IH.
Qed.

Lemma filter_length_split {A} (f : A → bool) (l : list A) :
  (length (filter (λ x, f x = true) l) + length (filter (λ x, f x = false) l)
   = length l)%nat.
Proof.
  induction l as [|x l IH]; [done|]. rewrite !filter_cons.
  destruct (f x) eqn:E.
  - rewrite decide_True, decide_False by done. cbn [length]. lia.
  - rewrite decide_False, decide_True by done. cbn [length]. lia.
Qed.

Lemma columns_getitem_mask gif mask :
  columns (reset_index (getitem_mask gif mask)) = columns gif.
Proof.
  unfold columns, reset_index, getitem_mask. cbn [df_data].
  rewrite <- list_fmap_compose. by apply list_fmap_ext.
Qed.

Lemma df_empty_index gif : df_empty gif = false → df_index gif ≠ [].
Proof. unfold df_empty. by destruct (df_index gif). Qed.

Section BuildRows.

Context {Image : Type}.
Variable load_images : LoadImages Image.

(** X10. When the Frame Builder returns a table, it is the library's
    table cut down to the rows whose [image_url] has an allowed extension:
    those rows all remain, in the library's order; the columns are the
    library's; the rows are numbered afresh from 0 and there is at least
    one; and the count returned beside the table is the number of rows
    removed, which for a table with one cell per row is the number of
    [image_url]s with another extension. *)
Theorem frame_builder_keeps_jpeg_rows root ct ts skip (g : Globals Image) t d :
  result (build_geoimageframe load_images root ct ts skip g) = Ok (t, d) →
  ∃ gif urls,
    result (load_images_filtered load_images root ct ts skip g) = Ok gif
    ∧ getitem gif "image_url" = Ok urls
    ∧ getitem t "image_url" = Ok (filter (λ u, is_jpeg u = true) urls)
    ∧ columns t = columns gif
    ∧ df_index t = seq 0 (len t)
    ∧ (0 < len t)%nat
    ∧ d = (Z.of_nat (len gif) - Z.of_nat (len t))%Z
    ∧ (length urls = len gif →
       len t = length (filter (λ u, is_jpeg u = true) urls)
       ∧ d = Z.of_nat (length (filter (λ u, is_jpeg u = false) urls))).
Proof.
  rewrite build_geoimageframe_run. cbn zeta. cbn [result].
  destruct (result _) as [gif|e]; [|done].
  destruct (getitem gif "image_url") as [urls|e] eqn:Eu; [|done].
  destruct (df_empty _) eqn:Ee; [done|]. intros [= <- <-].
  apply df_empty_index in Ee. cbn [getitem_mask df_index] in Ee.
  exists gif, urls.
  assert (len (reset_index (getitem_mask gif (is_jpeg <$> urls)))
          = len (getitem_mask gif (is_jpeg <$> urls))) as Hlen.
  { unfold len at 1, reset_index. cbn [df_index]. apply length_seq. }
  split; [done|]. split; [done|]. split.
  { rewrite (getitem_reset_mask _ _ _ _ Eu). by rewrite select_filter. }
  split; [apply columns_getitem_mask|]. split.
  { by rewrite Hlen. }
  split.
  { rewrite Hlen. unfold len, getitem_mask. cbn [df_index].
    destruct (select _ _); [done | cbn [length]; lia]. }
  split; [by rewrite Hlen|]. intros Hurls.
  assert (len (getitem_mask gif (is_jpeg <$> urls))
          = length (filter (λ u, is_jpeg u = true) urls)) as Hkept.
  { unfold len, getitem_mask. cbn [df_index]. by apply select_length. }
  rewrite Hlen, Hkept. split; [done|].
  pose proof (filter_length_split is_jpeg urls). unfold len in Hurls. unfold len. lia.
Qed.

End BuildRows.

Lemma frame_builder_keeps_jpeg_rows_witness :
  ∃ gif urls,
    result (load_images_filtered Mixed.load_images ["data"] true (256, 256)%Z ∅
              Scenario.store) = Ok gif
    ∧ getitem gif "image_url" = Ok urls
    ∧ getitem (reset_index (getitem_mask Mixed.frame [true; false; true])) "image_url"
      = Ok (filter (λ u, is_jpeg u = true) urls)
    ∧ columns (reset_index (getitem_mask Mixed.frame [true; false; true])) = columns gif
    ∧ df_index (reset_index (getitem_mask Mixed.frame [true; false; true]))
      = seq 0 (len (reset_index (getitem_mask Mixed.frame [true; false; true])))
    ∧ (0 < len (reset_index (getitem_mask Mixed.frame [true; false; true])))%nat
    ∧ 1%Z = (Z.of_nat (len gif)
             - Z.of_nat (len (reset_index (getitem_mask Mixed.frame [true; false; true]))))%Z
    ∧ (length urls = len gif →
       len (reset_index (getitem_mask Mixed.frame [true; false; true]))
       = length (filter (λ u, is_jpeg u = true) urls)
       ∧ 1%Z = Z.of_nat (length (filter (λ u, is_jpeg u = false) urls))).
Proof.
  apply (frame_builder_keeps_jpeg_rows Mixed.load_images ["data"] true (256, 256)%Z ∅
           Scenario.store).
  by vm_compute.
Defined.

(** ** The Schema Aligner, applied twice *)

Lemma filter_drops_all {A} (P : A → Prop) `{!∀ x, Decision (P x)} (l : list A) :
  (∀ x, x ∈ l → ¬ P x) → filter P l = [].
Proof.
  induction l as [|x l IH]; intros Hall; [done|].
  rewrite filter_cons_False by (apply Hall; left).
  apply IH. intros y Hy. apply Hall. by right.
Qed.

Lemma getitem_columns_all gif :
  NoDup (columns gif) → getitem_columns gif (columns gif) = gif.
Proof.
  intros Hnd. pose proof (getitem_columns_present (λ _, True) gif Hnd) as H.
  rewrite !filter_keeps_all in H by done.
  destruct gif as [index data]. unfold getitem_columns in *. cbn [df_index df_data] in *.
  by rewrite H.
Qed.

Section AlignerTwice.

Context {Image : Type}.

Implicit Types g : Globals Image.

Lemma align_columns_to_table_ok db table schema gif g t :
  result (align_columns_to_table db table schema gif g) = Ok t →
  missing_required (get_columns db table schema) = []
  ∧ t = getitem_columns gif
          (filter (λ col, col ∈ get_columns db table schema) (columns gif)).
Proof.
  rewrite align_columns_to_table_run. cbn zeta.
  destruct (missing_required _); [|done]. cbn [result]. by intros [= <-].
Qed.

(** X11. Aligning an aligned table changes nothing: for a table with
    distinct column labels, what the Schema Aligner returns is returned
    unchanged when aligned against the same target again, and this second
    pass warns about no column. *)
Theorem aligner_is_idempotent db table schema gif g t :
  NoDup (columns gif) →
  result (align_columns_to_table db table schema gif g) = Ok t →
  ∀ g', align_columns_to_table db table schema t g'
        = {| trace := [EvInspect table schema; EvReflect table schema];
             result := Ok t;
             globals := g' |}.
Proof.
  intros Hnd [Hm ->]%align_columns_to_table_ok g'.
  set (target := get_columns db table schema) in *.
  set (t := getitem_columns gif (filter (λ col, col ∈ target) (columns gif))).
  assert (columns t = filter (λ col, col ∈ target) (columns gif)) as Hcols.
  { unfold columns at 1. subst t.
    rewrite (getitem_columns_present (λ c, c ∈ target) gif Hnd).
    exact (filter_labels (λ c, c ∈ target) (df_data gif)). }
  assert (∀ c, c ∈ columns t → c ∈ target) as Hin.
  { intros c. rewrite Hcols. by intros [? _]%list_elem_of_filter. }
  rewrite align_columns_to_table_run. cbn zeta. fold target. rewrite Hm.
  rewrite (filter_drops_all (λ col, col ∉ target)) by (intros c Hc Hn; by apply Hn, Hin).
  rewrite (filter_keeps_all (λ col, col ∈ target)) by done.
  rewrite getitem_columns_all; [done|]. rewrite Hcols. by apply NoDup_filter.
Qed.

End AlignerTwice.

Lemma aligner_is_idempotent_witness :
  align_columns_to_table (Run.db ["geometry"; "name"; "image_url"]) "images" None
    (getitem_columns Run.table ["image_url"; "name"; "geometry"]) Scenario.store
  = {| trace := [EvInspect "images" None; EvReflect "images" None];
       result := Ok (getitem_columns Run.table ["image_url"; "name"; "geometry"]);
       globals := Scenario.store |}.
Proof.
  apply (aligner_is_idempotent (Run.db ["geometry"; "name"; "image_url"]) "images" None
           Run.table Scenario.store).
  - by_compute.
  - by vm_compute.
Defined.

(** ** One column of an aligned table *)

Lemma filter_label_twice key k (data : list (string * list string)) :
  List.filter (λ col, String.eqb col.1 key) (List.filter (λ col, String.eqb col.1 k) data)
  = if String.eqb k key then List.filter (λ col, String.eqb col.1 key) data else [].
Proof.
  induction data as [|col data IH]; [by destruct (String.eqb k key)|]. cbn [List.filter].
  destruct (String.eqb_spec col.1 k) as [Hk|Hk]; cbn [List.filter]; rewrite IH.
  - destruct (String.eqb_spec k key) as [Hkey|Hkey].
    + by rewrite Hk, Hkey, String.eqb_refl.
    + rewrite Hk. by destruct (String.eqb_spec k key).
  - destruct (String.eqb_spec k key) as [Hkey|Hkey]; [|done].
    destruct (String.eqb_spec col.1 key); [congruence | done].
Qed.

Lemma filter_label_flat_map key (data : list (string * list string)) keys :
  List.filter (λ col, String.eqb col.1 key)
    (flat_map (λ k, List.filter (λ col, String.eqb col.1 k) data) keys)
  = flat_map (λ k, if String.eqb k key
                   then List.filter (λ col, String.eqb col.1 key) data else []) keys.
Proof.
  induction keys as [|k keys IH]; [done|]. cbn [flat_map].
  by rewrite List.filter_app, IH, filter_label_twice.
Qed.

Lemma flat_map_present_labels {A} key (target : list string) (X : list A)
    (l : list (string * list string)) :
  key ∈ target →
  flat_map (λ k, if String.eqb k key then X else [])
           (filter (λ c, c ∈ target) l.*1)
  = flat_map (λ _, X) (List.filter (λ col, String.eqb col.1 key) l).
Proof.
  intros Hkey. induction l as [|col l IH]; [done|]. csimpl. rewrite filter_cons.
  destruct (decide (col.1 ∈ target)) as [Hin|Hout]; cbn [flat_map].
  - rewrite IH. by destruct (String.eqb col.1 key).
  - destruct (String.eqb_spec col.1 key) as [Heq|_]; [|done].
    destruct Hout. by rewrite Heq.
Qed.

(** A column whose label the target knows is read from the aligned table
    as from the table itself. *)
Lemma getitem_aligned gif (target : list string) key :
  key ∈ target →
  getitem (getitem_columns gif (filter (λ c, c ∈ target) (columns gif))) key
  = getitem gif key.
Proof.
  intros Hkey. unfold getitem, getitem_columns, columns. cbn [df_data].
  rewrite filter_label_flat_map, (flat_map_present_labels _ _ _ _ Hkey).
  destruct (List.filter _ (df_data gif)) as [|c1 [|c2 rest]]; done.
Qed.

Lemma required_present target col :
  missing_required target = [] →
  col ∈ ["image_url"; "name"; "geometry"] → col ∈ target.
Proof.
  intros Hm Hcol. destruct (decide (col ∈ target)) as [|Hn]; [done|].
  assert (col ∈ missing_required target) as Hmiss.
  { unfold missing_required. rewrite sorted_perm, elem_of_elements, elem_of_difference.
    rewrite elem_of_list_to_set, !elem_of_union, !elem_of_singleton.
    rewrite !elem_of_cons, elem_of_nil in Hcol. tauto. }
  rewrite Hm in Hmiss. by apply elem_of_nil in Hmiss.
Qed.

(** ** The Directory Deduplicator and the walk *)

Lemma prefix_both (p q : Path) : p `prefix_of` q → q `prefix_of` p → p = q.
Proof.
  intros [k ->] [k' Hk]. rewrite <- app_assoc in Hk.
  apply (f_equal length) in Hk. rewrite !length_app in Hk.
  destruct k; [by rewrite app_nil_r | cbn [length] in Hk; lia].
Qed.

Section Deduplicator.

Context {Image : Type}.

Implicit Types g : Globals Image.

Lemma fetch_existing_dirs_run w db table root schema :
  fetch_existing_dirs (Image:=Image) w db table root schema
  = (emit (EvQuery (from_clause table schema) (str_of_path root +:+ "%"));;
     mret (known_dirs w db table root schema)).
Proof. by destruct schema as [s|]. Qed.

(** X12. Directories the database already knows are not scanned again:
    [fetch_existing_dirs] issues one query, for the image URLs starting
    with the root, and returns exactly the resolved directories of its
    non-empty rows, [NULL] and empty rows being ignored; and for such a
    directory at or below the root, the walk patched with the returned set
    yields neither that directory nor anything beneath it. *)
Theorem known_directories_are_not_rescanned w db table root schema g row :
  let query := (from_clause table schema, str_of_path root +:+ "%") in
  let out := fetch_existing_dirs w db table root schema g in
  Some row ∈ select_dirs db query.1 query.2 → row ≠ "" →
  ∃ skip_dirs : gset Path,
    result out = Ok skip_dirs
    ∧ trace out = [EvQuery query.1 query.2]
    ∧ resolve w row ∈ skip_dirs
    ∧ (∀ D, D ∈ skip_dirs ↔
            ∃ row', Some row' ∈ select_dirs db query.1 query.2
                    ∧ row' ≠ "" ∧ D = resolve w row')
    ∧ (root `prefix_of` resolve w row →
       ∀ fs item,
         item ∈ filtered_walk skip_dirs (os_walk_on fs) keep_all root →
         ¬ resolve w row `prefix_of` item.1.1).
Proof.
  cbn zeta. cbn [fst snd]. intros Hrow Hne. rewrite fetch_existing_dirs_run.
  exists (known_dirs w db table root schema).
  assert (∀ D, D ∈ known_dirs w db table root schema ↔
               ∃ row', Some row' ∈ select_dirs db (from_clause table schema)
                                      (str_of_path root +:+ "%")
                       ∧ row' ≠ "" ∧ D = resolve w row') as Hknown.
  { intros D. unfold known_dirs. rewrite elem_of_list_to_set, list_elem_of_fmap. split.
    - intros (row' & -> & ([row''|] & Hin & Hsome)%list_elem_of_omap); [|done].
      cbn [truthy] in Hsome. unfold PyStr.nonempty in Hsome.
      destruct (String.eqb_spec row'' "") as [|Hne']; [done|].
      injection Hsome as <-. by exists row''.
    - intros (row' & Hin & Hne' & ->). exists row'. split; [done|].
      apply list_elem_of_omap. exists (Some row'). split; [done|].
      cbn [truthy]. unfold PyStr.nonempty.
      by destruct (String.eqb_spec row' ""). }
  assert (resolve w row ∈ known_dirs w db table root schema) as HD
    by (apply Hknown; by exists row).
  split; [done|]. split; [done|]. split; [done|]. split; [done|].
  intros Hroot fs item Hitem Hbelow.
  destruct (filtered_walk_avoids_skipped _ _ _ _ _ Hitem HD Hbelow) as [Hup Hneq].
  by apply Hneq, prefix_both.
Qed.

End Deduplicator.

Lemma known_directories_are_not_rescanned_witness :
  ∃ skip_dirs : gset Path,
    result (fetch_existing_dirs (Resume.world ["image_url"; "name"; "geometry"])
              (Resume.db ["image_url"; "name"; "geometry"]) "images" ["data"]
              (Some "public") Unreadable.store) = Ok skip_dirs
    ∧ ["data"; "old"] ∈ skip_dirs
    ∧ ∀ item,
        item ∈ filtered_walk skip_dirs (os_walk_on Unreadable.tree) keep_all ["data"] →
        ¬ ["data"; "old"] `prefix_of` item.1.1.
Proof.
  destruct (known_directories_are_not_rescanned
              (Resume.world ["image_url"; "name"; "geometry"])
              (Resume.db ["image_url"; "name"; "geometry"]) "images" ["data"]
              (Some "public") Unreadable.store "/data/old")
    as (skip_dirs & Hr & _ & Hin & _ & Hwalk).
  - left.
  - discriminate.
  - exists skip_dirs. split; [exact Hr|]. split; [exact Hin|].
    intros item. apply Hwalk. by exists ["old"].
Defined.

(** ** A whole run, step by step *)

Section RunLemmas.

Context {Image : Type}.
Variable load_images : LoadImages Image.

Implicit Types g : Globals Image.

Lemma import_images_run w env args g :
  import_images load_images w env args g =
    let root := resolve w (arg_directory args) in
    match lookup_dir (fs w) root, load_config args env with
    | None, _ =>
        {| trace := [];
           result := Raise (ValueError ("Directory not found: " +:+ str_of_path root));
           globals := g |}
    | Some _, Raise e => {| trace := []; result := Raise e; globals := g |}
    | Some _, Ok config =>
        let db := connect w (database_url config) in
        let table := table_name config in
        let schema := table_schema config in
        let skip_dirs :=
          if skip_existing_dirs config then known_dirs w db table root schema else ∅ in
        let pre :=
          (if skip_existing_dirs config
           then [EvPrint "Fetching existing image directories from database...";
                 EvQuery (from_clause table schema) (str_of_path root +:+ "%");
                 EvPrint ("Will skip " +:+ pretty (size skip_dirs)
                          +:+ " directories already in the database.")]
           else [])
          ++ [EvPrint ("Scanning " +:+ str_of_path root +:+ " for JPEG images...")] in
        let built :=
          build_geoimageframe load_images root (create_thumbnails config)
            (thumbnail_size config) skip_dirs g in
        match result built with
        | Raise e => {| trace := pre ++ trace built; result := Raise e; globals := unwrapped g |}
        | Ok (gif, dropped) =>
            let note :=
              if (dropped =? 0)%Z then []
              else [EvPrint ("Skipped " +:+ pretty dropped
                             +:+ " non-JPEG images that were discovered during scanning.")] in
            let aligned := align_columns_to_table db table schema gif (unwrapped g) in
            match result aligned with
            | Raise e =>
                {| trace := pre ++ trace built ++ note ++ trace aligned;
                   result := Raise e; globals := unwrapped g |}
            | Ok gif' =>
                let send :=
                  [EvPrint ("Table columns: " +:+ repr_list (columns gif'));
                   EvPrint ("Found " +:+ pretty (len gif')
                            +:+ " JPEG images; importing into " +:+ table +:+ "...");
                   EvUpsert gif' table (conflict config)] in
                match upsert_images db gif' table (conflict config) with
                | Ok _ =>
                    {| trace := pre ++ trace built ++ note ++ trace aligned ++ send
                                ++ [EvPrint "Import complete."];
                       result := Ok (); globals := unwrapped g |}
                | Raise exc =>
                    {| trace := pre ++ trace built ++ note ++ trace aligned ++ send;
                       result := Raise (RuntimeError (upsert_failure config gif' exc));
                       globals := unwrapped g |}
                end
            end
        end
    end.
Proof.
  cbn zeta. unfold import_images. cbn zeta.
  destruct (lookup_dir (fs w) (resolve w (arg_directory args))) as [sub|] eqn:El.
  2:{ rewrite bool_decide_eq_false_2 by (by intros [? ?]). reflexivity. }
  rewrite bool_decide_eq_true_2 by done. cbn [negb].
  destruct (load_config args env) as [config|e]; [|reflexivity].
  rewrite lift_ok_bind, fetch_existing_dirs_run.
  unfold mbind, prog_bind, emit, lift, when, mret, prog_ret, raise.
  cbn [trace result globals].
  destruct (skip_existing_dirs config); cbn [trace result globals app].
  all: match goal with
       | |- context [build_geoimageframe ?l ?r ?c ?t ?s ?g0] =>
           pose proof (globals_build_geoimageframe l r c t s g0) as Hb;
           destruct (build_geoimageframe l r c t s g0) as [tb [[gif dropped]|e] gb];
           cbn [trace result globals] in *; subst gb; [|reflexivity]
       end.
  all: destruct (dropped =? 0)%Z; cbn [negb trace result globals app].
  all: match goal with
       | |- context [align_columns_to_table ?d ?t ?s ?f ?g0] =>
           pose proof (preserves_align_columns_to_table (Image:=Image) d t s f g0) as Ha;
           destruct (align_columns_to_table d t s f g0) as [ta [gif'|e] ga];
           cbn [trace result globals] in *; subst ga
       end.
  all: try (rewrite ?app_nil_r, <- ?app_assoc; reflexivity).
  all: destruct (upsert_images _ _ _ _); cbn [trace result globals app].
  all: rewrite ?app_nil_r, <- ?app_assoc; reflexivity.
Qed.

Lemma build_trace_background root ct ts skip g :
  Forall (λ ev, background ev = true)
    (trace (build_geoimageframe load_images root ct ts skip g)).
Proof. by apply (emits_only_build_geoimageframe (λ ev, background ev = true)). Qed.

Lemma align_trace_background db table schema gif g :
  Forall (λ ev, background ev = true)
    (trace (align_columns_to_table db table schema gif g)).
Proof.
  rewrite align_columns_to_table_run. cbn zeta.
  destruct (missing_required _); cbn [trace]; [|by repeat constructor].
  destruct (filter _ _); by repeat constructor.
Qed.

Lemma background_quiet l :
  Forall (λ ev, background ev = true) l → Forall (λ ev, quiet ev = true) l.
Proof. intros H. eapply Forall_impl; [done|]. by intros []. Qed.

Lemma background_no_query l :
  Forall (λ ev, background ev = true) l → Forall (λ ev, is_query ev = false) l.
Proof. intros H. eapply Forall_impl; [done|]. by intros []. Qed.

Lemma build_geoimageframe_rows root ct ts skip g t d :
  result (build_geoimageframe load_images root ct ts skip g) = Ok (t, d) →
  df_index t ≠ [].
Proof.
  rewrite build_geoimageframe_run. cbn zeta. cbn [result].
  destruct (result _) as [gif|e]; [|done].
  destruct (getitem gif "image_url") as [urls|e]; [|done].
  destruct (df_empty _) eqn:Ee; [done|]. intros [= <- _].
  apply df_empty_index in Ee. cbn [reset_index df_index]. unfold len.
  by destruct (df_index (getitem_mask gif (is_jpeg <$> urls))).
Qed.

(** A run is a stretch of quiet events, followed, when every check
    passed, by one upsert and, when that succeeded, the closing line. *)
Lemma import_images_shape w env args g :
  let root := resolve w (arg_directory args) in
  let out := import_images load_images w env args g in
  ∃ events,
    Forall (λ ev, quiet ev = true) events
    ∧ ((trace out = events ∧ is_raise (result out))
       ∨ ∃ config t d gif,
           let db := connect w (database_url config) in
           let skip_dirs :=
             if skip_existing_dirs config
             then known_dirs w db (table_name config) root (table_schema config)
             else ∅ in
           is_Some (lookup_dir (fs w) root)
           ∧ load_config args env = Ok config
           ∧ result (build_geoimageframe load_images root (create_thumbnails config)
                       (thumbnail_size config) skip_dirs g) = Ok (t, d)
           ∧ result (align_columns_to_table db (table_name config)
                       (table_schema config) t (unwrapped g)) = Ok gif
           ∧ trace out
             = events ++ EvUpsert gif (table_name config) (conflict config)
                 :: match upsert_images db gif (table_name config) (conflict config) with
                    | Ok _ => [EvPrint "Import complete."]
                    | Raise _ => []
                    end
           ∧ result out
             = match upsert_images db gif (table_name config) (conflict config) with
               | Ok _ => Ok ()
               | Raise exc => Raise (RuntimeError (upsert_failure config gif exc))
               end).
Proof.
  cbn zeta. rewrite import_images_run. cbn zeta.
  destruct (lookup_dir (fs w) (resolve w (arg_directory args))) as [sub|] eqn:El.
  2:{ exists []. split; [constructor | by left]. }
  destruct (load_config args env) as [config|e] eqn:Ec.
  2:{ exists []. split; [constructor | by left]. }
  set (root := resolve w (arg_directory args)).
  set (db := connect w (database_url config)).
  set (skip_dirs := if skip_existing_dirs config then _ else ∅).
  set (pre := (if skip_existing_dirs config then _ else []) ++ [_]).
  assert (Forall (λ ev, quiet ev = true) pre) as Hpre.
  { subst pre. destruct (skip_existing_dirs config); by repeat constructor. }
  pose proof (background_quiet _ (build_trace_background root (create_thumbnails config)
                                    (thumbnail_size config) skip_dirs g)) as Hb.
  destruct (result (build_geoimageframe _ _ _ _ _ _)) as [[t d]|e] eqn:Eb.
  2:{ eexists. split; [|left; split; [reflexivity | done]].
      apply Forall_app. by split. }
  set (note := if (d =? 0)%Z then [] else [_]).
  assert (Forall (λ ev, quiet ev = true) note) as Hnote.
  { subst note. destruct (d =? 0)%Z; by repeat constructor. }
  pose proof (background_quiet _ (align_trace_background db (table_name config)
                                    (table_schema config) t (unwrapped g))) as Ha.
  destruct (result (align_columns_to_table _ _ _ _ _)) as [gif|e] eqn:Ea.
  2:{ eexists. split; [|left; split; [reflexivity | done]].
      repeat (apply Forall_app; split; try done). }
  exists (pre ++ trace (build_geoimageframe load_images root (create_thumbnails config)
                          (thumbnail_size config) skip_dirs g)
              ++ note
              ++ trace (align_columns_to_table db (table_name config)
                          (table_schema config) t (unwrapped g))
              ++ [EvPrint ("Table columns: " +:+ repr_list (columns gif));
                  EvPrint ("Found " +:+ pretty (len gif)
                           +:+ " JPEG images; importing into " +:+ table_name config
                           +:+ "...")]).
  split.
  { repeat (apply Forall_app; split; try done). by repeat constructor. }
  right. exists config, t, d, gif.
  split; [by eexists|]. split; [done|]. split; [done|]. split; [done|].
  subst db. destruct (upsert_images _ gif _ _); cbn [trace result];
    (split; [|done]); rewrite <- !app_assoc; reflexivity.
Qed.

Lemma quiet_no_upsert events gif table c :
  Forall (λ ev, quiet ev = true) events → EvUpsert gif table c ∉ events.
Proof. intros H Hin. by apply (proj1 (Forall_forall _ _) H) in Hin. Qed.

Lemma quiet_not_complete events :
  Forall (λ ev, quiet ev = true) events → EvPrint "Import complete." ∉ events.
Proof. intros H Hin. by apply (proj1 (Forall_forall _ _) H) in Hin. Qed.

(** What is known of a run in whose trace an upsert occurs. *)
Lemma upsert_in_run w env args g gif table c :
  let root := resolve w (arg_directory args) in
  let out := import_images load_images w env args g in
  EvUpsert gif table c ∈ trace out →
  ∃ config t d,
    let db := connect w (database_url config) in
    let skip_dirs :=
      if skip_existing_dirs config
      then known_dirs w db (table_name config) root (table_schema config)
      else ∅ in
    is_Some (lookup_dir (fs w) root)
    ∧ load_config args env = Ok config
    ∧ result (build_geoimageframe load_images root (create_thumbnails config)
                (thumbnail_size config) skip_dirs g) = Ok (t, d)
    ∧ result (align_columns_to_table db (table_name config)
                (table_schema config) t (unwrapped g)) = Ok gif
    ∧ table = table_name config
    ∧ c = conflict config
    ∧ (∃ events,
         Forall (λ ev, quiet ev = true) events
         ∧ trace out
           = events ++ EvUpsert gif table c
               :: match upsert_images db gif table c with
                  | Ok _ => [EvPrint "Import complete."]
                  | Raise _ => []
                  end)
    ∧ result out
      = match upsert_images db gif table c with
        | Ok _ => Ok ()
        | Raise exc => Raise (RuntimeError (upsert_failure config gif exc))
        end.
Proof.
  cbn zeta. intros Hin.
  destruct (import_images_shape w env args g) as (events & Hq & [[Ht _]|Hrun]).
  { rewrite Ht in Hin. by apply quiet_no_upsert in Hin. }
  destruct Hrun as (config & t & d & gif' & Hdir & Hc & Hb & Ha & Ht & Hr).
  cbn zeta in *. rewrite Ht in Hin.
  apply elem_of_app in Hin as [Hin|Hin]; [by apply quiet_no_upsert in Hin|].
  apply elem_of_cons in Hin as [Heq|Hin].
  2:{ destruct (upsert_images _ _ _ _).
      - apply list_elem_of_singleton in Hin. discriminate.
      - by apply elem_of_nil in Hin. }
  injection Heq as -> -> ->.
  exists config, t, d. repeat (split; [done|]). split; [|done]. by exists events.
Qed.

(** X13. Nothing is sent to the database before every check has passed:
    an upsert occurs in a run only when the directory exists and the
    configuration is valid, on the configured table with the configured
    conflict policy; the target then holds the three required columns,
    every column sent exists in the target and [image_url] is among them,
    and the table sent has at least one row. *)
Theorem upsert_only_after_every_check w env args g gif table c :
  EvUpsert gif table c ∈ trace (import_images load_images w env args g) →
  ∃ config,
    let target := get_columns (connect w (database_url config)) table
                    (table_schema config) in
    is_Some (lookup_dir (fs w) (resolve w (arg_directory args)))
    ∧ load_config args env = Ok config
    ∧ table = table_name config
    ∧ c = conflict config
    ∧ (∀ col, col ∈ ["image_url"; "name"; "geometry"] → col ∈ target)
    ∧ (∀ col, col ∈ columns gif → col ∈ target)
    ∧ "image_url" ∈ columns gif
    ∧ df_index gif ≠ [].
Proof.
  intros (config & t & d & Hdir & Hc & Hb & Ha & -> & -> & _)%upsert_in_run.
  cbn zeta in *. exists config. cbn zeta.
  set (target := get_columns _ _ _) in *.
  apply align_columns_to_table_ok in Ha as [Hm ->]. fold target in Hm |- *.
  assert (∀ col, col ∈ ["image_url"; "name"; "geometry"] → col ∈ target) as Hreq
    by (intros col; by apply required_present).
  pose proof (build_geoimageframe_rows _ _ _ _ _ _ _ Hb) as Hrows.
  apply build_geoimageframe_ok in Hb as (gif0 & urls & _ & Hurls & Ht & _ & Hgot).
  repeat (split; [done|]). split; [|split].
  - intros col [[? _]%list_elem_of_filter _]%getitem_columns_labels. done.
  - assert ("image_url" ∈ columns t) as Hurl.
    { unfold getitem in Hgot. unfold columns.
      destruct (List.filter _ (df_data t)) as [|col rest] eqn:Ef; [done|].
      assert (col ∈ List.filter (λ col, String.eqb col.1 "image_url") (df_data t)) as Hcol
        by (rewrite Ef; left).
      apply list_elem_of_In, filter_In in Hcol as [Hcol Hname%String.eqb_eq].
      apply list_elem_of_fmap. exists col. split; [done | by apply list_elem_of_In]. }
    apply getitem_columns_labels. split; [|done].
    apply list_elem_of_filter. split; [|done]. apply Hreq. left.
  - done.
Qed.

(** X14. Only JPEG rows are sent: in the table of any upsert a run
    attempts, the [image_url] column is there to be read and each of its
    cells ends, lower-cased, in [.jpg] or [.jpeg], whatever the library
    assembled and whatever the target's other columns are. *)
Theorem only_jpeg_rows_are_sent w env args g gif table c :
  EvUpsert gif table c ∈ trace (import_images load_images w env args g) →
  ∃ urls, getitem gif "image_url" = Ok urls ∧ ∀ u, u ∈ urls → is_jpeg u = true.
Proof.
  intros (config & t & d & _ & _ & Hb & Ha & _)%upsert_in_run. cbn zeta in *.
  apply align_columns_to_table_ok in Ha as [Hm ->].
  apply build_geoimageframe_ok in Hb as (gif0 & urls & _ & _ & _ & _ & Hgot).
  exists (select (is_jpeg <$> urls) urls). split.
  - rewrite getitem_aligned; [done|]. apply (required_present _ _ Hm). left.
  - by intros u [? _]%select_elem_of.
Qed.

Lemma complete_iff_ok w env args g :
  let out := import_images load_images w env args g in
  result out = Ok () ↔ EvPrint "Import complete." ∈ trace out.
Proof.
  cbn zeta.
  destruct (import_images_shape w env args g) as (events & Hq & [[Ht Hr]|Hrun]).
  { rewrite Ht. split.
    - intros Hok. by rewrite Hok in Hr.
    - by intros ?%quiet_not_complete. }
  destruct Hrun as (config & t & d & gif & _ & _ & _ & _ & Ht & Hr). cbn zeta in *.
  rewrite Ht, Hr. destruct (upsert_images _ _ _ _) as [[]|exc].
  - split; [|done]. intros _. apply elem_of_app. right. right. left.
  - split; [done|]. intros [Hin|Hin]%elem_of_app; [by apply quiet_not_complete in Hin|].
    apply list_elem_of_singleton in Hin. discriminate.
Qed.

Lemma quiet_filter_upsert events :
  Forall (λ ev, quiet ev = true) events →
  filter (λ ev, is_upsert ev = true) events = [].
Proof.
  intros H. apply filter_drops_all. intros ev Hin.
  apply (proj1 (Forall_forall _ _) H) in Hin. by destruct ev.
Qed.

(** X15. A run succeeds exactly when its upsert does: the result is
    success if and only if "Import complete." is printed, and the trace
    then ends with the upsert followed by that line; no run attempts more
    than one upsert; and for the upsert a run attempts, a refusal by the
    database ends the run right there with a [RuntimeError] naming the
    table, the schema, the columns sent and the database's own error. *)
Theorem run_succeeds_exactly_when_upsert_does w env args g :
  let out := import_images load_images w env args g in
  (result out = Ok () ↔ EvPrint "Import complete." ∈ trace out)
  ∧ (result out = Ok () →
     ∃ events gif table c,
       trace out = events ++ [EvUpsert gif table c; EvPrint "Import complete."]
       ∧ Forall (λ ev, quiet ev = true) events)
  ∧ (length (filter (λ ev, is_upsert ev = true) (trace out)) ≤ 1)%nat
  ∧ (∀ gif table c,
       EvUpsert gif table c ∈ trace out →
       ∃ config,
         load_config args env = Ok config
         ∧ match upsert_images (connect w (database_url config)) gif table c with
           | Ok _ => result out = Ok ()
           | Raise exc =>
               result out = Raise (RuntimeError (upsert_failure config gif exc))
               ∧ last (trace out) = Some (EvUpsert gif table c)
           end).
Proof.
  cbn zeta. split; [apply complete_iff_ok|]. split; [|split].
  - destruct (import_images_shape w env args g) as (events & Hq & [[_ Hr]|Hrun]).
    { intros Hok. by rewrite Hok in Hr. }
    destruct Hrun as (config & t & d & gif & _ & _ & _ & _ & Ht & Hr). cbn zeta in *.
    rewrite Ht, Hr. destruct (upsert_images _ _ _ _); [|done]. intros _.
    by exists events, gif, (table_name config), (conflict config).
  - destruct (import_images_shape w env args g) as (events & Hq & [[Ht _]|Hrun]).
    { rewrite Ht, quiet_filter_upsert by done. cbn [length]. lia. }
    destruct Hrun as (config & t & d & gif & _ & _ & _ & _ & Ht & _). cbn zeta in *.
    rewrite Ht, filter_app, quiet_filter_upsert by done. cbn [app].
    rewrite filter_cons_True by done.
    destruct (upsert_images _ _ _ _).
    + rewrite filter_cons_False by done. cbn [length filter list_filter]. lia.
    + cbn [length filter list_filter]. lia.
  - intros gif table c Hin.
    apply upsert_in_run in Hin
      as (config & t & d & _ & Hc & _ & _ & _ & _ & (events & _ & Ht) & Hr).
    cbn zeta in *. exists config. split; [done|].
    destruct (upsert_images _ _ _ _); [done|]. split; [done|].
    rewrite Ht. apply last_snoc.
Qed.

(** X16. Without the skip option the database is not read before the
    scan: a run whose configuration does not ask to skip existing
    directories issues no directory query, and runs the same, event for
    event, against any database that answers the query differently. *)
Theorem database_is_read_only_on_request w env args g config :
  load_config args env = Ok config →
  skip_existing_dirs config = false →
  Forall (λ ev, is_query ev = false) (trace (import_images load_images w env args g))
  ∧ ∀ w',
      fs w' = fs w → resolve w' = resolve w →
      (∀ url, get_columns (connect w' url) = get_columns (connect w url)
              ∧ upsert_images (connect w' url) = upsert_images (connect w url)) →
      import_images load_images w' env args g = import_images load_images w env args g.
Proof.
  intros Hc Hskip. split.
  - rewrite import_images_run. cbn zeta. rewrite Hc, Hskip.
    destruct (lookup_dir _ _) as [sub|]; [|constructor].
    pose proof (background_no_query _
                  (build_trace_background (resolve w (arg_directory args))
                     (create_thumbnails config) (thumbnail_size config) ∅ g)) as Hb.
    destruct (result (build_geoimageframe _ _ _ _ _ _)) as [[t d]|e]; cbn [trace].
    2:{ apply Forall_app. split; [by repeat constructor | done]. }
    pose proof (background_no_query _
                  (align_trace_background (connect w (database_url config))
                     (table_name config) (table_schema config) t (unwrapped g))) as Ha.
    assert (Forall (λ ev, is_query ev = false)
              (if (d =? 0)%Z then []
               else [EvPrint ("Skipped " +:+ pretty d
                              +:+ " non-JPEG images that were discovered during scanning.")]))
      as Hnote by (destruct (d =? 0)%Z; by repeat constructor).
    destruct (result (align_columns_to_table _ _ _ _ _)) as [gif|e]; cbn [trace].
    2:{ repeat (apply Forall_app; split; try done). by repeat constructor. }
    destruct (upsert_images _ _ _ _); cbn [trace];
      repeat (apply Forall_app; split; try done); by repeat constructor.
  - intros w' Hfs Hres Hdb. rewrite !import_images_run. cbn zeta.
    rewrite Hfs, Hres, Hc, Hskip.
    destruct (lookup_dir _ _) as [sub|]; [|done].
    destruct (Hdb (database_url config)) as [Hcols Hup].
    assert (∀ t g', align_columns_to_table (Image:=Image)
                      (connect w' (database_url config))
                      (table_name config) (table_schema config) t g'
                    = align_columns_to_table (connect w (database_url config))
                        (table_name config) (table_schema config) t g') as Halign.
    { intros t g'. unfold align_columns_to_table. by rewrite Hcols. }
    destruct (result (build_geoimageframe _ _ _ _ _ _)) as [[t d]|e]; [|done].
    rewrite Halign, Hup. done.
Qed.

(** X17. Nothing happens before the invocation is validated: a missing
    directory is reported, whatever the configuration, without a single
    event, and so is a rejected configuration, as [load_config] raised it;
    any event of a run therefore means that the directory exists and the
    configuration was accepted, and the first event of all is the line
    announcing the directory query, when existing directories are to be
    skipped, or else the scan. *)
Theorem nothing_happens_before_validation w env args g :
  let root := resolve w (arg_directory args) in
  let out := import_images load_images w env args g in
  (lookup_dir (fs w) root = None →
   trace out = []
   ∧ result out = Raise (ValueError ("Directory not found: " +:+ str_of_path root)))
  ∧ (is_Some (lookup_dir (fs w) root) →
     ∀ e, load_config args env = Raise e → trace out = [] ∧ result out = Raise e)
  ∧ (∀ ev, ev ∈ trace out →
       is_Some (lookup_dir (fs w) root)
       ∧ ∃ config,
           load_config args env = Ok config
           ∧ head (trace out)
             = Some (EvPrint
                       (if skip_existing_dirs config
                        then "Fetching existing image directories from database..."
                        else "Scanning " +:+ str_of_path root +:+ " for JPEG images..."))).
Proof.
  cbn zeta. rewrite import_images_run. cbn zeta.
  destruct (lookup_dir _ _) as [sub|].
  2:{ split; [done|]. split; [by intros [? ?]|]. by intros ev ?%elem_of_nil. }
  split; [done|].
  destruct (load_config args env) as [config|e].
  2:{ split; [by intros _ e' [= ->]|]. by intros ev ?%elem_of_nil. }
  split; [by intros _ e'|]. intros ev _. split; [by eexists|].
  exists config. split; [done|].
  destruct (result (build_geoimageframe _ _ _ _ _ _)) as [[t d]|e]; cbn [trace].
  2:{ by destruct (skip_existing_dirs config). }
  destruct (result (align_columns_to_table _ _ _ _ _)) as [gif|e]; cbn [trace].
  2:{ by destruct (skip_existing_dirs config). }
  destruct (upsert_images _ _ _ _); cbn [trace]; by destruct (skip_existing_dirs config).
Qed.

(** X18. The exit status tells the outcome.  When argparse leaves by
    [SystemExit], its status is the exit status, nothing is imported and
    [main] prints nothing.  When [parse_args] returns, [main] exits with 0
    or 1: with 0 exactly when "Import complete." was printed, which is
    exactly when [main] prints no error line; any exception of the run
    gives status 1 and the line "Error: <message>", so that a missing
    directory is reported by name.  Whatever [parse_args] did, a run that
    printed "Import complete." ends with status 0, and an error line of
    [main] comes with status 1. *)
Theorem exit_status_tells_the_outcome w env parsed g :
  let p := main load_images w env parsed g in
  (∀ status, parsed = SystemExit status →
     exit_status p = status ∧ run p = None ∧ error_line p = None)
  ∧ (∀ args, parsed = Namespace args →
       let root := resolve w (arg_directory args) in
       let out := import_images load_images w env args g in
       run p = Some out
       ∧ (exit_status p = 0 ∨ exit_status p = 1)%Z
       ∧ (exit_status p = 0%Z ↔ EvPrint "Import complete." ∈ trace out)
       ∧ (exit_status p = 0%Z ↔ error_line p = None)
       ∧ (∀ exc, result out = Raise exc →
                 exit_status p = 1%Z
                 ∧ error_line p = Some ("Error: " +:+ exn_str exc))
       ∧ (lookup_dir (fs w) root = None →
          error_line p
          = Some ("Error: Directory not found: " +:+ str_of_path root)))
  ∧ (∀ out, run p = Some out → EvPrint "Import complete." ∈ trace out →
            exit_status p = 0%Z ∧ error_line p = None)
  ∧ (error_line p ≠ None → exit_status p = 1%Z).
Proof.
  cbn zeta. destruct parsed as [args|status]; unfold main.
  2:{ cbn [exit_status run error_line].
      split; [by intros status' [= ->]|]. split; [done|]. split; done. }
  pose proof (complete_iff_ok w env args g) as Hdone. cbn zeta in Hdone.
  assert (lookup_dir (fs w) (resolve w (arg_directory args)) = None →
          result (import_images load_images w env args g)
          = Raise (ValueError ("Directory not found: "
                               +:+ str_of_path (resolve w (arg_directory args))))) as Hdir.
  { intros Hnone. rewrite import_images_run. cbn zeta. by rewrite Hnone. }
  destruct (result (import_images load_images w env args g)) as [[]|exc] eqn:Er;
    cbn [exit_status run error_line].
  - split; [done|]. split; [|split; [|done]].
    + intros args' [= <-]. cbn zeta. rewrite Er.
      split; [done|]. split; [by left|]. split; [by rewrite <- Hdone|].
      split; [by split|]. split; [done|]. by intros ?%Hdir.
    + by intros out _ _.
  - split; [done|]. split; [|split; [|done]].
    + intros args' [= <-]. cbn zeta. rewrite Er.
      split; [done|]. split; [by right|]. split; [rewrite <- Hdone; by split|].
      split; [by split|]. split; [by intros exc' [= ->]|].
      by intros [= ->]%Hdir.
    + intros out [= <-] Hin. apply Hdone in Hin. congruence.
Qed.

End RunLemmas.

Lemma upsert_only_after_every_check_witness :
  ∃ config,
    let gif := getitem_columns (reset_index (getitem_mask Mixed.frame [true; false; true]))
                 ["image_url"; "name"; "geometry"] in
    let target := get_columns (connect (Run.world Scenario.tree ["geometry"; "name"; "image_url"])
                                 (database_url config)) "images" (table_schema config) in
    is_Some (lookup_dir (fs (Run.world Scenario.tree ["geometry"; "name"; "image_url"]))
               (resolve (Run.world Scenario.tree ["geometry"; "name"; "image_url"])
                  (arg_directory Run.args)))
    ∧ load_config Run.args Run.env = Ok config
    ∧ "images" = table_name config
    ∧ "update" = conflict config
    ∧ (∀ col, col ∈ ["image_url"; "name"; "geometry"] → col ∈ target)
    ∧ (∀ col, col ∈ columns gif → col ∈ target)
    ∧ "image_url" ∈ columns gif
    ∧ df_index gif ≠ [].
Proof.
  apply (upsert_only_after_every_check Mixed.load_images
           (Run.world Scenario.tree ["geometry"; "name"; "image_url"])
           Run.env Run.args Scenario.store).
  in_trace.
Defined.

Lemma only_jpeg_rows_are_sent_witness :
  ∃ urls,
    getitem (getitem_columns (reset_index (getitem_mask Mixed.frame [true; false; true]))
               ["image_url"; "name"; "geometry"]) "image_url" = Ok urls
    ∧ ∀ u, u ∈ urls → is_jpeg u = true.
Proof.
  apply (only_jpeg_rows_are_sent Mixed.load_images
           (Outage.world Scenario.tree ["geometry"; "name"; "image_url"])
           Run.env Run.args Scenario.store _ "images" "update").
  in_trace.
Defined.

Lemma database_is_read_only_on_request_witness :
  Forall (λ ev, is_query ev = false)
    (trace (import_images Scenario.load_images
              (Run.world Scenario.tree ["image_url"; "name"; "geometry"])
              Run.env Run.args Scenario.store))
  ∧ import_images Scenario.load_images
      {| fs := Unreadable.tree;
         resolve := λ _, ["data"];
         connect := λ _, Resume.db ["image_url"; "name"; "geometry"] |}
      Run.env Run.args Unreadable.store
    = import_images Scenario.load_images
        (Run.world Unreadable.tree ["image_url"; "name"; "geometry"])
        Run.env Run.args Unreadable.store.
Proof.
  destruct (database_is_read_only_on_request Scenario.load_images
              (Run.world Scenario.tree ["image_url"; "name"; "geometry"])
              Run.env Run.args Scenario.store Run.config) as [Hq _];
    [by vm_compute | reflexivity |].
  destruct (database_is_read_only_on_request Scenario.load_images
              (Run.world Unreadable.tree ["image_url"; "name"; "geometry"])
              Run.env Run.args Unreadable.store Run.config) as [_ Hsame];
    [by vm_compute | reflexivity |].
  split; [exact Hq|].
  apply Hsame; try reflexivity. intros url. by split.
Defined.

Lemma run_succeeds_exactly_when_upsert_does_witness :
  result (import_images Mixed.load_images
            (Outage.world Scenario.tree ["geometry"; "name"; "image_url"])
            Run.env Run.args Scenario.store)
  = Raise (RuntimeError
             ("Upsert failed for table 'images' (schema=None). "
              +:+ "Columns being sent: ['image_url', 'name', 'geometry']. "
              +:+ "Error: connection lost")).
Proof.
  destruct (proj2 (proj2 (proj2
              (run_succeeds_exactly_when_upsert_does Mixed.load_images
                 (Outage.world Scenario.tree ["geometry"; "name"; "image_url"])
                 Run.env Run.args Scenario.store)))
              (getitem_columns (reset_index (getitem_mask Mixed.frame [true; false; true]))
                 ["image_url"; "name"; "geometry"]) "images" "update")
    as (config & Hc & Hr & _).
  - in_trace.
  - rewrite Hr. injection Hc as <-. by vm_compute.
Defined.

Lemma exit_status_tells_the_outcome_witness :
  error_line (main Scenario.load_images (Run.world (Dir [] []) []) Run.env
                (Namespace Run.args) Scenario.store)
  = Some "Error: Directory not found: /data".
Proof.
  destruct (proj1 (proj2
              (exit_status_tells_the_outcome Scenario.load_images
                 (Run.world (Dir [] []) []) Run.env (Namespace Run.args) Scenario.store))
              Run.args eq_refl) as (_ & _ & _ & _ & _ & Hline).
  exact (Hline eq_refl).
Defined.
